(** * A chess engine: move generation and alpha-beta search

    Shallow embedding of [main.py]: the board is a list of eight rows of
    eight one-character cells, moves are pairs of squares, and the search
    is the recursive [minimax] with alpha-beta pruning.  Python exceptions
    and the recursion budget are explicit in the [outcome] type. *)

From stdpp Require Import base option list gmap.
From Stdlib Require Import ZArith Ascii Lia.
From Stdlib Require String DecimalString.

Local Open Scope char_scope.
Local Open Scope Z_scope.

(** ** Python values and control *)

Module Py.

(** The exceptions the modelled code can raise. *)
Inductive exn := IndexError | KeyError | TypeError.

(** Result of running a piece of Python: a value, a raised exception, or
    the recursion/iteration budget of the model ran out. *)
Inductive outcome (A : Type) : Type :=
| Ok (a : A)
| Raise (e : exn)
| OutOfFuel.
Arguments Ok {A} a.
Arguments Raise {A} e.
Arguments OutOfFuel {A}.

Definition bind {A B} (m : outcome A) (k : A -> outcome B) : outcome B :=
  match m with
  | Ok a => k a
  | Raise e => Raise e
  | OutOfFuel => OutOfFuel
  end.

Definition omap {A B} (f : A -> B) (m : outcome A) : outcome B :=
  bind m (fun a => Ok (f a)).

(** [for x in l: s = body x s], with exceptions leaving the loop. *)
Fixpoint for_each {A S} (l : list A) (body : A -> S -> outcome S) (s : S)
  : outcome S :=
  match l with
  | [] => Ok s
  | x :: l' => bind (body x s) (for_each l' body)
  end.

(** [range(n)] *)
Definition range (n : nat) : list Z := map Z.of_nat (seq 0 n).

(** Index normalisation of list subscripts: negative indices count from
    the end, anything outside [-len, len) is an [IndexError]. *)
Definition norm_index (len : nat) (i : Z) : option nat :=
  if (0 <=? i) && (i <? Z.of_nat len) then Some (Z.to_nat i)
  else if (- Z.of_nat len <=? i) && (i <? 0) then Some (Z.to_nat (Z.of_nat len + i))
  else None.

(** [l[i]] *)
Definition getitem {A} (l : list A) (i : Z) : outcome A :=
  match norm_index (length l) i with
  | Some n => match l !! n with Some a => Ok a | None => Raise IndexError end
  | None => Raise IndexError
  end.

(** [l[i] = a], on the value of the list *)
Definition setitem {A} (l : list A) (i : Z) (a : A) : outcome (list A) :=
  match norm_index (length l) i with
  | Some n => Ok (<[n := a]> l)
  | None => Raise IndexError
  end.

(** [str.isupper], [str.islower] and [str.upper] on one ASCII character. *)
Definition isupper (c : ascii) : bool :=
  let n := N_of_ascii c in ((65 <=? n) && (n <=? 90))%N.
Definition islower (c : ascii) : bool :=
  let n := N_of_ascii c in ((97 <=? n) && (n <=? 122))%N.
Definition upper (c : ascii) : ascii :=
  if islower c then ascii_of_N (N_of_ascii c - 32) else c.

(** A dict with character keys, as the literal lists its items. *)
Fixpoint dict_get {V} (d : list (ascii * V)) (k : ascii) : option V :=
  match d with
  | [] => None
  | (k', v) :: d' => if Ascii.eqb k k' then Some v else dict_get d' k
  end.
Definition dict_mem {V} (d : list (ascii * V)) (k : ascii) : bool :=
  match dict_get d k with Some _ => true | None => false end.

(** Numbers of the search: Python ints together with [float('inf')] and
    [float('-inf')]. *)
Inductive num := NegInf | Fin (z : Z) | PosInf.

Definition lt (a b : num) : bool :=
  match a, b with
  | NegInf, NegInf => false
  | NegInf, _ => true
  | Fin x, Fin y => x <? y
  | Fin _, PosInf => true
  | Fin _, NegInf => false
  | PosInf, _ => false
  end.
Definition gt (a b : num) : bool := lt b a.
Definition le (a b : num) : bool := negb (lt b a).

(** [max(a, b)] and [min(a, b)]: the first argument wins ties. *)
Definition max (a b : num) : num := if gt b a then b else a.
Definition min (a b : num) : num := if lt b a then b else a.

End Py.
Export Py.

Notation "'let*' x ':=' m 'in' k" := (bind m (fun x => k))
  (at level 10, x pattern, m at level 100, k at level 200).

(** ** The board and the move generator *)

Abbreviation Row := (list ascii).
Abbreviation Board := (list (list ascii)).
Abbreviation Square := (Z * Z)%type.
Abbreviation Move := ((Z * Z) * (Z * Z))%type.

Definition initialize_board : Board :=
  [ ["r"; "n"; "b"; "q"; "k"; "b"; "n"; "r"];
    ["p"; "p"; "p"; "p"; "p"; "p"; "p"; "p"];
    ["."; "."; "."; "."; "."; "."; "."; "."];
    ["."; "."; "."; "."; "."; "."; "."; "."];
    ["."; "."; "."; "."; "."; "."; "."; "."];
    ["."; "."; "."; "."; "."; "."; "."; "."];
    ["P"; "P"; "P"; "P"; "P"; "P"; "P"; "P"];
    ["R"; "N"; "B"; "Q"; "K"; "B"; "N"; "R"] ].

Definition is_in_bounds (x y : Z) : bool :=
  ((0 <=? x) && (x <? 8)) && ((0 <=? y) && (y <? 8)).

(** [board[x][y]] *)
Definition cell (board : Board) (x y : Z) : outcome ascii :=
  let* row := getitem board x in getitem row y.

Definition rook_dirs : list (Z * Z) := [(-1, 0); (1, 0); (0, -1); (0, 1)].
Definition knight_dirs : list (Z * Z) :=
  [(-2, -1); (-2, 1); (-1, -2); (-1, 2); (2, -1); (2, 1); (1, -2); (1, 2)].
Definition bishop_dirs : list (Z * Z) := [(-1, -1); (-1, 1); (1, -1); (1, 1)].
Definition royal_dirs : list (Z * Z) :=
  [(-1, 0); (1, 0); (0, -1); (0, 1); (-1, -1); (-1, 1); (1, -1); (1, 1)].

Definition directions : list (ascii * list (Z * Z)) :=
  [ ("P", [(-1, 0); (-1, -1); (-1, 1)]);
    ("p", [(1, 0); (1, -1); (1, 1)]);
    ("R", rook_dirs); ("r", rook_dirs);
    ("N", knight_dirs); ("n", knight_dirs);
    ("B", bishop_dirs); ("b", bishop_dirs);
    ("Q", royal_dirs); ("q", royal_dirs);
    ("K", royal_dirs); ("k", royal_dirs) ].

(** [piece.upper() in ['N', 'K', 'P']] *)
Definition single_step (piece : ascii) : bool :=
  let u := upper piece in
  Ascii.eqb u "N" || Ascii.eqb u "K" || Ascii.eqb u "P".

(** The [while is_in_bounds(nx, ny)] loop of [get_piece_moves], walking
    from [(nx, ny)] in direction [(dx, dy)]; [fuel] bounds the number of
    iterations. *)
Fixpoint walk (fuel : nat) (board : Board) (x y : Z) (piece : ascii)
    (dx dy nx ny : Z) (moves : list Move) : outcome (list Move) :=
  match fuel with
  | O => OutOfFuel
  | S fuel' =>
      if is_in_bounds nx ny then
        let* target := cell board nx ny in
        let moves :=
          if Ascii.eqb target "." || negb (Bool.eqb (islower target) (islower piece))
          then moves ++ [((x, y), (nx, ny))] else moves in
        if negb (Ascii.eqb target ".") then Ok moves
        else if single_step piece then Ok moves
        else walk fuel' board x y piece dx dy (nx + dx) (ny + dy) moves
      else Ok moves
  end.

(** Iterations granted to one [while] loop; [walk_fuel_enough] shows that
    the loop never needs more. *)
Definition walk_fuel : nat := 9.

Definition get_piece_moves (board : Board) (x y : Z) (piece : ascii)
  : outcome (list Move) :=
  if dict_mem directions (upper piece) then
    match dict_get directions piece with
    | None => Raise KeyError
    | Some dirs =>
        for_each dirs
          (fun '(dx, dy) moves =>
             walk walk_fuel board x y piece dx dy (x + dx) (y + dy) moves)
          []
    end
  else Ok [].

Definition generate_moves (board : Board) (is_white : bool)
  : outcome (list Move) :=
  for_each (range 8)
    (fun x moves =>
       for_each (range 8)
         (fun y moves =>
            let* piece := cell board x y in
            if (is_white && isupper piece) || (negb is_white && islower piece)
            then let* new := get_piece_moves board x y piece in Ok (moves ++ new)
            else Ok moves)
         moves)
    [].

(** ** Evaluation *)

Definition piece_values : list (ascii * Z) :=
  [ ("p", 1); ("n", 3); ("b", 3); ("r", 5); ("q", 9); ("k", 0);
    ("P", -1); ("N", -3); ("B", -3); ("R", -5); ("Q", -9); ("K", 0) ].

Definition evaluate_board (board : Board) : Z :=
  fold_left
    (fun score row =>
       fold_left (fun score piece => score + default 0 (dict_get piece_values piece))
                 row score)
    board 0.

(** The evaluation of [main_gpu.py].  The entries of the tensor and of the
    value table are small integers, which the float32 tensors of the source
    hold exactly; they are kept as integers here. *)
Definition piece_map : list (ascii * Z) :=
  [ (".", 0); ("p", 1); ("n", 2); ("b", 3); ("r", 4); ("q", 5); ("k", 6);
    ("P", -1); ("N", -2); ("B", -3); ("R", -4); ("Q", -5); ("K", -6) ].

(** [tensor[x, y] = v] *)
Definition tensor_set (tensor : list (list Z)) (x y : Z) (v : Z) : list (list Z) :=
  match tensor !! Z.to_nat x with
  | Some row => <[Z.to_nat x := <[Z.to_nat y := v]> row]> tensor
  | None => tensor
  end.

Definition board_to_tensor (board : Board) : outcome (list (list Z)) :=
  for_each (range 8)
    (fun x tensor =>
       for_each (range 8)
         (fun y tensor =>
            let* piece := cell board x y in
            Ok (tensor_set tensor x y (default 0 (dict_get piece_map piece))))
         tensor)
    (replicate 8 (replicate 8 0)).

Definition gpu_piece_values : list Z := [0; 1; 3; 3; 5; 9; 0; -1; -3; -3; -5; -9; 0].

(** [torch.sum(t * piece_values[t.long() + 6])] over the flattened tensor *)
Definition evaluate_board_gpu (tensor : list (list Z)) : outcome Z :=
  for_each (concat tensor)
    (fun v score => let* w := getitem gpu_piece_values (v + 6) in Ok (score + v * w))
    0.

(** ** Applying a move *)

(** [board[x][y] = v] on the value of the nested list *)
Definition set_cell (board : Board) (x y : Z) (v : ascii) : outcome Board :=
  let* row := getitem board x in
  let* row' := setitem row y v in
  setitem board x row'.

Definition make_move (board : Board) (move : Move) : outcome Board :=
  let '((x1, y1), (x2, y2)) := move in
  let* piece := cell board x1 y1 in
  let* board := set_cell board x2 y2 piece in
  set_cell board x1 y1 ".".

(** ** Search *)

Section Loops.
(** The recursive call [minimax(new_board, depth - 1, not is_white, alpha, beta)]. *)
Variable child : Board -> num -> num -> outcome (num * option Move).

(** The loop of the maximizing branch; [new_board] is the deep copy of
    [board] with the move made on it. *)
Fixpoint max_loop (board : Board) (moves : list Move)
    (max_eval : num) (best_move : option Move) (alpha beta : num)
  : outcome (num * option Move) :=
  match moves with
  | [] => Ok (max_eval, best_move)
  | move :: rest =>
      let* new_board := make_move board move in
      let* (evaluation, _) := child new_board alpha beta in
      let '(max_eval, best_move) :=
        if gt evaluation max_eval then (evaluation, Some move)
        else (max_eval, best_move) in
      let alpha := max alpha evaluation in
      if le beta alpha then Ok (max_eval, best_move)
      else max_loop board rest max_eval best_move alpha beta
  end.

Fixpoint min_loop (board : Board) (moves : list Move)
    (min_eval : num) (best_move : option Move) (alpha beta : num)
  : outcome (num * option Move) :=
  match moves with
  | [] => Ok (min_eval, best_move)
  | move :: rest =>
      let* new_board := make_move board move in
      let* (evaluation, _) := child new_board alpha beta in
      let '(min_eval, best_move) :=
        if lt evaluation min_eval then (evaluation, Some move)
        else (min_eval, best_move) in
      let beta := min beta evaluation in
      if le beta alpha then Ok (min_eval, best_move)
      else min_loop board rest min_eval best_move alpha beta
  end.
End Loops.

(** [minimax(board, depth, is_white, alpha, beta)]; [fuel] is the number of
    nested calls the model may make. *)
Fixpoint minimax (fuel : nat) (board : Board) (depth : Z) (is_white : bool)
    (alpha beta : num) : outcome (num * option Move) :=
  match fuel with
  | O => OutOfFuel
  | S fuel' =>
      if depth =? 0 then Ok (Fin (evaluate_board board), None)
      else
        let child := fun b a be => minimax fuel' b (depth - 1) (negb is_white) a be in
        if is_white then
          let* moves := generate_moves board is_white in
          max_loop child board moves NegInf None alpha beta
        else
          let* moves := generate_moves board is_white in
          min_loop child board moves PosInf None alpha beta
  end.

(** ** Reference definitions the search and the evaluator are compared with *)

(** Well-formed boards: eight rows of eight cells. *)
Definition wf_board (board : Board) : bool :=
  (length board =? 8)%nat && forallb (fun row => (length row =? 8)%nat) board.

Section FullLoops.
Variable child : Board -> outcome num.

(** The loops of [minimax] with the [break] and the window removed. *)
Fixpoint max_full (board : Board) (moves : list Move) (max_eval : num)
  : outcome num :=
  match moves with
  | [] => Ok max_eval
  | move :: rest =>
      let* new_board := make_move board move in
      let* evaluation := child new_board in
      max_full board rest (if gt evaluation max_eval then evaluation else max_eval)
  end.

Fixpoint min_full (board : Board) (moves : list Move) (min_eval : num)
  : outcome num :=
  match moves with
  | [] => Ok min_eval
  | move :: rest =>
      let* new_board := make_move board move in
      let* evaluation := child new_board in
      min_full board rest (if lt evaluation min_eval then evaluation else min_eval)
  end.
End FullLoops.

(** Un-pruned minimax over the same tree: same move generator, same
    evaluator, every child of every node explored.  The value of a node
    without moves is the maximum (minimum) of no values, the bound the loop
    of [minimax] starts from. *)
Fixpoint minimax_full (fuel : nat) (board : Board) (depth : Z) (is_white : bool)
  : outcome num :=
  match fuel with
  | O => OutOfFuel
  | S fuel' =>
      if depth =? 0 then Ok (Fin (evaluate_board board))
      else
        let child := fun b => minimax_full fuel' b (depth - 1) (negb is_white) in
        let* moves := generate_moves board is_white in
        if is_white then max_full child board moves NegInf
        else min_full child board moves PosInf
  end.

(** Pieces as the specification names them.  The generator moves upper-case
    letters for White and lower-case letters for Black. *)
Inductive color := White | Black.
Inductive kind := Pawn | Knight | Bishop | Rook | Queen | King.

Definition kinds : list (ascii * kind) :=
  [ ("P", Pawn); ("N", Knight); ("B", Bishop); ("R", Rook); ("Q", Queen); ("K", King) ].

Definition piece_of (c : ascii) : option (color * kind) :=
  match dict_get kinds (upper c) with
  | Some k => Some (if isupper c then White else Black, k)
  | None => None
  end.

Definition material_value (k : kind) : Z :=
  match k with
  | Pawn => 1 | Knight => 3 | Bishop => 3 | Rook => 5 | Queen => 9 | King => 0
  end.

Definition sign (c : color) : Z := match c with White => 1 | Black => -1 end.

(** Sum over the occupied squares of [sign(color) * material_value(kind)]. *)
Definition material_score (board : Board) : Z :=
  fold_left
    (fun score row =>
       fold_left
         (fun score c =>
            score + match piece_of c with
                    | Some (col, k) => sign col * material_value k
                    | None => 0
                    end)
         row score)
    board 0.

(** Boards used as concrete inputs. *)
Definition empty_row : Row := ["."; "."; "."; "."; "."; "."; "."; "."].
Definition empty_board : Board :=
  [empty_row; empty_row; empty_row; empty_row; empty_row; empty_row; empty_row; empty_row].

(** A lone white pawn on its home square. *)
Definition white_pawn_board : Board :=
  [empty_row; empty_row; empty_row; empty_row; empty_row; empty_row;
   ["."; "."; "."; "."; "P"; "."; "."; "."]; empty_row].

(** White king in the corner, two black rooks on the first two files. *)
Definition cornered_king_board : Board :=
  [ ["r"; "r"; "."; "."; "."; "."; "."; "."];
    empty_row; empty_row; empty_row; empty_row; empty_row; empty_row;
    ["K"; "."; "."; "."; "."; "."; "."; "."] ].

(** A white pawn facing a black pawn, with an empty diagonal. *)
Definition blocked_pawn_board : Board :=
  [empty_row; empty_row; empty_row; empty_row; empty_row;
   ["."; "."; "."; "."; "p"; "."; "."; "."];
   ["."; "."; "."; "."; "P"; "."; "."; "."]; empty_row].

(** ** The program on a store of mutable lists

    [main.py] passes boards by reference: a board is a list object whose
    items are row objects, [copy.deepcopy] allocates new objects and
    [make_move] writes into the rows of the board it is given.  This second
    embedding keeps the objects in a store, so that sharing and mutation are
    visible. *)

Module Store.

Abbreviation loc := positive.

(** A list object: a row of cells, or a board holding references to rows. *)
Inductive obj := ORow (cells : Row) | OBoard (rows : list loc).

Abbreviation heap := (gmap positive obj).

(** Computations on the store; an exception keeps the writes made so far. *)
Definition M (A : Type) : Type := heap -> outcome A * heap.

Definition ret {A} (a : A) : M A := fun h => (Ok a, h).
Definition lift {A} (m : outcome A) : M A := fun h => (m, h).
Definition sbind {A B} (m : M A) (k : A -> M B) : M B :=
  fun h =>
    match m h with
    | (Ok a, h') => k a h'
    | (Raise e, h') => (Raise e, h')
    | (OutOfFuel, h') => (OutOfFuel, h')
    end.

Definition row_at (h : heap) (l : loc) : outcome Row :=
  match h !! l with Some (ORow cells) => Ok cells | _ => Raise TypeError end.
Definition rows_at (h : heap) (l : loc) : outcome (list loc) :=
  match h !! l with Some (OBoard rows) => Ok rows | _ => Raise TypeError end.

Definition load_row (l : loc) : M Row := fun h => (row_at h l, h).
Definition load_rows (l : loc) : M (list loc) := fun h => (rows_at h l, h).
Definition store (l : loc) (o : obj) : M unit := fun h => (Ok tt, <[l := o]> h).
Definition alloc (o : obj) : M loc :=
  fun h => let l := fresh (dom h) in (Ok l, <[l := o]> h).

(** The nested list a board reference denotes. *)
Definition read (h : heap) (board : loc) : outcome Board :=
  let* rows := rows_at h board in
  for_each rows (fun r acc => let* cells := row_at h r in Ok (acc ++ [cells])) [].

End Store.

Notation "'do*' x ':=' m 'in' k" := (Store.sbind m (fun x => k))
  (at level 10, x pattern, m at level 100, k at level 200).

Module StoreEngine.
Import Store.

(** [copy.deepcopy(board)]: every row object is copied once (the memo maps
    a row already met to its copy), then the list of the copies is
    allocated.  Cells are immutable strings and are shared. *)
Fixpoint copy_rows (rows : list loc) (memo : gmap loc loc) : M (list loc) :=
  match rows with
  | [] => ret []
  | r :: rest =>
      match memo !! r with
      | Some r' =>
          do* rest' := copy_rows rest memo in ret (r' :: rest')
      | None =>
          do* cells := load_row r in
          do* r' := alloc (ORow cells) in
          do* rest' := copy_rows rest (<[r := r']> memo) in
          ret (r' :: rest')
      end
  end.

Definition deepcopy (board : loc) : M loc :=
  do* rows := load_rows board in
  do* rows' := copy_rows rows ∅ in
  alloc (OBoard rows').

(** [board[x][y]] *)
Definition get_cell (board : loc) (x y : Z) : M ascii :=
  do* rows := load_rows board in
  do* r := lift (getitem rows x) in
  do* cells := load_row r in
  lift (getitem cells y).

(** [board[x][y] = v]: the row object is updated in place. *)
Definition put_cell (board : loc) (x y : Z) (v : ascii) : M unit :=
  do* rows := load_rows board in
  do* r := lift (getitem rows x) in
  do* cells := load_row r in
  do* cells' := lift (setitem cells y v) in
  store r (ORow cells').

Definition make_move (board : loc) (move : Move) : M unit :=
  let '((x1, y1), (x2, y2)) := move in
  do* piece := get_cell board x1 y1 in
  do* _ := put_cell board x2 y2 piece in
  put_cell board x1 y1 ".".

Section Loops.
Variable child : loc -> num -> num -> M (num * option Move).

Fixpoint max_loop (board : loc) (moves : list Move)
    (max_eval : num) (best_move : option Move) (alpha beta : num)
  : M (num * option Move) :=
  match moves with
  | [] => ret (max_eval, best_move)
  | move :: rest =>
      do* new_board := deepcopy board in
      do* _ := make_move new_board move in
      do* (evaluation, _) := child new_board alpha beta in
      let '(max_eval, best_move) :=
        if gt evaluation max_eval then (evaluation, Some move)
        else (max_eval, best_move) in
      let alpha := max alpha evaluation in
      if le beta alpha then ret (max_eval, best_move)
      else max_loop board rest max_eval best_move alpha beta
  end.

Fixpoint min_loop (board : loc) (moves : list Move)
    (min_eval : num) (best_move : option Move) (alpha beta : num)
  : M (num * option Move) :=
  match moves with
  | [] => ret (min_eval, best_move)
  | move :: rest =>
      do* new_board := deepcopy board in
      do* _ := make_move new_board move in
      do* (evaluation, _) := child new_board alpha beta in
      let '(min_eval, best_move) :=
        if lt evaluation min_eval then (evaluation, Some move)
        else (min_eval, best_move) in
      let beta := min beta evaluation in
      if le beta alpha then ret (min_eval, best_move)
      else min_loop board rest min_eval best_move alpha beta
  end.
End Loops.

(** [generate_moves] and [evaluate_board] only read the board: they run
    on the nested list the reference denotes. *)
Fixpoint minimax (fuel : nat) (board : loc) (depth : Z) (is_white : bool)
    (alpha beta : num) : M (num * option Move) :=
  match fuel with
  | O => lift OutOfFuel
  | S fuel' =>
      if depth =? 0 then
        do* b := (fun h => (read h board, h)) in
        ret (Fin (evaluate_board b), None)
      else
        let child := fun b a be => minimax fuel' b (depth - 1) (negb is_white) a be in
        if is_white then
          do* b := (fun h => (read h board, h)) in
          do* moves := lift (generate_moves b is_white) in
          max_loop child board moves NegInf None alpha beta
        else
          do* b := (fun h => (read h board, h)) in
          do* moves := lift (generate_moves b is_white) in
          min_loop child board moves PosInf None alpha beta
  end.

(** [initialize_board()]: eight fresh rows and the list that holds them. *)
Fixpoint alloc_rows (rows : list Row) : M (list loc) :=
  match rows with
  | [] => ret []
  | cells :: rest =>
      do* r := alloc (ORow cells) in
      do* rest' := alloc_rows rest in
      ret (r :: rest')
  end.

Definition new_board (b : Board) : M loc :=
  do* rows := alloc_rows b in alloc (OBoard rows).

End StoreEngine.

(** ** Notions used in the statements *)

(** The content of a square, by natural-number position. *)
Definition at_square (board : Board) (X Y : nat) : option ascii :=
  board !! X ≫= fun row => row !! Y.

(** The test of [get_piece_moves] for adding a move onto a square holding
    [target]. *)
Definition enters (piece target : ascii) : bool :=
  Ascii.eqb target "." || negb (Bool.eqb (islower target) (islower piece)).

(** The moves one iteration of the [while] loop adds for the square
    [(nx, ny)]. *)
Definition step_to (board : Board) (x y : Z) (piece : ascii) (nx ny : Z)
  : list Move :=
  if is_in_bounds nx ny then
    match cell board nx ny with
    | Ok target => if enters piece target then [((x, y), (nx, ny))] else []
    | _ => []
    end
  else [].

(** Row offset of a pawn's step: up the list for upper case, down for lower case. *)
Definition forward (piece : ascii) : Z := if isupper piece then -1 else 1.

(** Iterations the [while] loop can still make from [(nx, ny)]. *)
Definition steps_left (dx dy nx ny : Z) : Z :=
  if 0 <? dx then 8 - nx
  else if dx <? 0 then nx + 1
  else if 0 <? dy then 8 - ny
  else ny + 1.

(** Both squares of a move are on the board. *)
Definition on_board (m : Move) : bool :=
  is_in_bounds (fst (fst m)) (snd (fst m)) && is_in_bounds (fst (snd m)) (snd (snd m)).

(** What a search with window [(alpha, beta)] that returns [r] says about
    the full minimax value [v] of the node: below [beta] the result is an
    upper bound, above [alpha] it is a lower bound, so strictly inside the
    window it is exact. *)
Definition ab_rel (alpha beta v r : num) : Prop :=
  (lt r beta = true -> le v r = true) /\ (lt alpha r = true -> le r v = true).

(** The rows of [board] are objects that do not exist in [h0]. *)
Definition owns (h0 h : Store.heap) (board : Store.loc) : Prop :=
  forall rows, Store.rows_at h board = Ok rows ->
               Forall (fun r => h0 !! r = None) rows.

(** The reference [board] denotes the nested list [b] in the store [h], and
    no row object occurs twice in the board. *)
Definition rep (h : Store.heap) (board : Store.loc) (b : Board) : Prop :=
  exists rows,
    Store.rows_at h board = Ok rows
    /\ NoDup rows
    /\ Forall2 (fun r cells => Store.row_at h r = Ok cells) rows b.

(** The starting position as allocated by [initialize_board()] in an empty
    store: the store, and the reference to the board. *)
Definition initial_store : Store.heap :=
  snd (StoreEngine.new_board initialize_board ∅).

Definition initial_ref : Store.loc :=
  match fst (StoreEngine.new_board initialize_board ∅) with
  | Ok l => l
  | _ => 1%positive
  end.

(** A piece [piece] may end a move on the square [(tx, ty)]: the square is
    on the board and is empty or holds a character of the other letter
    case. *)
Definition lands (board : Board) (piece : ascii) (tx ty : Z) : Prop :=
  is_in_bounds tx ty = true
  /\ exists target, cell board tx ty = Ok target
                    /\ (target = "." \/ islower target <> islower piece).

(** The squares [(nx + j*dx, ny + j*dy)] for [0 <= j < k] are on the board
    and empty. *)
Definition clear_path (board : Board) (nx ny dx dy k : Z) : Prop :=
  forall j, 0 <= j < k ->
            is_in_bounds (nx + j * dx) (ny + j * dy) = true
            /\ cell board (nx + j * dx) (ny + j * dy) = Ok ".".

(** [(is_white and piece.isupper()) or (not is_white and piece.islower())] *)
Definition own_piece (is_white : bool) (piece : ascii) : bool :=
  (is_white && isupper piece) || (negb is_white && islower piece).

(** The squares strictly between [(x, y)] and its [k]-th step in direction
    [(dx, dy)] are on the board and empty. *)
Definition empty_between (board : Board) (x y dx dy k : Z) : Prop :=
  forall j, 1 <= j < k ->
            is_in_bounds (x + j * dx) (y + j * dy) = true
            /\ cell board (x + j * dx) (y + j * dy) = Ok ".".

(** The move [m] takes [piece] from [(x, y)] by [k] steps in one of the
    directions [dirs]. *)
Definition slides (board : Board) (piece : ascii) (dirs : list (Z * Z))
    (x y : Z) (m : Move) : Prop :=
  exists dx dy k,
    (dx, dy) ∈ dirs
    /\ 1 <= k
    /\ (single_step piece = true -> k = 1)
    /\ m = ((x, y), (x + k * dx, y + k * dy))
    /\ empty_between board x y dx dy k
    /\ lands board piece (x + k * dx) (y + k * dy).

(** The directions of the sliding pieces: a rook moves along a row or a
    column, a bishop along a diagonal, a queen along either. *)
Definition slide_direction (piece : ascii) (dx dy : Z) : Prop :=
  (upper piece = "R" /\ Z.abs dx + Z.abs dy = 1)
  \/ (upper piece = "B" /\ Z.abs dx = 1 /\ Z.abs dy = 1)
  \/ (upper piece = "Q" /\ Z.max (Z.abs dx) (Z.abs dy) = 1).

(** The board has at least eight rows and each of its first eight rows has
    at least eight cells: the 64 squares the generator reads exist. *)
Definition shape_ok (board : Board) : bool :=
  (8 <=? length board)%nat
  && forallb (fun row : Row => (8 <=? length row)%nat) (take 8 board).

(** [piece_values.get(piece, 0)] *)
Definition piece_value (piece : ascii) : Z := default 0 (dict_get piece_values piece).

(** A subscript that a list of eight items accepts. *)
Definition valid_index (i : Z) : bool := (-8 <=? i) && (i <? 8).

(** [minimax_gpu] of [main_gpu.py]: the search of [minimax], with the
    tensor evaluation at depth 0. *)
Fixpoint minimax_gpu (fuel : nat) (board : Board) (depth : Z) (is_white : bool)
    (alpha beta : num) : outcome (num * option Move) :=
  match fuel with
  | O => OutOfFuel
  | S fuel' =>
      if depth =? 0 then
        let* tensor := board_to_tensor board in
        let* score := evaluate_board_gpu tensor in
        Ok (Fin score, None)
      else
        let child := fun b a be => minimax_gpu fuel' b (depth - 1) (negb is_white) a be in
        if is_white then
          let* moves := generate_moves board is_white in
          max_loop child board moves NegInf None alpha beta
        else
          let* moves := generate_moves board is_white in
          min_loop child board moves PosInf None alpha beta
  end.

(** [minimax_gpu] with the [break] and the window removed. *)
Fixpoint minimax_gpu_full (fuel : nat) (board : Board) (depth : Z) (is_white : bool)
  : outcome num :=
  match fuel with
  | O => OutOfFuel
  | S fuel' =>
      if depth =? 0 then
        let* tensor := board_to_tensor board in
        let* score := evaluate_board_gpu tensor in
        Ok (Fin score)
      else
        let child := fun b => minimax_gpu_full fuel' b (depth - 1) (negb is_white) in
        let* moves := generate_moves board is_white in
        if is_white then max_full child board moves NegInf
        else min_full child board moves PosInf
  end.

(** [piece_map.get(piece, 0)] *)
Definition piece_code (piece : ascii) : Z := default 0 (dict_get piece_map piece).

(** What one square adds to the sum of [evaluate_board_gpu]: its code times
    the entry of the value table at the code plus 6. *)
Definition gpu_square_value (piece : ascii) : Z :=
  piece_code piece * nth (Z.to_nat (piece_code piece + 6)) gpu_piece_values 0.

(** ** Printing and the game loop *)

Module Text.
Import String.
Local Open Scope string_scope.

(** A string literal as the list of its characters. *)
Definition chars (s : string) : list ascii := list_ascii_of_string s.

(** [str(n)] of an integer *)
Definition str (n : Z) : list ascii :=
  list_ascii_of_string (DecimalString.NilZero.string_of_int (Z.to_int n)).

(** ['White' if is_white_turn else 'Black'] *)
Definition side_name (is_white_turn : bool) : list ascii :=
  if is_white_turn then chars "White" else chars "Black".

(** [f"Turn {turn + 1} ({'White' if is_white_turn else 'Black'}):"] *)
Definition turn_header (turn : Z) (is_white_turn : bool) : list ascii :=
  chars "Turn " ++ str (turn + 1) ++ chars " (" ++ side_name is_white_turn ++ chars "):".

(** [f"{'White' if is_white_turn else 'Black'} has no legal moves. Game over!"] *)
Definition no_moves_message (is_white_turn : bool) : list ascii :=
  side_name is_white_turn ++ chars " has no legal moves. Game over!".
End Text.

(** [" ".join(row)] for a row of one-character strings *)
Fixpoint join_row (row : Row) : list ascii :=
  match row with
  | [] => []
  | c :: rest =>
      match rest with
      | [] => [c]
      | _ :: _ => c :: " " :: join_row rest
      end
  end.

(** [print_board(board)]: the lines printed are added to the output [out];
    one line per row, then an empty line. *)
Definition print_board (board : Board) (out : list (list ascii)) : list (list ascii) :=
  out ++ map join_row board ++ [[]].

(** The loop of [play_game] over the remaining turns, on the current board,
    with the lines printed so far.  The result is the final board, or the
    exception that ended the game, and everything printed. *)
Fixpoint play_turns (turns : list Z) (board : Board) (is_white_turn : bool)
    (out : list (list ascii)) : outcome Board * list (list ascii) :=
  match turns with
  | [] => (Ok board, out)
  | turn :: rest =>
      let out := out ++ [Text.turn_header turn is_white_turn] in
      let out := print_board board out in
      match minimax 4 board 3 is_white_turn NegInf PosInf with
      | Ok (_, Some best_move) =>
          match make_move board best_move with
          | Ok board' => play_turns rest board' (negb is_white_turn) out
          | Raise e => (Raise e, out)
          | OutOfFuel => (OutOfFuel, out)
          end
      | Ok (_, None) => (Ok board, out ++ [Text.no_moves_message is_white_turn])
      | Raise e => (Raise e, out)
      | OutOfFuel => (OutOfFuel, out)
      end
  end.

Definition play_game : outcome Board * list (list ascii) :=
  play_turns (range 50) initialize_board true [].


(** * Properties *)

(** ** Order on the numbers of the search *)

Ltac num_cases :=
  repeat match goal with
         | x : num |- _ => destruct x
         end;
  unfold max, min, gt, le, lt in *; simpl in *;
  repeat match goal with
         | |- context [?a <? ?b] => destruct (Z.ltb_spec a b); simpl in *
         | H : context [?a <? ?b] |- _ => destruct (Z.ltb_spec a b); simpl in *
         end;
  try congruence; try (f_equal; lia); try lia.

Lemma le_refl (a : num) : le a a = true.
Proof. num_cases. Qed.

Lemma max_NegInf_r (a : num) : max a NegInf = a.
Proof. num_cases. Qed.

Lemma min_PosInf_r (a : num) : min a PosInf = a.
Proof. num_cases. Qed.

(** ** Depth 0 *)

(** C6: at depth 0 the search returns the static evaluation of the board
    and no move, for every board (also one on which the move generator
    would raise), every side and every window. *)
Theorem minimax_depth_zero :
  forall (fuel : nat) (board : Board) (is_white : bool) (alpha beta : num),
    minimax (S fuel) board 0 is_white alpha beta
    = Ok (Fin (evaluate_board board), None).
Proof. intros. reflexivity. Qed.

(** At depth 0 the store is left as it is: no copy is made, no move applied. *)
Lemma store_minimax_depth_zero (fuel : nat) (board : Store.loc) (is_white : bool)
    (alpha beta : num) (h : Store.heap) :
  StoreEngine.minimax (S fuel) board 0 is_white alpha beta h
  = (omap (fun b => (Fin (evaluate_board b), None)) (Store.read h board), h).
Proof.
  cbn [StoreEngine.minimax]. change (0 =? 0) with true. cbv beta iota.
  unfold Store.sbind. destruct (Store.read h board); reflexivity.
Qed.

(** The depth-0 answer does not depend on the move generator: it is given
    on a board with no rows at all, where [generate_moves] raises. *)
Example minimax_depth_zero_no_generation :
  generate_moves [] true = Raise IndexError /\
  minimax 1 [] 0 true NegInf PosInf = Ok (Fin 0, None).
Proof. split; reflexivity. Qed.

(** ** Moves of the starting position *)

(** C3, as claimed, fails: White does not have 20 moves at the start. *)
Lemma initial_moves_not_20 :
  ~ (exists moves, generate_moves initialize_board true = Ok moves
                   /\ length moves = 20%nat).
Proof.
  intros (moves & Hgen & Hlen).
  vm_compute in Hgen. injection Hgen as <-. discriminate Hlen.
Qed.

(** C3, amended: on the starting position each side has exactly 26 moves:
    for White 22 pawn moves (each pawn steps straight ahead and onto every
    empty forward diagonal square on the board) followed by 2 moves for each
    knight, and the same count for Black. *)
Theorem initial_moves_26 :
  (exists pawn_moves knight_moves,
      generate_moves initialize_board true = Ok (pawn_moves ++ knight_moves)
      /\ length pawn_moves = 22%nat
      /\ Forall (fun m => fst (fst m) = 6) pawn_moves
      /\ knight_moves = [((7, 1), (5, 0)); ((7, 1), (5, 2));
                         ((7, 6), (5, 5)); ((7, 6), (5, 7))])
  /\ omap (@length Move) (generate_moves initialize_board true) = Ok 26%nat
  /\ omap (@length Move) (generate_moves initialize_board false) = Ok 26%nat.
Proof.
  split; [| split; reflexivity].
  exists (take 22 (match generate_moves initialize_board true with
                   | Ok l => l | _ => [] end)).
  eexists. vm_compute. repeat split.
  repeat constructor.
Qed.

(** ** Evaluation *)

Lemma piece_value_negates (c : ascii) :
  default 0 (dict_get piece_values c)
  = - match piece_of c with
      | Some (col, k) => sign col * material_value k
      | None => 0
      end.
Proof.
  destruct c as [[] [] [] [] [] [] [] []]; reflexivity.
Qed.

Lemma fold_row_negates (row : Row) (s t : Z) :
  s = - t ->
  fold_left (fun score piece => score + default 0 (dict_get piece_values piece)) row s
  = - fold_left
        (fun score c =>
           score + match piece_of c with
                   | Some (col, k) => sign col * material_value k
                   | None => 0
                   end) row t.
Proof.
  revert s t. induction row as [| c row IH]; intros s t Hst; cbn [fold_left].
  - exact Hst.
  - apply IH. rewrite piece_value_negates. lia.
Qed.

(** On every board the evaluator is the negation of the material balance
    seen from White. *)
Lemma evaluate_board_negates_material (board : Board) :
  evaluate_board board = - material_score board.
Proof.
  unfold evaluate_board, material_score.
  assert (H : forall s t, s = - t ->
            fold_left (fun score row =>
                         fold_left (fun score piece =>
                                      score + default 0 (dict_get piece_values piece))
                                   row score) board s
            = - fold_left (fun score row =>
                             fold_left (fun score c =>
                                          score + match piece_of c with
                                                  | Some (col, k) => sign col * material_value k
                                                  | None => 0
                                                  end) row score) board t).
  { induction board as [| row board IH]; intros s t Hst; cbn [fold_left].
    - exact Hst.
    - apply IH. apply fold_row_negates. exact Hst. }
  apply H. reflexivity.
Qed.

(** The evaluation of [main_gpu.py] is not the material balance either: a
    lone white pawn scores -9 and the starting position -262. *)
Example evaluate_board_gpu_values :
  bind (board_to_tensor white_pawn_board) evaluate_board_gpu = Ok (-9)
  /\ bind (board_to_tensor initialize_board) evaluate_board_gpu = Ok (-262)
  /\ bind (board_to_tensor empty_board) evaluate_board_gpu = Ok 0.
Proof. repeat split; vm_compute; reflexivity. Qed.

(** C5: on a board holding one white pawn the material balance seen from
    White is +1, and [evaluate_board] returns -1; the board with no pieces
    scores 0 under both. *)
Theorem evaluate_board_white_pawn :
  material_score white_pawn_board = 1
  /\ evaluate_board white_pawn_board = -1
  /\ evaluate_board empty_board = 0.
Proof. repeat split; reflexivity. Qed.

(** ** No move available *)

(** C4, as claimed, fails: with no piece on the board White has no move, and
    the search at depth 1 does not return the static evaluation 0. *)
Lemma no_moves_not_static_evaluation :
  generate_moves empty_board true = Ok []
  /\ evaluate_board empty_board = 0
  /\ minimax 2 empty_board 1 true NegInf PosInf <> Ok (Fin 0, None).
Proof. repeat split; vm_compute; congruence. Qed.

(** C4, amended: when the side to move has no generated move and the depth
    is positive, the search returns no move together with the initial bound
    of the loop: minus infinity for White, plus infinity for Black.  No
    exception is raised. *)
Theorem minimax_no_moves :
  forall (fuel : nat) (board : Board) (depth : Z) (is_white : bool)
         (alpha beta : num),
    0 < depth ->
    generate_moves board is_white = Ok [] ->
    minimax (S fuel) board depth is_white alpha beta
    = Ok (if is_white then NegInf else PosInf, None).
Proof.
  intros fuel board depth is_white alpha beta Hd Hgen.
  cbn [minimax].
  destruct (Z.eqb_spec depth 0) as [-> | _]; [lia |].
  destruct is_white; rewrite Hgen; reflexivity.
Qed.

Lemma minimax_no_moves_witness :
  minimax 2 empty_board 1 true NegInf PosInf = Ok (NegInf, None)
  /\ minimax 2 empty_board 1 false NegInf PosInf = Ok (PosInf, None).
Proof.
  split.
  - apply (minimax_no_moves 1 empty_board 1 true NegInf PosInf); [lia | reflexivity].
  - apply (minimax_no_moves 1 empty_board 1 false NegInf PosInf); [lia | reflexivity].
Defined.

(** ** List subscripts on well-formed boards *)

Lemma norm_index_nonneg (len : nat) (i : Z) :
  0 <= i < Z.of_nat len -> norm_index len i = Some (Z.to_nat i).
Proof.
  intros [H0 H1]. unfold norm_index.
  destruct (Z.leb_spec 0 i); [| lia].
  destruct (Z.ltb_spec i (Z.of_nat len)); [| lia]. reflexivity.
Qed.

Lemma getitem_lookup {A} (l : list A) (i : Z) (a : A) :
  0 <= i -> l !! Z.to_nat i = Some a -> getitem l i = Ok a.
Proof.
  intros H0 Hl. unfold getitem.
  rewrite norm_index_nonneg.
  - rewrite Hl. reflexivity.
  - apply lookup_lt_Some in Hl. lia.
Qed.

Lemma setitem_insert {A} (l : list A) (i : Z) (a : A) :
  0 <= i < Z.of_nat (length l) -> setitem l i a = Ok (<[Z.to_nat i := a]> l).
Proof.
  intros H. unfold setitem. rewrite norm_index_nonneg by exact H. reflexivity.
Qed.

Lemma wf_board_length (board : Board) :
  wf_board board = true -> length board = 8%nat.
Proof.
  unfold wf_board. intros H. apply andb_prop in H as [H _].
  apply Nat.eqb_eq in H. exact H.
Qed.

Lemma wf_board_row (board : Board) (X : nat) (row : Row) :
  wf_board board = true -> board !! X = Some row -> length row = 8%nat.
Proof.
  unfold wf_board. intros H Hrow. apply andb_prop in H as [_ H].
  rewrite forallb_forall in H.
  apply Nat.eqb_eq. apply H.
  apply list_elem_of_In. apply list_elem_of_lookup. eauto.
Qed.

Lemma wf_board_intro (board : Board) :
  length board = 8%nat ->
  (forall X row, board !! X = Some row -> length row = 8%nat) ->
  wf_board board = true.
Proof.
  intros Hlen Hrows. unfold wf_board.
  apply andb_true_intro. split; [apply Nat.eqb_eq; exact Hlen |].
  apply forallb_forall. intros row Hin.
  apply list_elem_of_In, list_elem_of_lookup in Hin as [X HX].
  apply Nat.eqb_eq. eauto.
Qed.

Lemma in_bounds_inv (x y : Z) :
  is_in_bounds x y = true -> 0 <= x < 8 /\ 0 <= y < 8.
Proof. unfold is_in_bounds. lia. Qed.

Lemma in_bounds_intro (x y : Z) :
  0 <= x < 8 -> 0 <= y < 8 -> is_in_bounds x y = true.
Proof. unfold is_in_bounds. lia. Qed.

Lemma wf_at_square (board : Board) (X Y : nat) :
  wf_board board = true -> (X < 8)%nat -> (Y < 8)%nat ->
  exists c, at_square board X Y = Some c.
Proof.
  intros Hwf HX HY. unfold at_square.
  destruct (board !! X) as [row |] eqn:Hrow.
  - pose proof (wf_board_row _ _ _ Hwf Hrow) as Hlen.
    destruct (row !! Y) as [c |] eqn:Hc.
    + exists c. simpl. exact Hc.
    + apply lookup_ge_None in Hc. lia.
  - apply lookup_ge_None in Hrow.
    rewrite (wf_board_length _ Hwf) in Hrow. lia.
Qed.

Lemma cell_at_square (board : Board) (x y : Z) (c : ascii) :
  0 <= x -> 0 <= y ->
  at_square board (Z.to_nat x) (Z.to_nat y) = Some c ->
  cell board x y = Ok c.
Proof.
  intros Hx Hy. unfold at_square, cell.
  destruct (board !! Z.to_nat x) as [row |] eqn:Hrow; simpl; [| discriminate].
  intros Hc. rewrite (getitem_lookup _ _ _ Hx Hrow). simpl.
  apply getitem_lookup; assumption.
Qed.

Lemma wf_cell (board : Board) (x y : Z) :
  wf_board board = true -> is_in_bounds x y = true ->
  exists c, cell board x y = Ok c
            /\ at_square board (Z.to_nat x) (Z.to_nat y) = Some c.
Proof.
  intros Hwf Hb. apply in_bounds_inv in Hb as [Hx Hy].
  destruct (wf_at_square board (Z.to_nat x) (Z.to_nat y) Hwf) as [c Hc]; try lia.
  exists c. split; [| exact Hc].
  apply cell_at_square; [lia | lia | exact Hc].
Qed.

Lemma set_cell_wf (board : Board) (x y : Z) (v : ascii) :
  wf_board board = true -> is_in_bounds x y = true ->
  exists board',
    set_cell board x y v = Ok board'
    /\ wf_board board' = true
    /\ forall X Y,
        at_square board' X Y
        = if decide (X = Z.to_nat x /\ Y = Z.to_nat y)
          then Some v else at_square board X Y.
Proof.
  intros Hwf Hb. apply in_bounds_inv in Hb as [Hx Hy].
  pose proof (wf_board_length _ Hwf) as Hlen.
  destruct (board !! Z.to_nat x) as [row |] eqn:Hrow.
  2:{ apply lookup_ge_None in Hrow. lia. }
  pose proof (wf_board_row _ _ _ Hwf Hrow) as Hrlen.
  exists (<[Z.to_nat x := <[Z.to_nat y := v]> row]> board).
  split; [| split].
  - unfold set_cell. rewrite (getitem_lookup _ _ _ (proj1 Hx) Hrow). simpl.
    rewrite setitem_insert by lia. simpl.
    rewrite setitem_insert by lia. reflexivity.
  - apply wf_board_intro.
    + rewrite length_insert. exact Hlen.
    + intros X r HX.
      destruct (decide (X = Z.to_nat x)) as [-> | Hne].
      * rewrite list_lookup_insert_eq in HX by lia.
        injection HX as <-. rewrite length_insert. exact Hrlen.
      * rewrite list_lookup_insert_ne in HX by congruence.
        eapply wf_board_row; eauto.
  - intros X Y. unfold at_square.
    destruct (decide (X = Z.to_nat x)) as [-> | Hne].
    + rewrite list_lookup_insert_eq by lia. rewrite Hrow. simpl.
      destruct (decide (Y = Z.to_nat y)) as [-> | Hney].
      * rewrite list_lookup_insert_eq by lia.
        rewrite decide_True by auto. reflexivity.
      * rewrite list_lookup_insert_ne by congruence.
        rewrite decide_False by tauto. reflexivity.
    + rewrite list_lookup_insert_ne by congruence.
      rewrite decide_False by tauto. reflexivity.
Qed.

(** ** Applying a move *)

(** C7, as claimed, fails: applying a move from an empty square is not
    rejected; it succeeds and erases the black pawn on the target square. *)
Lemma make_move_from_empty_square_accepted :
  cell initialize_board 2 0 = Ok "."
  /\ cell initialize_board 1 0 = Ok "p"
  /\ exists board',
      make_move initialize_board ((2, 0), (1, 0)) = Ok board'
      /\ cell board' 1 0 = Ok "."
      /\ board' <> initialize_board.
Proof.
  split; [reflexivity |]. split; [reflexivity |].
  eexists. split; [vm_compute; reflexivity |].
  split; [reflexivity | discriminate].
Qed.

(** What [make_move] does to the squares of a well-formed board. *)
Lemma make_move_squares :
  forall (board : Board) (x1 y1 x2 y2 : Z),
    wf_board board = true ->
    is_in_bounds x1 y1 = true ->
    is_in_bounds x2 y2 = true ->
    exists piece board',
      cell board x1 y1 = Ok piece
      /\ make_move board ((x1, y1), (x2, y2)) = Ok board'
      /\ wf_board board' = true
      /\ forall X Y,
          at_square board' X Y
          = if decide (X = Z.to_nat x1 /\ Y = Z.to_nat y1) then Some "."
            else if decide (X = Z.to_nat x2 /\ Y = Z.to_nat y2) then Some piece
            else at_square board X Y.
Proof.
  intros board x1 y1 x2 y2 Hwf H1 H2.
  destruct (wf_cell board x1 y1 Hwf H1) as (piece & Hcell & _).
  destruct (set_cell_wf board x2 y2 piece Hwf H2) as (b1 & Hs1 & Hwf1 & Hat1).
  destruct (set_cell_wf b1 x1 y1 "." Hwf1 H1) as (b2 & Hs2 & Hwf2 & Hat2).
  exists piece, b2. split; [exact Hcell |]. split; [| split].
  - unfold make_move. rewrite Hcell. simpl. rewrite Hs1. simpl. exact Hs2.
  - exact Hwf2.
  - intros X Y. rewrite Hat2. destruct (decide _); [reflexivity |]. apply Hat1.
Qed.

(** C7, amended: [make_move] checks neither that the from-square is
    occupied nor whose piece it holds.  On a well-formed board, for any two
    squares on the board, it succeeds: the from-square becomes empty, the
    to-square (when different) receives whatever the from-square held, and
    every other square is unchanged. *)
Theorem make_move_unchecked :
  forall (board : Board) (x1 y1 x2 y2 : Z),
    wf_board board = true ->
    is_in_bounds x1 y1 = true ->
    is_in_bounds x2 y2 = true ->
    exists piece board',
      cell board x1 y1 = Ok piece
      /\ make_move board ((x1, y1), (x2, y2)) = Ok board'
      /\ wf_board board' = true
      /\ forall X Y,
          at_square board' X Y
          = if decide (X = Z.to_nat x1 /\ Y = Z.to_nat y1) then Some "."
            else if decide (X = Z.to_nat x2 /\ Y = Z.to_nat y2) then Some piece
            else at_square board X Y.
Proof. exact make_move_squares. Qed.

Lemma make_move_unchecked_witness :
  exists piece board',
    cell initialize_board 2 0 = Ok piece
    /\ make_move initialize_board ((2, 0), (1, 0)) = Ok board'
    /\ wf_board board' = true
    /\ forall X Y,
        at_square board' X Y
        = if decide (X = Z.to_nat 2 /\ Y = Z.to_nat 0) then Some "."
          else if decide (X = Z.to_nat 1 /\ Y = Z.to_nat 0) then Some piece
          else at_square initialize_board X Y.
Proof.
  apply (make_move_unchecked initialize_board 2 0 1 0); reflexivity.
Defined.

(** ** Pawn moves *)

Lemma enters_spec (piece target : ascii) :
  enters piece target = true <-> target = "." \/ islower target <> islower piece.
Proof.
  unfold enters. rewrite orb_true_iff, negb_true_iff, Ascii.eqb_eq.
  destruct (islower target), (islower piece); simpl; intuition congruence.
Qed.

Lemma elem_of_step_to (board : Board) (x y : Z) (piece : ascii) (nx ny : Z) (m : Move) :
  m ∈ step_to board x y piece nx ny <->
  m = ((x, y), (nx, ny)) /\ is_in_bounds nx ny = true
  /\ exists target, cell board nx ny = Ok target
                    /\ (target = "." \/ islower target <> islower piece).
Proof.
  unfold step_to.
  destruct (is_in_bounds nx ny).
  2:{ rewrite elem_of_nil. intuition discriminate. }
  destruct (cell board nx ny) as [target | e |].
  - destruct (enters piece target) eqn:He.
    + rewrite list_elem_of_singleton. apply enters_spec in He.
      split; [intros ->; eauto 6 |]. tauto.
    + rewrite elem_of_nil. split; [tauto |].
      intros (_ & _ & t & [= <-] & Ht). apply enters_spec in Ht. congruence.
  - rewrite elem_of_nil. split; [tauto |]. intros (_ & _ & t & Ht & _). discriminate.
  - rewrite elem_of_nil. split; [tauto |]. intros (_ & _ & t & Ht & _). discriminate.
Qed.

(** A pawn, knight or king leaves the loop after its first iteration. *)
Lemma walk_single_step (fuel : nat) (board : Board) (x y : Z) (piece : ascii)
    (dx dy nx ny : Z) (moves : list Move) :
  wf_board board = true ->
  single_step piece = true ->
  walk (S fuel) board x y piece dx dy nx ny moves
  = Ok (moves ++ step_to board x y piece nx ny).
Proof.
  intros Hwf Hs. cbn [walk]. unfold step_to.
  destruct (is_in_bounds nx ny) eqn:Hb.
  - destruct (wf_cell board nx ny Hwf Hb) as (c & -> & _). simpl.
    rewrite Hs. fold (enters piece c).
    destruct (enters piece c), (negb (Ascii.eqb c "."));
      rewrite ?app_nil_r; reflexivity.
  - rewrite app_nil_r. reflexivity.
Qed.

(** C2, as claimed, fails: a white pawn facing a black pawn captures
    straight ahead and steps onto both empty diagonal squares. *)
Lemma pawn_moves_not_chess :
  cell blocked_pawn_board 5 4 = Ok "p"
  /\ cell blocked_pawn_board 5 3 = Ok "."
  /\ cell blocked_pawn_board 5 5 = Ok "."
  /\ generate_moves blocked_pawn_board true
     = Ok [((6, 4), (5, 4)); ((6, 4), (5, 3)); ((6, 4), (5, 5))].
Proof. repeat split; reflexivity. Qed.

(** C2, amended: on a well-formed board the moves generated for a pawn are
    exactly its three forward steps (straight ahead and the two diagonals,
    one row up for White and one row down for Black) whose destination is
    on the board and is either empty or holds a piece of the other letter
    case; the straight and the diagonal steps obey the same test, and no
    other pawn move is generated. *)
Theorem pawn_moves_generated :
  forall (board : Board) (x y : Z) (piece : ascii),
    wf_board board = true ->
    piece = "P" \/ piece = "p" ->
    exists moves,
      get_piece_moves board x y piece = Ok moves
      /\ forall m : Move,
          m ∈ moves <->
          exists dy target,
            (dy = 0 \/ dy = -1 \/ dy = 1)
            /\ m = ((x, y), (x + forward piece, y + dy))
            /\ is_in_bounds (x + forward piece) (y + dy) = true
            /\ cell board (x + forward piece) (y + dy) = Ok target
            /\ (target = "." \/ islower target <> islower piece).
Proof.
  intros board x y piece Hwf Hp.
  assert (Hs : single_step piece = true) by (destruct Hp as [-> | ->]; reflexivity).
  exists (step_to board x y piece (x + forward piece) (y + 0)
          ++ step_to board x y piece (x + forward piece) (y + -1)
          ++ step_to board x y piece (x + forward piece) (y + 1)).
  split.
  - unfold get_piece_moves, walk_fuel.
    destruct Hp as [-> | ->].
    + change (dict_mem directions (upper "P")) with true.
      change (dict_get directions "P") with (Some [(-1, 0); (-1, -1); (-1, 1)]).
      cbn [for_each bind]. rewrite walk_single_step by assumption.
      cbn [for_each bind]. rewrite walk_single_step by assumption.
      cbn [for_each bind]. rewrite walk_single_step by assumption.
      cbn [for_each bind]. rewrite <- app_assoc. reflexivity.
    + change (dict_mem directions (upper "p")) with true.
      change (dict_get directions "p") with (Some [(1, 0); (1, -1); (1, 1)]).
      cbn [for_each bind]. rewrite walk_single_step by assumption.
      cbn [for_each bind]. rewrite walk_single_step by assumption.
      cbn [for_each bind]. rewrite walk_single_step by assumption.
      cbn [for_each bind]. rewrite <- app_assoc. reflexivity.
  - intros m. rewrite !elem_of_app, !elem_of_step_to. split.
    + intros [H | [H | H]]; destruct H as (-> & Hb & t & Hc & Ht).
      * exists 0, t. tauto.
      * exists (-1), t. tauto.
      * exists 1, t. tauto.
    + intros (dy & t & Hdy & -> & Hb & Hc & Ht).
      destruct Hdy as [-> | [-> | ->]]; eauto 10.
Qed.

Lemma pawn_moves_generated_witness :
  exists moves,
    get_piece_moves blocked_pawn_board 6 4 "P" = Ok moves
    /\ forall m : Move,
        m ∈ moves <->
        exists dy target,
          (dy = 0 \/ dy = -1 \/ dy = 1)
          /\ m = ((6, 4), (6 + forward "P", 4 + dy))
          /\ is_in_bounds (6 + forward "P") (4 + dy) = true
          /\ cell blocked_pawn_board (6 + forward "P") (4 + dy) = Ok target
          /\ (target = "." \/ islower target <> islower "P").
Proof.
  apply (pawn_moves_generated blocked_pawn_board 6 4 "P"); [reflexivity | left; reflexivity].
Defined.

(** ** The loops of the move generator *)

Lemma bind_Ok {A B} (m : outcome A) (k : A -> outcome B) (b : B) :
  bind m k = Ok b -> exists a, m = Ok a /\ k a = Ok b.
Proof. destruct m; simpl; intros H; try discriminate. eauto. Qed.

Lemma bind_no_timeout {A B} (m : outcome A) (k : A -> outcome B) :
  m <> OutOfFuel -> (forall a, k a <> OutOfFuel) -> bind m k <> OutOfFuel.
Proof. intros Hm Hk. destruct m; simpl; [apply Hk | discriminate | congruence]. Qed.

Lemma for_each_no_timeout {A S} (l : list A) (body : A -> S -> outcome S) (s : S) :
  (forall x s, x ∈ l -> body x s <> OutOfFuel) ->
  for_each l body s <> OutOfFuel.
Proof.
  revert s. induction l as [| x l IH]; intros s H; simpl; [discriminate |].
  apply bind_no_timeout.
  - apply H. left.
  - intros s'. apply IH. intros x' s'' Hx'. apply H. right. exact Hx'.
Qed.

Lemma for_each_invariant {A S} (P : S -> Prop) (l : list A)
    (body : A -> S -> outcome S) (s : S) :
  P s ->
  (forall x s, x ∈ l -> P s -> exists s', body x s = Ok s' /\ P s') ->
  exists s', for_each l body s = Ok s' /\ P s'.
Proof.
  revert s. induction l as [| x l IH]; intros s Hs H; simpl; [eauto |].
  destruct (H x s) as (s1 & -> & Hs1); [left | exact Hs |]. simpl.
  apply IH; [exact Hs1 |]. intros x' s'' Hx'. apply H. right. exact Hx'.
Qed.

Lemma getitem_no_timeout {A} (l : list A) (i : Z) : getitem l i <> OutOfFuel.
Proof.
  unfold getitem. destruct (norm_index _ _); [| discriminate].
  destruct (l !! n); discriminate.
Qed.

Lemma cell_no_timeout (board : Board) (x y : Z) : cell board x y <> OutOfFuel.
Proof.
  unfold cell. apply bind_no_timeout; [apply getitem_no_timeout |].
  intros row. apply getitem_no_timeout.
Qed.

Lemma steps_left_in_bounds (dx dy nx ny : Z) :
  is_in_bounds nx ny = true -> 1 <= steps_left dx dy nx ny <= 8.
Proof.
  intros H. apply in_bounds_inv in H. unfold steps_left.
  repeat match goal with |- context [?a <? ?b] => destruct (Z.ltb_spec a b) end; lia.
Qed.

Lemma steps_left_decreases (dx dy nx ny : Z) :
  dx <> 0 \/ dy <> 0 ->
  steps_left dx dy (nx + dx) (ny + dy) <= steps_left dx dy nx ny - 1.
Proof.
  intros H. unfold steps_left.
  repeat match goal with |- context [?a <? ?b] => destruct (Z.ltb_spec a b) end; lia.
Qed.

(** The [while] loop stops: it leaves the board after at most eight
    iterations, whatever the board holds. *)
Lemma walk_terminates (fuel : nat) (board : Board) (x y : Z) (piece : ascii)
    (dx dy nx ny : Z) (moves : list Move) :
  dx <> 0 \/ dy <> 0 ->
  (1 <= fuel)%nat ->
  (is_in_bounds nx ny = true -> steps_left dx dy nx ny < Z.of_nat fuel) ->
  walk fuel board x y piece dx dy nx ny moves <> OutOfFuel.
Proof.
  intros Hd. revert nx ny moves.
  induction fuel as [| fuel IH]; intros nx ny moves Hf Hsteps; [lia |].
  cbn [walk]. destruct (is_in_bounds nx ny) eqn:Hb; [| discriminate].
  specialize (Hsteps eq_refl).
  pose proof (steps_left_in_bounds dx dy nx ny Hb) as Hrange.
  apply bind_no_timeout; [apply cell_no_timeout |].
  intros target.
  destruct (negb (Ascii.eqb target ".")); [discriminate |].
  destruct (single_step piece); [discriminate |].
  apply IH; [lia |].
  intros _. pose proof (steps_left_decreases dx dy nx ny Hd). lia.
Qed.

Lemma walk_fuel_enough (board : Board) (x y : Z) (piece : ascii)
    (dx dy nx ny : Z) (moves : list Move) :
  dx <> 0 \/ dy <> 0 ->
  walk walk_fuel board x y piece dx dy nx ny moves <> OutOfFuel.
Proof.
  intros Hd. apply walk_terminates; [exact Hd | unfold walk_fuel; lia |].
  intros Hb. pose proof (steps_left_in_bounds dx dy nx ny Hb). unfold walk_fuel. lia.
Qed.

Lemma dict_get_In {V} (d : list (ascii * V)) (k : ascii) (v : V) :
  dict_get d k = Some v -> In (k, v) d.
Proof.
  induction d as [| [k' v'] d IH]; simpl; [discriminate |].
  destruct (Ascii.eqb_spec k k') as [-> | _].
  - intros [= ->]. left. reflexivity.
  - intros H. right. apply IH. exact H.
Qed.

Lemma directions_nonzero (piece : ascii) (dirs : list (Z * Z)) :
  dict_get directions piece = Some dirs ->
  Forall (fun d => fst d <> 0 \/ snd d <> 0) dirs.
Proof.
  intros H. apply dict_get_In in H.
  assert (Hall : forallb (fun kv : ascii * list (Z * Z) =>
                            forallb (fun d => negb ((fst d =? 0) && (snd d =? 0))) (snd kv))
                         directions = true) by reflexivity.
  rewrite forallb_forall in Hall. specialize (Hall _ H). simpl in Hall.
  rewrite forallb_forall in Hall.
  apply Forall_forall. intros d Hd.
  apply list_elem_of_In in Hd. specialize (Hall d Hd). lia.
Qed.

Lemma get_piece_moves_no_timeout (board : Board) (x y : Z) (piece : ascii) :
  get_piece_moves board x y piece <> OutOfFuel.
Proof.
  unfold get_piece_moves.
  destruct (dict_mem directions (upper piece)); [| discriminate].
  destruct (dict_get directions piece) as [dirs |] eqn:Hdirs; [| discriminate].
  apply directions_nonzero in Hdirs. rewrite Forall_forall in Hdirs.
  apply for_each_no_timeout. intros [dx dy] moves Hin.
  apply walk_fuel_enough. apply (Hdirs (dx, dy)). exact Hin.
Qed.

Lemma generate_moves_no_timeout (board : Board) (is_white : bool) :
  generate_moves board is_white <> OutOfFuel.
Proof.
  unfold generate_moves.
  apply for_each_no_timeout. intros x moves _.
  apply for_each_no_timeout. intros y moves' _.
  apply bind_no_timeout; [apply cell_no_timeout |]. intros piece.
  destruct (_ || _); [| discriminate].
  apply bind_no_timeout; [apply get_piece_moves_no_timeout | discriminate].
Qed.

(** On a well-formed board the loop raises nothing and only adds moves from
    [(x, y)] to squares on the board. *)
Lemma walk_wf (fuel : nat) (board : Board) (x y : Z) (piece : ascii)
    (dx dy nx ny : Z) (moves : list Move) :
  wf_board board = true ->
  match walk fuel board x y piece dx dy nx ny moves with
  | Ok r => exists new, r = moves ++ new
                        /\ Forall (fun m => fst m = (x, y)
                                            /\ is_in_bounds (fst (snd m)) (snd (snd m)) = true) new
  | Raise _ => False
  | OutOfFuel => True
  end.
Proof.
  intros Hwf. revert nx ny moves.
  induction fuel as [| fuel IH]; intros nx ny moves; [exact I |].
  cbn [walk]. destruct (is_in_bounds nx ny) eqn:Hb.
  2:{ exists []. rewrite app_nil_r. split; [reflexivity | constructor]. }
  destruct (wf_cell board nx ny Hwf Hb) as (c & -> & _). cbn [bind].
  match goal with
  | |- context [if ?c then moves ++ ?l else moves] =>
      set (moves' := if c then moves ++ l else moves)
  end.
  assert (Hm : exists new, moves' = moves ++ new
             /\ Forall (fun m => fst m = (x, y)
                                 /\ is_in_bounds (fst (snd m)) (snd (snd m)) = true) new).
  { subst moves'. destruct (Ascii.eqb c "." || _).
    - exists [((x, y), (nx, ny))]. split; [reflexivity |].
      constructor; [| constructor]. simpl. auto.
    - exists []. rewrite app_nil_r. split; [reflexivity | constructor]. }
  clearbody moves'. destruct Hm as (new & -> & Hnew).
  destruct (negb (Ascii.eqb c ".")); [eauto |].
  destruct (single_step piece); [eauto |].
  specialize (IH (nx + dx) (ny + dy) (moves ++ new)).
  destruct (walk fuel board x y piece dx dy (nx + dx) (ny + dy) (moves ++ new));
    [| exact IH | exact I].
  destruct IH as (new' & -> & Hnew').
  exists (new ++ new'). rewrite app_assoc. split; [reflexivity |].
  apply Forall_app. auto.
Qed.

Lemma get_piece_moves_wf (board : Board) (x y : Z) (piece : ascii) :
  wf_board board = true ->
  is_in_bounds x y = true ->
  dict_mem directions (upper piece) = true -> dict_get directions piece <> None ->
  exists moves, get_piece_moves board x y piece = Ok moves
                /\ Forall (fun m => on_board m = true) moves.
Proof.
  intros Hwf Hxy Hmem Hget. unfold get_piece_moves. rewrite Hmem.
  destruct (dict_get directions piece) as [dirs |] eqn:Hdirs; [| congruence].
  apply directions_nonzero in Hdirs. rewrite Forall_forall in Hdirs.
  apply (for_each_invariant (fun moves => Forall (fun m => on_board m = true) moves));
    [constructor |].
  intros [dx dy] moves Hin Hmoves.
  pose proof (walk_fuel_enough board x y piece dx dy (x + dx) (y + dy) moves
                (Hdirs (dx, dy) Hin)) as Hfuel.
  pose proof (walk_wf walk_fuel board x y piece dx dy (x + dx) (y + dy) moves Hwf) as Hw.
  destruct (walk walk_fuel board x y piece dx dy (x + dx) (y + dy) moves);
    [| contradiction | congruence].
  destruct Hw as (new & -> & Hnew). eexists. split; [reflexivity |].
  apply Forall_app. split; [exact Hmoves |].
  eapply Forall_impl; [exact Hnew |].
  intros [[a b] [c d]] [Hsrc Hdst]. simpl in *. injection Hsrc as -> ->.
  unfold on_board. simpl. rewrite Hxy, Hdst. reflexivity.
Qed.

(** Every character whose upper case is a key of [directions] is a key
    itself: the subscript [directions[piece]] raises no [KeyError]. *)
Lemma directions_key (piece : ascii) :
  dict_mem directions (upper piece) = true -> dict_get directions piece <> None.
Proof.
  destruct piece as [[] [] [] [] [] [] [] []]; vm_compute; congruence.
Qed.

Lemma get_piece_moves_total (board : Board) (x y : Z) (piece : ascii) :
  wf_board board = true ->
  is_in_bounds x y = true ->
  exists moves, get_piece_moves board x y piece = Ok moves
                /\ Forall (fun m => on_board m = true) moves.
Proof.
  intros Hwf Hxy.
  destruct (dict_mem directions (upper piece)) eqn:Hmem.
  - apply get_piece_moves_wf; auto using directions_key.
  - unfold get_piece_moves. rewrite Hmem. eauto.
Qed.

Lemma elem_of_range (n : nat) (x : Z) : x ∈ range n -> 0 <= x < Z.of_nat n.
Proof.
  unfold range. intros H. apply list_elem_of_In in H.
  apply in_map_iff in H as (k & <- & Hk). apply in_seq in Hk. lia.
Qed.

(** On a well-formed board the generator raises nothing, and all its moves
    lie on the board. *)
Lemma generate_moves_total (board : Board) (is_white : bool) :
  wf_board board = true ->
  exists moves, generate_moves board is_white = Ok moves
                /\ Forall (fun m => on_board m = true) moves.
Proof.
  intros Hwf. unfold generate_moves.
  apply (for_each_invariant (fun moves => Forall (fun m => on_board m = true) moves));
    [constructor |].
  intros x moves Hx Hmoves. apply elem_of_range in Hx.
  apply (for_each_invariant (fun moves => Forall (fun m => on_board m = true) moves));
    [exact Hmoves |].
  intros y moves' Hy Hmoves'. apply elem_of_range in Hy.
  assert (Hb : is_in_bounds x y = true) by (apply in_bounds_intro; lia).
  destruct (wf_cell board x y Hwf Hb) as (piece & -> & _). cbn [bind].
  destruct (_ || _); [| eauto].
  destruct (get_piece_moves_total board x y piece Hwf Hb) as (new & -> & Hnew).
  cbn [bind]. eexists. split; [reflexivity |]. apply Forall_app. auto.
Qed.

Lemma make_move_total (board : Board) (m : Move) :
  wf_board board = true -> on_board m = true ->
  exists board', make_move board m = Ok board' /\ wf_board board' = true.
Proof.
  intros Hwf Hm. destruct m as [[x1 y1] [x2 y2]].
  unfold on_board in Hm. simpl in Hm. apply andb_prop in Hm as [H1 H2].
  destruct (make_move_squares board x1 y1 x2 y2 Hwf H1 H2)
    as (piece & board' & _ & Hmk & Hwf' & _).
  eauto.
Qed.

(** ** Termination of the search *)

Lemma setitem_no_timeout {A} (l : list A) (i : Z) (a : A) : setitem l i a <> OutOfFuel.
Proof. unfold setitem. destruct (norm_index _ _); discriminate. Qed.

Lemma set_cell_no_timeout (board : Board) (x y : Z) (v : ascii) :
  set_cell board x y v <> OutOfFuel.
Proof.
  unfold set_cell.
  apply bind_no_timeout; [apply getitem_no_timeout | intros row].
  apply bind_no_timeout; [apply setitem_no_timeout | intros row'].
  apply setitem_no_timeout.
Qed.

Lemma make_move_no_timeout (board : Board) (m : Move) : make_move board m <> OutOfFuel.
Proof.
  destruct m as [[x1 y1] [x2 y2]]. unfold make_move.
  apply bind_no_timeout; [apply cell_no_timeout | intros piece].
  apply bind_no_timeout; [apply set_cell_no_timeout | intros board'].
  apply set_cell_no_timeout.
Qed.

Section LoopFacts.
Variables child1 child2 : Board -> num -> num -> outcome (num * option Move).

Lemma max_loop_ext (board : Board) (moves : list Move) (max_eval : num)
    (best_move : option Move) (alpha beta : num) :
  (forall b a be, child1 b a be = child2 b a be) ->
  max_loop child1 board moves max_eval best_move alpha beta
  = max_loop child2 board moves max_eval best_move alpha beta.
Proof.
  intros Hext. revert max_eval best_move alpha.
  induction moves as [| move rest IH]; intros max_eval best_move alpha;
    cbn [max_loop]; [reflexivity |].
  destruct (make_move board move) as [nb | |]; cbn [bind]; try reflexivity.
  rewrite Hext. destruct (child2 nb alpha beta) as [[evaluation bm] | |];
    cbn [bind]; try reflexivity.
  destruct (gt evaluation max_eval); destruct (le beta (max alpha evaluation));
    try reflexivity; apply IH.
Qed.

Lemma min_loop_ext (board : Board) (moves : list Move) (min_eval : num)
    (best_move : option Move) (alpha beta : num) :
  (forall b a be, child1 b a be = child2 b a be) ->
  min_loop child1 board moves min_eval best_move alpha beta
  = min_loop child2 board moves min_eval best_move alpha beta.
Proof.
  intros Hext. revert min_eval best_move beta.
  induction moves as [| move rest IH]; intros min_eval best_move beta;
    cbn [min_loop]; [reflexivity |].
  destruct (make_move board move) as [nb | |]; cbn [bind]; try reflexivity.
  rewrite Hext. destruct (child2 nb alpha beta) as [[evaluation bm] | |];
    cbn [bind]; try reflexivity.
  destruct (lt evaluation min_eval); destruct (le (min beta evaluation) alpha);
    try reflexivity; apply IH.
Qed.

Lemma max_loop_no_timeout (board : Board) (moves : list Move) (max_eval : num)
    (best_move : option Move) (alpha beta : num) :
  (forall b a be, child1 b a be <> OutOfFuel) ->
  max_loop child1 board moves max_eval best_move alpha beta <> OutOfFuel.
Proof.
  intros Hc. revert max_eval best_move alpha.
  induction moves as [| move rest IH]; intros max_eval best_move alpha;
    cbn [max_loop]; [discriminate |].
  apply bind_no_timeout; [apply make_move_no_timeout |]. intros nb.
  apply bind_no_timeout; [apply Hc |]. intros [evaluation bm].
  destruct (gt evaluation max_eval); destruct (le beta (max alpha evaluation));
    try discriminate; apply IH.
Qed.

Lemma min_loop_no_timeout (board : Board) (moves : list Move) (min_eval : num)
    (best_move : option Move) (alpha beta : num) :
  (forall b a be, child1 b a be <> OutOfFuel) ->
  min_loop child1 board moves min_eval best_move alpha beta <> OutOfFuel.
Proof.
  intros Hc. revert min_eval best_move beta.
  induction moves as [| move rest IH]; intros min_eval best_move beta;
    cbn [min_loop]; [discriminate |].
  apply bind_no_timeout; [apply make_move_no_timeout |]. intros nb.
  apply bind_no_timeout; [apply Hc |]. intros [evaluation bm].
  destruct (lt evaluation min_eval); destruct (le (min beta evaluation) alpha);
    try discriminate; apply IH.
Qed.
End LoopFacts.

(** With more nested calls allowed than the depth, the budget is never
    exhausted. *)
Lemma minimax_no_timeout (fuel : nat) (board : Board) (depth : Z)
    (is_white : bool) (alpha beta : num) :
  0 <= depth < Z.of_nat fuel ->
  minimax fuel board depth is_white alpha beta <> OutOfFuel.
Proof.
  revert board depth is_white alpha beta.
  induction fuel as [| fuel IH]; intros board depth is_white alpha beta Hd; [lia |].
  cbn [minimax]. destruct (Z.eqb_spec depth 0) as [_ | Hne]; [discriminate |].
  destruct is_white;
    (apply bind_no_timeout; [apply generate_moves_no_timeout |]; intros moves).
  - apply max_loop_no_timeout. intros b a be. apply IH. lia.
  - apply min_loop_no_timeout. intros b a be. apply IH. lia.
Qed.

(** The result does not depend on the budget once it exceeds the depth. *)
Lemma minimax_fuel_irrelevant (fuel1 fuel2 : nat) (board : Board) (depth : Z)
    (is_white : bool) (alpha beta : num) :
  0 <= depth < Z.of_nat fuel1 -> depth < Z.of_nat fuel2 ->
  minimax fuel1 board depth is_white alpha beta
  = minimax fuel2 board depth is_white alpha beta.
Proof.
  revert fuel2 board depth is_white alpha beta.
  induction fuel1 as [| fuel1 IH]; intros fuel2 board depth is_white alpha beta H1 H2;
    [lia |].
  destruct fuel2 as [| fuel2]; [lia |].
  cbn [minimax]. destruct (Z.eqb_spec depth 0) as [_ | Hne]; [reflexivity |].
  destruct is_white;
    (destruct (generate_moves board _) as [moves | |]; cbn [bind]; try reflexivity).
  - apply max_loop_ext. intros b a be. apply IH; lia.
  - apply min_loop_ext. intros b a be. apply IH; lia.
Qed.

(** C9: for every board, every depth that is not negative, every window and
    either side, the search terminates: one result, which is not the
    exhaustion of the budget, is returned under every budget of nested calls
    larger than the depth, because each recursive call is made at depth - 1
    and depth 0 makes none. *)
Theorem minimax_terminates :
  forall (board : Board) (depth : Z) (is_white : bool) (alpha beta : num),
    0 <= depth ->
    exists result,
      result <> OutOfFuel
      /\ forall fuel, (Z.to_nat depth < fuel)%nat ->
                      minimax fuel board depth is_white alpha beta = result.
Proof.
  intros board depth is_white alpha beta Hd.
  exists (minimax (S (Z.to_nat depth)) board depth is_white alpha beta).
  split.
  - apply minimax_no_timeout. lia.
  - intros fuel Hf. apply minimax_fuel_irrelevant; lia.
Qed.

Lemma minimax_terminates_witness :
  exists result,
    result <> OutOfFuel
    /\ forall fuel, (Z.to_nat 3 < fuel)%nat ->
                    minimax fuel initialize_board 3 true NegInf PosInf = result.
Proof.
  apply (minimax_terminates initialize_board 3 true NegInf PosInf). lia.
Defined.

(** ** Alpha-beta pruning against full minimax *)

Ltac num_solve :=
  unfold ab_rel, max, min, gt, le in *;
  repeat match goal with x : num |- _ => destruct x end;
  cbn [lt negb] in *;
  repeat match goal with
         | |- context [if ?c then _ else _] => destruct c eqn:?; cbn [lt negb] in *
         | H : context [if ?c then _ else _] |- _ => destruct c eqn:?; cbn [lt negb] in *
         end;
  try discriminate;
  try (intuition (try discriminate; try lia; try (f_equal; lia))).

Lemma ab_rel_exact (v : num) : forall alpha beta, ab_rel alpha beta v v.
Proof. intros alpha beta. num_solve. Qed.

Lemma ab_rel_full_window (v r : num) : ab_rel NegInf PosInf v r -> r = v.
Proof. num_solve. Qed.

Lemma le_trans_max (acc e V : num) :
  le (if gt e acc then e else acc) V = true -> le acc V = true.
Proof. num_solve. Qed.

Lemma le_trans_min (acc e V : num) :
  le V (if lt e acc then e else acc) = true -> le V acc = true.
Proof. num_solve. Qed.

Lemma max_break (a0 m0 beta v1 r1 V0 V : num) :
  lt (max a0 m0) beta = true ->
  ab_rel a0 beta V0 m0 ->
  ab_rel (max a0 m0) beta v1 r1 ->
  le beta (max (max a0 m0) r1) = true ->
  le (if gt v1 V0 then v1 else V0) V = true ->
  ab_rel a0 beta V (if gt r1 m0 then r1 else m0).
Proof. num_solve. Qed.

Lemma max_continue (a0 m0 beta v1 r1 V0 : num) :
  lt (max a0 m0) beta = true ->
  ab_rel a0 beta V0 m0 ->
  ab_rel (max a0 m0) beta v1 r1 ->
  le beta (max (max a0 m0) r1) = false ->
  max (max a0 m0) r1 = max a0 (if gt r1 m0 then r1 else m0)
  /\ lt (max a0 (if gt r1 m0 then r1 else m0)) beta = true
  /\ ab_rel a0 beta (if gt v1 V0 then v1 else V0) (if gt r1 m0 then r1 else m0).
Proof. num_solve. Qed.

Lemma min_break (alpha b0 m0 v1 r1 V0 V : num) :
  lt alpha (min b0 m0) = true ->
  ab_rel alpha b0 V0 m0 ->
  ab_rel alpha (min b0 m0) v1 r1 ->
  le (min (min b0 m0) r1) alpha = true ->
  le V (if lt v1 V0 then v1 else V0) = true ->
  ab_rel alpha b0 V (if lt r1 m0 then r1 else m0).
Proof. num_solve. Qed.

Lemma min_continue (alpha b0 m0 v1 r1 V0 : num) :
  lt alpha (min b0 m0) = true ->
  ab_rel alpha b0 V0 m0 ->
  ab_rel alpha (min b0 m0) v1 r1 ->
  le (min (min b0 m0) r1) alpha = false ->
  min (min b0 m0) r1 = min b0 (if lt r1 m0 then r1 else m0)
  /\ lt alpha (min b0 (if lt r1 m0 then r1 else m0)) = true
  /\ ab_rel alpha b0 (if lt v1 V0 then v1 else V0) (if lt r1 m0 then r1 else m0).
Proof. num_solve. Qed.

Section Pruning.
Variable child : Board -> num -> num -> outcome (num * option Move).
Variable full_child : Board -> outcome num.

(** The recursive calls are correct for every proper window. *)
Hypothesis child_sound :
  forall b alpha beta v,
    lt alpha beta = true -> full_child b = Ok v ->
    exists r m, child b alpha beta = Ok (r, m) /\ ab_rel alpha beta v r.

Lemma max_full_ge (board : Board) (moves : list Move) (acc V : num) :
  max_full full_child board moves acc = Ok V -> le acc V = true.
Proof.
  revert acc. induction moves as [| move rest IH]; intros acc; cbn [max_full].
  - intros [= ->]. apply le_refl.
  - intros H. apply bind_Ok in H as (nb & _ & H).
    apply bind_Ok in H as (e & _ & H).
    apply IH in H. eapply le_trans_max. exact H.
Qed.

Lemma min_full_le (board : Board) (moves : list Move) (acc V : num) :
  min_full full_child board moves acc = Ok V -> le V acc = true.
Proof.
  revert acc. induction moves as [| move rest IH]; intros acc; cbn [min_full].
  - intros [= ->]. apply le_refl.
  - intros H. apply bind_Ok in H as (nb & _ & H).
    apply bind_Ok in H as (e & _ & H).
    apply IH in H. eapply le_trans_min. exact H.
Qed.

Lemma max_loop_sound (board : Board) (a0 beta : num) (moves : list Move) :
  forall (m0 : num) (bm0 : option Move) (V0 V : num),
    lt (max a0 m0) beta = true ->
    ab_rel a0 beta V0 m0 ->
    max_full full_child board moves V0 = Ok V ->
    exists r bm,
      max_loop child board moves m0 bm0 (max a0 m0) beta = Ok (r, bm)
      /\ ab_rel a0 beta V r.
Proof.
  induction moves as [| move rest IH]; intros m0 bm0 V0 V Hwin Hrel Hfull.
  - cbn [max_full] in Hfull. injection Hfull as <-.
    cbn [max_loop]. eauto.
  - cbn [max_full] in Hfull.
    apply bind_Ok in Hfull as (nb & Hmk & Hfull).
    apply bind_Ok in Hfull as (v1 & Hv1 & Hfull).
    destruct (child_sound nb (max a0 m0) beta v1 Hwin Hv1) as (r1 & m1 & Hr1 & Hrel1).
    cbn [max_loop]. rewrite Hmk. cbn [bind]. rewrite Hr1. cbn [bind].
    destruct (le beta (max (max a0 m0) r1)) eqn:Hcut.
    + pose proof (max_full_ge _ _ _ _ Hfull) as Hge.
      pose proof (max_break _ _ _ _ _ _ _ Hwin Hrel Hrel1 Hcut Hge) as Hres.
      destruct (gt r1 m0); eauto.
    + destruct (max_continue _ _ _ _ _ V0 Hwin Hrel Hrel1 Hcut) as (Halpha & Hwin' & Hrel').
      rewrite Halpha.
      destruct (gt r1 m0); eapply IH; eassumption.
Qed.

Lemma min_loop_sound (board : Board) (alpha b0 : num) (moves : list Move) :
  forall (m0 : num) (bm0 : option Move) (V0 V : num),
    lt alpha (min b0 m0) = true ->
    ab_rel alpha b0 V0 m0 ->
    min_full full_child board moves V0 = Ok V ->
    exists r bm,
      min_loop child board moves m0 bm0 alpha (min b0 m0) = Ok (r, bm)
      /\ ab_rel alpha b0 V r.
Proof.
  induction moves as [| move rest IH]; intros m0 bm0 V0 V Hwin Hrel Hfull.
  - cbn [min_full] in Hfull. injection Hfull as <-.
    cbn [min_loop]. eauto.
  - cbn [min_full] in Hfull.
    apply bind_Ok in Hfull as (nb & Hmk & Hfull).
    apply bind_Ok in Hfull as (v1 & Hv1 & Hfull).
    destruct (child_sound nb alpha (min b0 m0) v1 Hwin Hv1) as (r1 & m1 & Hr1 & Hrel1).
    cbn [min_loop]. rewrite Hmk. cbn [bind]. rewrite Hr1. cbn [bind].
    destruct (le (min (min b0 m0) r1) alpha) eqn:Hcut.
    + pose proof (min_full_le _ _ _ _ Hfull) as Hle.
      pose proof (min_break _ _ _ _ _ _ _ Hwin Hrel Hrel1 Hcut Hle) as Hres.
      destruct (lt r1 m0); eauto.
    + destruct (min_continue _ _ _ _ _ V0 Hwin Hrel Hrel1 Hcut) as (Hbeta & Hwin' & Hrel').
      rewrite Hbeta.
      destruct (lt r1 m0); eapply IH; eassumption.
Qed.
End Pruning.

(** Whenever the full minimax of a node has a value, the pruned search
    called with a proper window returns a result related to that value. *)
Lemma minimax_sound (fuel : nat) :
  forall (board : Board) (depth : Z) (is_white : bool) (alpha beta v : num),
    lt alpha beta = true ->
    minimax_full fuel board depth is_white = Ok v ->
    exists r m,
      minimax fuel board depth is_white alpha beta = Ok (r, m)
      /\ ab_rel alpha beta v r.
Proof.
  induction fuel as [| fuel IH]; intros board depth is_white alpha beta v Hwin Hfull;
    [discriminate |].
  cbn [minimax_full] in Hfull. cbn [minimax].
  destruct (depth =? 0).
  - injection Hfull as <-. eexists _, _. split; [reflexivity | apply ab_rel_exact].
  - apply bind_Ok in Hfull as (moves & Hgen & Hfull).
    destruct is_white; rewrite Hgen; cbn [bind].
    + destruct (max_loop_sound _ _ (fun b a be v => IH b (depth - 1) false a be v)
                  board alpha beta moves NegInf None NegInf v)
        as (r & bm & Hr & Hrel);
        [rewrite max_NegInf_r; exact Hwin | apply ab_rel_exact | exact Hfull |].
      rewrite max_NegInf_r in Hr. eauto.
    + destruct (min_loop_sound _ _ (fun b a be v => IH b (depth - 1) true a be v)
                  board alpha beta moves PosInf None PosInf v)
        as (r & bm & Hr & Hrel);
        [rewrite min_PosInf_r; exact Hwin | apply ab_rel_exact | exact Hfull |].
      rewrite min_PosInf_r in Hr. eauto.
Qed.

(** At the root, with the window from minus to plus infinity, the pruned
    search returns the full minimax value. *)
Lemma minimax_root_exact (fuel : nat) (board : Board) (depth : Z)
    (is_white : bool) (v : num) :
  minimax_full fuel board depth is_white = Ok v ->
  exists m, minimax fuel board depth is_white NegInf PosInf = Ok (v, m).
Proof.
  intros Hfull.
  destruct (minimax_sound fuel board depth is_white NegInf PosInf v eq_refl Hfull)
    as (r & m & Hr & Hrel).
  apply ab_rel_full_window in Hrel. subst r. eauto.
Qed.

Section FullTotal.
Variable full_child : Board -> outcome num.
Hypothesis full_child_total :
  forall b, wf_board b = true -> exists v, full_child b = Ok v.

Lemma max_full_total (board : Board) (moves : list Move) (acc : num) :
  wf_board board = true -> Forall (fun m => on_board m = true) moves ->
  exists V, max_full full_child board moves acc = Ok V.
Proof.
  intros Hwf Hmoves. revert acc.
  induction Hmoves as [| move rest Hmove _ IH]; intros acc; cbn [max_full]; [eauto |].
  destruct (make_move_total board move Hwf Hmove) as (nb & -> & Hnb). cbn [bind].
  destruct (full_child_total nb Hnb) as (e & ->). cbn [bind]. apply IH.
Qed.

Lemma min_full_total (board : Board) (moves : list Move) (acc : num) :
  wf_board board = true -> Forall (fun m => on_board m = true) moves ->
  exists V, min_full full_child board moves acc = Ok V.
Proof.
  intros Hwf Hmoves. revert acc.
  induction Hmoves as [| move rest Hmove _ IH]; intros acc; cbn [min_full]; [eauto |].
  destruct (make_move_total board move Hwf Hmove) as (nb & -> & Hnb). cbn [bind].
  destruct (full_child_total nb Hnb) as (e & ->). cbn [bind]. apply IH.
Qed.
End FullTotal.

(** On a well-formed board the full minimax has a value at every depth
    that is not negative. *)
Lemma minimax_full_total (fuel : nat) :
  forall (board : Board) (depth : Z) (is_white : bool),
    wf_board board = true -> 0 <= depth < Z.of_nat fuel ->
    exists v, minimax_full fuel board depth is_white = Ok v.
Proof.
  induction fuel as [| fuel IH]; intros board depth is_white Hwf Hd; [lia |].
  cbn [minimax_full].
  destruct (Z.eqb_spec depth 0) as [_ | Hne]; [eauto |].
  destruct (generate_moves_total board is_white Hwf) as (moves & -> & Hmoves).
  cbn [bind].
  destruct is_white.
  - apply max_full_total; [| exact Hwf | exact Hmoves].
    intros b Hb. apply IH; [exact Hb | lia].
  - apply min_full_total; [| exact Hwf | exact Hmoves].
    intros b Hb. apply IH; [exact Hb | lia].
Qed.

(** C1: on every well-formed board, for every depth that is not negative
    (in particular every depth up to 3) and either side to move, the score
    that the alpha-beta search returns at the root, called with the window
    from minus infinity to plus infinity, is the value of the un-pruned
    minimax over the same tree. *)
Theorem alpha_beta_equals_full_minimax :
  forall (fuel : nat) (board : Board) (depth : Z) (is_white : bool),
    wf_board board = true ->
    0 <= depth < Z.of_nat fuel ->
    exists v best_move,
      minimax_full fuel board depth is_white = Ok v
      /\ minimax fuel board depth is_white NegInf PosInf = Ok (v, best_move).
Proof.
  intros fuel board depth is_white Hwf Hd.
  destruct (minimax_full_total fuel board depth is_white Hwf Hd) as (v & Hv).
  destruct (minimax_root_exact fuel board depth is_white v Hv) as (m & Hm).
  eauto.
Qed.

Lemma alpha_beta_equals_full_minimax_witness :
  exists v best_move,
    minimax_full 4 initialize_board 3 true = Ok v
    /\ minimax 4 initialize_board 3 true NegInf PosInf = Ok (v, best_move).
Proof.
  apply (alpha_beta_equals_full_minimax 4 initialize_board 3 true); [reflexivity | lia].
Defined.

(** ** Choice of the best move *)

Section BestMove.
Variable child : Board -> num -> num -> outcome (num * option Move).

(** One iteration of the maximizing loop: the best move is replaced only
    by a move whose score is strictly greater than the best so far. *)
Lemma max_loop_step (board new_board : Board) (move : Move) (rest : list Move)
    (max_eval evaluation : num) (best_move other : option Move) (alpha beta : num) :
  make_move board move = Ok new_board ->
  child new_board alpha beta = Ok (evaluation, other) ->
  max_loop child board (move :: rest) max_eval best_move alpha beta
  = (if gt evaluation max_eval
     then if le beta (max alpha evaluation) then Ok (evaluation, Some move)
          else max_loop child board rest evaluation (Some move) (max alpha evaluation) beta
     else if le beta (max alpha evaluation) then Ok (max_eval, best_move)
          else max_loop child board rest max_eval best_move (max alpha evaluation) beta).
Proof.
  intros Hmk Hch. cbn [max_loop]. rewrite Hmk. cbn [bind]. rewrite Hch. cbn [bind].
  destruct (gt evaluation max_eval); reflexivity.
Qed.

Lemma min_loop_step (board new_board : Board) (move : Move) (rest : list Move)
    (min_eval evaluation : num) (best_move other : option Move) (alpha beta : num) :
  make_move board move = Ok new_board ->
  child new_board alpha beta = Ok (evaluation, other) ->
  min_loop child board (move :: rest) min_eval best_move alpha beta
  = (if lt evaluation min_eval
     then if le (min beta evaluation) alpha then Ok (evaluation, Some move)
          else min_loop child board rest evaluation (Some move) alpha (min beta evaluation)
     else if le (min beta evaluation) alpha then Ok (min_eval, best_move)
          else min_loop child board rest min_eval best_move alpha (min beta evaluation)).
Proof.
  intros Hmk Hch. cbn [min_loop]. rewrite Hmk. cbn [bind]. rewrite Hch. cbn [bind].
  destruct (lt evaluation min_eval); reflexivity.
Qed.
End BestMove.

(** On the starting position at depth 3 the first generated move is
    returned. *)
Example initial_position_first_move :
  omap (fun moves => head moves) (generate_moves initialize_board true)
  = Ok (Some ((6, 0), (5, 0)))
  /\ minimax 4 initialize_board 3 true NegInf PosInf = Ok (Fin 0, Some ((6, 0), (5, 0))).
Proof. split; vm_compute; reflexivity. Qed.

(** C8: with the white king in the corner and two black rooks on the first
    two files, White has three moves at depth 3; after each of them the
    search returns the same score, minus infinity, and the root returns no
    move at all instead of the first of the three. *)
Theorem equal_scores_no_move_returned :
  generate_moves cornered_king_board true
  = Ok [((7, 0), (6, 0)); ((7, 0), (7, 1)); ((7, 0), (6, 1))]
  /\ Forall
       (fun move =>
          exists new_board,
            make_move cornered_king_board move = Ok new_board
            /\ omap fst (minimax 3 new_board 2 false NegInf PosInf) = Ok NegInf)
       [((7, 0), (6, 0)); ((7, 0), (7, 1)); ((7, 0), (6, 1))]
  /\ minimax 4 cornered_king_board 3 true NegInf PosInf = Ok (NegInf, None).
Proof.
  split; [reflexivity |]. split; [| vm_compute; reflexivity].
  repeat constructor; eexists; (split; [vm_compute; reflexivity | vm_compute; reflexivity]).
Qed.

(** ** The search leaves the caller's board alone *)

Lemma getitem_elem_of {A} (l : list A) (i : Z) (a : A) :
  getitem l i = Ok a -> a ∈ l.
Proof.
  unfold getitem. destruct (norm_index _ _) as [n |]; [| discriminate].
  destruct (l !! n) as [a' |] eqn:Hn; [| discriminate].
  intros [= <-]. apply list_elem_of_lookup. eauto.
Qed.

Lemma alloc_fresh (o : Store.obj) (h : Store.heap) :
  exists l, Store.alloc o h = (Ok l, <[l := o]> h) /\ h !! l = None.
Proof.
  exists (fresh (dom h)). split; [reflexivity |].
  apply not_elem_of_dom. apply is_fresh.
Qed.

(** A sequenced computation ends where its first part failed, or where
    its second part ends. *)
Lemma sbind_inv {A B} (m : Store.M A) (k : A -> Store.M B) (h h' : Store.heap)
    (res : outcome B) :
  Store.sbind m k h = (res, h') ->
  (exists a h1, m h = (Ok a, h1) /\ k a h1 = (res, h'))
  \/ (exists r, m h = (r, h') /\ (forall a, r <> Ok a) /\ (forall b, res <> Ok b)).
Proof.
  unfold Store.sbind. destruct (m h) as [[a | e |] h1].
  - intros H. left. eauto.
  - intros [= <- <-]. right. exists (Raise e). repeat split; discriminate.
  - intros [= <- <-]. right. exists OutOfFuel. repeat split; discriminate.
Qed.

Ltac sbind_cases H :=
  apply sbind_inv in H as [(? & ? & ? & H) | (? & H & ? & ?)].

Ltac not_failed :=
  exfalso;
  match goal with
  | Hf : forall b, Ok _ <> Ok b |- _ => exact (Hf _ eq_refl)
  end.

Lemma copy_rows_keeps (h0 : Store.heap) (rows : list Store.loc) :
  forall (memo : gmap Store.loc Store.loc) (h h' : Store.heap) res,
    StoreEngine.copy_rows rows memo h = (res, h') ->
    h0 ⊆ h ->
    (forall r r', memo !! r = Some r' -> h0 !! r' = None) ->
    h ⊆ h'
    /\ forall rows', res = Ok rows' -> Forall (fun r' => h0 !! r' = None) rows'.
Proof.
  induction rows as [| r rest IH]; intros memo h h' res Hrun Hsub Hmemo;
    cbn [StoreEngine.copy_rows] in Hrun.
  - injection Hrun as <- <-. split; [reflexivity |]. intros rows' [= <-]. constructor.
  - destruct (memo !! r) as [r' |] eqn:Hr.
    + sbind_cases Hrun.
      * injection Hrun as <- <-.
        destruct (IH _ _ _ _ H Hsub Hmemo) as [Hk Hrows].
        split; [exact Hk |]. intros rows' [= <-]. constructor; eauto.
      * destruct (IH _ _ _ _ Hrun Hsub Hmemo) as [Hk _].
        split; [exact Hk |]. intros rows' ->. not_failed.
    + unfold Store.sbind at 1 in Hrun. unfold Store.load_row in Hrun.
      destruct (Store.row_at h r) as [cells | e |].
      2,3: injection Hrun as <- <-; split; [reflexivity | discriminate].
      unfold Store.sbind at 1 in Hrun.
      destruct (alloc_fresh (Store.ORow cells) h) as (l & Hal & Hl).
      rewrite Hal in Hrun.
      assert (Hl0 : h0 !! l = None) by (eapply lookup_weaken_None; eassumption).
      assert (Hsub1 : h0 ⊆ <[l := Store.ORow cells]> h)
        by (apply insert_subseteq_r; assumption).
      assert (Hmemo1 : forall r1 r1', <[r := l]> memo !! r1 = Some r1' -> h0 !! r1' = None).
      { intros r1 r1'. rewrite lookup_insert. case_decide.
        - intros [= <-]. exact Hl0.
        - apply Hmemo. }
      sbind_cases Hrun.
      * injection Hrun as <- <-.
        destruct (IH _ _ _ _ H Hsub1 Hmemo1) as [Hk Hrows].
        split; [etrans; [apply insert_subseteq; exact Hl | exact Hk] |].
        intros rows' [= <-]. constructor; eauto.
      * destruct (IH _ _ _ _ Hrun Hsub1 Hmemo1) as [Hk _].
        split; [etrans; [apply insert_subseteq; exact Hl | exact Hk] |].
        intros rows' ->. not_failed.
Qed.

(** [deepcopy] changes no existing object, and the copy is made of new
    objects only. *)
Lemma deepcopy_keeps (board : Store.loc) (h h' : Store.heap) res :
  StoreEngine.deepcopy board h = (res, h') ->
  h ⊆ h' /\ forall nb, res = Ok nb -> owns h h' nb.
Proof.
  unfold StoreEngine.deepcopy. intros Hrun.
  unfold Store.sbind at 1 in Hrun. unfold Store.load_rows in Hrun.
  destruct (Store.rows_at h board) as [rows | e |].
  2,3: injection Hrun as <- <-; split; [reflexivity | discriminate].
  sbind_cases Hrun.
  - destruct (copy_rows_keeps h rows ∅ h _ _ H) as [Hk Hrows]; [reflexivity | |].
    { intros r r'. rewrite lookup_empty. discriminate. }
    destruct (alloc_fresh (Store.OBoard x) x0) as (l & Hal & Hl).
    rewrite Hal in Hrun. injection Hrun as <- <-.
    split; [etrans; [exact Hk | apply insert_subseteq; exact Hl] |].
    intros nb [= <-] rows2. unfold Store.rows_at. rewrite lookup_insert_eq.
    intros [= <-]. apply Hrows. reflexivity.
  - destruct (copy_rows_keeps h rows ∅ h _ _ Hrun) as [Hk _]; [reflexivity | |].
    { intros r r'. rewrite lookup_empty. discriminate. }
    split; [exact Hk |]. intros nb ->. not_failed.
Qed.

Lemma get_cell_reads (board : Store.loc) (x y : Z) (h h' : Store.heap) res :
  StoreEngine.get_cell board x y h = (res, h') -> h' = h.
Proof.
  unfold StoreEngine.get_cell, Store.sbind, Store.load_rows, Store.lift, Store.load_row.
  destruct (Store.rows_at h board) as [rows | e |]; [| congruence | congruence].
  destruct (getitem rows x) as [r | e |]; [| congruence | congruence].
  destruct (Store.row_at h r); congruence.
Qed.

Lemma put_cell_keeps (h0 h h' : Store.heap) (board : Store.loc) (x y : Z)
    (v : ascii) res :
  StoreEngine.put_cell board x y v h = (res, h') ->
  h0 ⊆ h -> owns h0 h board ->
  h0 ⊆ h' /\ owns h0 h' board.
Proof.
  intros Hrun Hsub Hown. unfold StoreEngine.put_cell in Hrun.
  unfold Store.sbind, Store.load_rows, Store.lift, Store.load_row, Store.store in Hrun.
  destruct (Store.rows_at h board) as [rows | e |] eqn:Hrows.
  2,3: injection Hrun as <- <-; split; assumption.
  destruct (getitem rows x) as [r | e |] eqn:Hr.
  2,3: injection Hrun as <- <-; split; assumption.
  destruct (Store.row_at h r) as [cells | e |] eqn:Hcells.
  2,3: injection Hrun as <- <-; split; assumption.
  destruct (setitem cells y v) as [cells' | e |].
  2,3: injection Hrun as <- <-; split; assumption.
  injection Hrun as <- <-.
  assert (Hr0 : h0 !! r = None).
  { specialize (Hown rows Hrows). rewrite Forall_forall in Hown.
    apply Hown. eapply getitem_elem_of. exact Hr. }
  split; [apply insert_subseteq_r; assumption |].
  intros rows2. unfold Store.rows_at. rewrite lookup_insert. case_decide.
  - discriminate.
  - intros H2. apply Hown. exact H2.
Qed.

(** [make_move] writes only into the rows of the board it is given. *)
Lemma make_move_keeps (h0 h h' : Store.heap) (board : Store.loc) (m : Move) res :
  StoreEngine.make_move board m h = (res, h') ->
  h0 ⊆ h -> owns h0 h board ->
  h0 ⊆ h'.
Proof.
  intros Hrun Hsub Hown. destruct m as [[x1 y1] [x2 y2]].
  unfold StoreEngine.make_move in Hrun.
  sbind_cases Hrun.
  - apply get_cell_reads in H as ->.
    sbind_cases Hrun.
    + destruct (put_cell_keeps _ _ _ _ _ _ _ _ H Hsub Hown) as [Hsub1 Hown1].
      destruct (put_cell_keeps _ _ _ _ _ _ _ _ Hrun Hsub1 Hown1) as [Hsub2 _].
      exact Hsub2.
    + destruct (put_cell_keeps _ _ _ _ _ _ _ _ Hrun Hsub Hown) as [Hsub1 _].
      exact Hsub1.
  - apply get_cell_reads in Hrun as ->. exact Hsub.
Qed.

Section StoreLoops.
Variable child : Store.loc -> num -> num -> Store.M (num * option Move).
Hypothesis child_keeps :
  forall b alpha beta h h' res, child b alpha beta h = (res, h') -> h ⊆ h'.

Lemma max_loop_keeps (board : Store.loc) (moves : list Move) :
  forall max_eval best_move alpha beta h h' res,
    StoreEngine.max_loop child board moves max_eval best_move alpha beta h = (res, h') ->
    h ⊆ h'.
Proof.
  induction moves as [| move rest IH]; intros max_eval best_move alpha beta h h' res Hrun;
    cbn [StoreEngine.max_loop] in Hrun.
  - injection Hrun as <- <-. reflexivity.
  - sbind_cases Hrun; [| eapply deepcopy_keeps; eassumption].
    destruct (deepcopy_keeps _ _ _ _ H) as [Hk Hown].
    specialize (Hown _ eq_refl).
    sbind_cases Hrun; [| eapply make_move_keeps; eassumption].
    pose proof (make_move_keeps _ _ _ _ _ _ H0 Hk Hown) as Hk2.
    sbind_cases Hrun; [| etrans; [exact Hk2 | eapply child_keeps; eassumption]].
    pose proof (child_keeps _ _ _ _ _ _ H1) as Hk3.
    destruct x3 as [evaluation bm].
    assert (Hk4 : h ⊆ x4) by (etrans; eassumption).
    destruct (gt evaluation max_eval); destruct (le beta (max alpha evaluation));
      try (injection Hrun as <- <-; exact Hk4);
      (etrans; [exact Hk4 | eapply IH; eassumption]).
Qed.

Lemma min_loop_keeps (board : Store.loc) (moves : list Move) :
  forall min_eval best_move alpha beta h h' res,
    StoreEngine.min_loop child board moves min_eval best_move alpha beta h = (res, h') ->
    h ⊆ h'.
Proof.
  induction moves as [| move rest IH]; intros min_eval best_move alpha beta h h' res Hrun;
    cbn [StoreEngine.min_loop] in Hrun.
  - injection Hrun as <- <-. reflexivity.
  - sbind_cases Hrun; [| eapply deepcopy_keeps; eassumption].
    destruct (deepcopy_keeps _ _ _ _ H) as [Hk Hown].
    specialize (Hown _ eq_refl).
    sbind_cases Hrun; [| eapply make_move_keeps; eassumption].
    pose proof (make_move_keeps _ _ _ _ _ _ H0 Hk Hown) as Hk2.
    sbind_cases Hrun; [| etrans; [exact Hk2 | eapply child_keeps; eassumption]].
    pose proof (child_keeps _ _ _ _ _ _ H1) as Hk3.
    destruct x3 as [evaluation bm].
    assert (Hk4 : h ⊆ x4) by (etrans; eassumption).
    destruct (lt evaluation min_eval); destruct (le (min beta evaluation) alpha);
      try (injection Hrun as <- <-; exact Hk4);
      (etrans; [exact Hk4 | eapply IH; eassumption]).
Qed.
End StoreLoops.

(** Every object that exists when the search is called exists unchanged
    when it returns, whatever the outcome of the search. *)
Lemma minimax_keeps (fuel : nat) :
  forall (board : Store.loc) (depth : Z) (is_white : bool) (alpha beta : num)
         (h h' : Store.heap) res,
    StoreEngine.minimax fuel board depth is_white alpha beta h = (res, h') ->
    h ⊆ h'.
Proof.
  induction fuel as [| fuel IH]; intros board depth is_white alpha beta h h' res Hrun;
    cbn [StoreEngine.minimax] in Hrun.
  - injection Hrun as <- <-. reflexivity.
  - destruct (depth =? 0).
    + unfold Store.sbind in Hrun.
      destruct (Store.read h board); injection Hrun as <- <-; reflexivity.
    + destruct is_white.
      * sbind_cases Hrun; [injection H as _ <- | injection Hrun as _ <-; reflexivity].
        sbind_cases Hrun; [injection H as _ <- | injection Hrun as _ <-; reflexivity].
        eapply max_loop_keeps; [| exact Hrun].
        intros b0 a0 be0 h0 h0' res0 Hc. cbv beta in Hc. eapply IH. exact Hc.
      * sbind_cases Hrun; [injection H as _ <- | injection Hrun as _ <-; reflexivity].
        sbind_cases Hrun; [injection H as _ <- | injection Hrun as _ <-; reflexivity].
        eapply min_loop_keeps; [| exact Hrun].
        intros b0 a0 be0 h0 h0' res0 Hc. cbv beta in Hc. eapply IH. exact Hc.
Qed.

Lemma row_at_weaken (h h' : Store.heap) (r : Store.loc) (cells : Row) :
  h ⊆ h' -> Store.row_at h r = Ok cells -> Store.row_at h' r = Ok cells.
Proof.
  intros Hsub. unfold Store.row_at.
  destruct (h !! r) as [[c | rows] |] eqn:Hr; try discriminate.
  intros [= <-]. rewrite (lookup_weaken _ _ _ _ Hr Hsub). reflexivity.
Qed.

Lemma read_rows_weaken (h h' : Store.heap) (rows : list Store.loc) :
  h ⊆ h' ->
  forall (acc b : Board),
    for_each rows (fun r acc => let* cells := Store.row_at h r in Ok (acc ++ [cells])) acc
    = Ok b ->
    for_each rows (fun r acc => let* cells := Store.row_at h' r in Ok (acc ++ [cells])) acc
    = Ok b.
Proof.
  intros Hsub. induction rows as [| r rows IH]; intros acc b; cbn [for_each]; [auto |].
  intros H. apply bind_Ok in H as (acc' & H1 & H2).
  apply bind_Ok in H1 as (cells & Hcells & [= <-]).
  rewrite (row_at_weaken _ _ _ _ Hsub Hcells). cbn [bind]. apply IH. exact H2.
Qed.

Lemma read_weaken (h h' : Store.heap) (board : Store.loc) (b : Board) :
  h ⊆ h' -> Store.read h board = Ok b -> Store.read h' board = Ok b.
Proof.
  intros Hsub. unfold Store.read, Store.rows_at.
  destruct (h !! board) as [[c | rows] |] eqn:Hb; try discriminate.
  rewrite (lookup_weaken _ _ _ _ Hb Hsub). cbn [bind].
  apply read_rows_weaken. exact Hsub.
Qed.

(** C10: the search does not change the board it is given.  Whatever the
    budget, depth, side and window, and whatever the outcome, the nested
    list the caller's reference denotes when [minimax] returns is the one it
    denoted at the call: every move is made on a deep copy, whose rows are
    new objects. *)
Theorem minimax_leaves_board_unchanged :
  forall (fuel : nat) (board : Store.loc) (depth : Z) (is_white : bool)
         (alpha beta : num) (h : Store.heap) (b : Board),
    Store.read h board = Ok b ->
    Store.read (snd (StoreEngine.minimax fuel board depth is_white alpha beta h)) board
    = Ok b.
Proof.
  intros fuel board depth is_white alpha beta h b Hread.
  destruct (StoreEngine.minimax fuel board depth is_white alpha beta h) as [res h'] eqn:Hrun.
  apply minimax_keeps in Hrun. simpl. eapply read_weaken; eassumption.
Qed.

Lemma minimax_leaves_board_unchanged_witness :
  Store.read
    (snd (StoreEngine.minimax 3 initial_ref 2 true NegInf PosInf initial_store))
    initial_ref
  = Ok initialize_board.
Proof.
  apply (minimax_leaves_board_unchanged 3 initial_ref 2 true NegInf PosInf
           initial_store initialize_board).
  vm_compute. reflexivity.
Defined.

(** ** The store program computes what the program on values computes *)

Lemma norm_index_lt (len : nat) (i : Z) (n : nat) :
  norm_index len i = Some n -> (n < len)%nat.
Proof.
  unfold norm_index.
  destruct ((0 <=? i) && (i <? Z.of_nat len)) eqn:H1; [intros [= <-]; lia |].
  destruct ((- Z.of_nat len <=? i) && (i <? 0)) eqn:H2; [intros [= <-]; lia |].
  discriminate.
Qed.

Lemma getitem_Ok {A} (l : list A) (i : Z) (a : A) :
  getitem l i = Ok a <->
  exists n, norm_index (length l) i = Some n /\ l !! n = Some a.
Proof.
  unfold getitem. destruct (norm_index (length l) i) as [n |] eqn:Hn.
  - destruct (l !! n) as [a' |] eqn:Ha.
    + split; [intros [= <-]; eauto | intros (n' & [= <-] & Hl); congruence].
    + split; [discriminate | intros (n' & [= <-] & Hl); congruence].
  - split; [discriminate | intros (n' & Hn' & _); discriminate].
Qed.

Lemma getitem_fails {A} (l : list A) (i : Z) :
  norm_index (length l) i = None -> getitem l i = Raise IndexError.
Proof. unfold getitem. intros ->. reflexivity. Qed.

(** Subscripts of two lists of the same length succeed together. *)
Lemma getitem_Forall2 {A B} (R : A -> B -> Prop) (l : list A) (k : list B) (i : Z) :
  Forall2 R l k ->
  (exists n a b, norm_index (length l) i = Some n
                 /\ l !! n = Some a /\ k !! n = Some b /\ R a b
                 /\ getitem l i = Ok a /\ getitem k i = Ok b)
  \/ (getitem l i = Raise IndexError /\ getitem k i = Raise IndexError).
Proof.
  intros HR. pose proof (Forall2_length _ _ _ HR) as Hlen.
  destruct (norm_index (length l) i) as [n |] eqn:Hn.
  - left. pose proof (norm_index_lt _ _ _ Hn) as Hlt.
    destruct (lookup_lt_is_Some_2 l n Hlt) as [a Ha].
    destruct (Forall2_lookup_l _ _ _ _ _ HR Ha) as (b & Hb & Hab).
    exists n, a, b. repeat split; try assumption.
    + apply getitem_Ok. eauto.
    + apply getitem_Ok. rewrite <- Hlen. eauto.
  - right. split; apply getitem_fails; [| rewrite <- Hlen]; exact Hn.
Qed.

Lemma rep_weaken (h h' : Store.heap) (board : Store.loc) (b : Board) :
  h ⊆ h' -> rep h board b -> rep h' board b.
Proof.
  intros Hsub (rows & Hrows & Hnd & Hall).
  exists rows. split; [| split; [exact Hnd |]].
  - unfold Store.rows_at in *.
    destruct (h !! board) as [[c | rs] |] eqn:Hb; try discriminate.
    injection Hrows as ->. rewrite (lookup_weaken _ _ _ _ Hb Hsub). reflexivity.
  - eapply Forall2_impl; [exact Hall |].
    intros r cells Hr. eapply row_at_weaken; eassumption.
Qed.

Lemma read_rows_Forall2 (h : Store.heap) (rows : list Store.loc) (b acc : Board) :
  Forall2 (fun r cells => Store.row_at h r = Ok cells) rows b ->
  for_each rows (fun r acc => let* cells := Store.row_at h r in Ok (acc ++ [cells])) acc
  = Ok (acc ++ b).
Proof.
  intros Hall. revert acc.
  induction Hall as [| r cells rows b Hr _ IH]; intros acc; cbn [for_each].
  - rewrite app_nil_r. reflexivity.
  - rewrite Hr. cbn [bind]. rewrite IH, <- app_assoc. reflexivity.
Qed.

Lemma rep_read (h : Store.heap) (board : Store.loc) (b : Board) :
  rep h board b -> Store.read h board = Ok b.
Proof.
  intros (rows & Hrows & _ & Hall). unfold Store.read. rewrite Hrows. cbn [bind].
  apply (read_rows_Forall2 h rows b []). exact Hall.
Qed.

(** Copying the rows of a board whose rows are distinct objects. *)
Lemma copy_rows_spec (rows : list Store.loc) :
  forall (b : Board) (memo : gmap Store.loc Store.loc) (h : Store.heap),
    NoDup rows ->
    (forall r, r ∈ rows -> memo !! r = None) ->
    Forall2 (fun r cells => Store.row_at h r = Ok cells) rows b ->
    exists rows' h',
      StoreEngine.copy_rows rows memo h = (Ok rows', h')
      /\ h ⊆ h'
      /\ NoDup rows'
      /\ Forall (fun r' => h !! r' = None) rows'
      /\ Forall2 (fun r cells => Store.row_at h' r = Ok cells) rows' b.
Proof.
  induction rows as [| r rest IH]; intros b memo h Hnd Hmemo Hall;
    cbn [StoreEngine.copy_rows].
  - apply Forall2_nil_inv_l in Hall as ->.
    exists [], h. repeat split; try constructor. reflexivity.
  - apply Forall2_cons_inv_l in Hall as (cells & brest & Hr & Hall & ->).
    apply NoDup_cons in Hnd as [Hnotin Hnd].
    rewrite (Hmemo r) by left.
    unfold Store.sbind at 1, Store.load_row. rewrite Hr.
    unfold Store.sbind at 1.
    destruct (alloc_fresh (Store.ORow cells) h) as (l & -> & Hl).
    assert (Hsub1 : h ⊆ <[l := Store.ORow cells]> h) by (apply insert_subseteq; exact Hl).
    destruct (IH brest (<[r := l]> memo) (<[l := Store.ORow cells]> h) Hnd)
      as (rest' & h' & Hrun & Hsub & Hnd' & Hfresh & Hall').
    { intros r2 Hr2. rewrite lookup_insert_ne; [apply Hmemo; right; exact Hr2 |].
      intros ->. contradiction. }
    { eapply Forall2_impl; [exact Hall |].
      intros r2 c2 H2. eapply row_at_weaken; eassumption. }
    unfold Store.sbind. rewrite Hrun. cbn.
    exists (l :: rest'), h'. split; [reflexivity |].
    split; [etrans; eassumption |].
    rewrite Forall_forall in Hfresh.
    split; [| split].
    + apply NoDup_cons. split; [| exact Hnd'].
      intros Hin. specialize (Hfresh l Hin). rewrite lookup_insert_eq in Hfresh. discriminate.
    + constructor; [exact Hl |]. apply Forall_forall. intros r' Hr'.
      eapply lookup_weaken_None; [apply Hfresh; exact Hr' | exact Hsub1].
    + constructor; [| exact Hall'].
      unfold Store.row_at.
      rewrite (lookup_weaken (<[l := Store.ORow cells]> h) h' l (Store.ORow cells));
        [reflexivity | apply lookup_insert_eq | exact Hsub].
Qed.

(** [deepcopy] returns a new board that denotes the same nested list. *)
Lemma deepcopy_spec (h : Store.heap) (board : Store.loc) (b : Board) :
  rep h board b ->
  exists nb h',
    StoreEngine.deepcopy board h = (Ok nb, h')
    /\ h ⊆ h' /\ rep h' nb b /\ owns h h' nb.
Proof.
  intros (rows & Hrows & Hnd & Hall).
  destruct (copy_rows_spec rows b ∅ h Hnd) as (rows' & h1 & Hrun & Hsub & Hnd' & Hfresh & Hall');
    [intros; apply lookup_empty | exact Hall |].
  destruct (alloc_fresh (Store.OBoard rows') h1) as (l & Hal & Hl).
  assert (Hrun' : StoreEngine.deepcopy board h
                  = (Ok l, <[l := Store.OBoard rows']> h1)).
  { unfold StoreEngine.deepcopy. unfold Store.sbind at 1, Store.load_rows.
    rewrite Hrows. unfold Store.sbind. rewrite Hrun. exact Hal. }
  exists l, (<[l := Store.OBoard rows']> h1).
  split; [exact Hrun' |].
  destruct (deepcopy_keeps _ _ _ _ Hrun') as [Hk Hown].
  split; [exact Hk |]. split; [| apply Hown; reflexivity].
  exists rows'. split; [| split; [exact Hnd' |]].
  - unfold Store.rows_at. rewrite lookup_insert_eq. reflexivity.
  - eapply Forall2_impl; [exact Hall' |].
    intros r c Hr. eapply row_at_weaken; [| exact Hr]. apply insert_subseteq. exact Hl.
Qed.

Lemma get_cell_spec (h : Store.heap) (board : Store.loc) (b : Board) (x y : Z) :
  rep h board b ->
  StoreEngine.get_cell board x y h = (cell b x y, h).
Proof.
  intros (rows & Hrows & _ & Hall).
  unfold StoreEngine.get_cell, Store.sbind, Store.load_rows, Store.lift, Store.load_row, cell.
  rewrite Hrows.
  destruct (getitem_Forall2 _ rows b x Hall)
    as [(n & r & row & _ & _ & _ & Hr & -> & ->) | [-> ->]]; [| reflexivity].
  rewrite Hr. cbn [bind]. destruct (getitem row y); reflexivity.
Qed.

Lemma put_cell_spec (h : Store.heap) (board : Store.loc) (b : Board) (x y : Z) (v : ascii) :
  rep h board b ->
  exists h',
    StoreEngine.put_cell board x y v h = (omap (fun _ => tt) (set_cell b x y v), h')
    /\ forall b', set_cell b x y v = Ok b' -> rep h' board b'.
Proof.
  intros (rows & Hrows & Hnd & Hall).
  unfold StoreEngine.put_cell, Store.sbind, Store.load_rows, Store.lift, Store.load_row,
    Store.store, set_cell.
  rewrite Hrows.
  destruct (getitem_Forall2 _ rows b x Hall)
    as [(n & r & row & Hn & Hrn & Hbn & Hr & -> & ->) | [-> ->]].
  2:{ exists h. split; [reflexivity | discriminate]. }
  rewrite Hr. cbn [bind omap].
  destruct (setitem row y v) as [row' | e |] eqn:Hset; cbn [bind];
    try (exists h; split; [reflexivity | discriminate]).
  assert (Hsetb : setitem b x row' = Ok (<[n := row']> b)).
  { unfold setitem. rewrite <- (Forall2_length _ _ _ Hall), Hn. reflexivity. }
  rewrite Hsetb. cbn.
  exists (<[r := Store.ORow row']> h). split; [reflexivity |].
  intros b' [= <-].
  assert (Hne : r <> board).
  { intros ->. unfold Store.rows_at, Store.row_at in *.
    destruct (h !! board) as [[c | rs] |]; discriminate. }
  exists rows. split; [| split; [exact Hnd |]].
  - unfold Store.rows_at. rewrite lookup_insert_ne by exact Hne. exact Hrows.
  - apply Forall2_same_length_lookup. split.
    + rewrite length_insert. eapply Forall2_length. exact Hall.
    + intros i ri ci Hri Hci. unfold Store.row_at.
      destruct (decide (i = n)) as [-> | Hin].
      * assert (ri = r) by congruence. subst ri.
        rewrite lookup_insert_eq.
        rewrite list_lookup_insert_eq in Hci by (eapply lookup_lt_Some; exact Hbn).
        congruence.
      * rewrite list_lookup_insert_ne in Hci by congruence.
        assert (ri <> r).
        { intros ->. apply Hin. eapply NoDup_lookup; eassumption. }
        rewrite lookup_insert_ne by congruence.
        apply (Forall2_lookup_lr _ _ _ i ri ci Hall Hri Hci).
Qed.

Lemma make_move_spec (h : Store.heap) (board : Store.loc) (b : Board) (m : Move) :
  rep h board b ->
  exists h',
    StoreEngine.make_move board m h = (omap (fun _ => tt) (make_move b m), h')
    /\ forall b', make_move b m = Ok b' -> rep h' board b'.
Proof.
  intros Hrep. destruct m as [[x1 y1] [x2 y2]].
  unfold StoreEngine.make_move, make_move.
  unfold Store.sbind at 1. rewrite (get_cell_spec h board b x1 y1 Hrep).
  destruct (cell b x1 y1) as [piece | e |]; cbn [bind omap];
    try (exists h; split; [reflexivity | discriminate]).
  destruct (put_cell_spec h board b x2 y2 piece Hrep) as (h1 & Hrun1 & Hrep1).
  unfold Store.sbind. rewrite Hrun1.
  destruct (set_cell b x2 y2 piece) as [b1 | e |]; cbn [bind omap];
    try (exists h1; split; [reflexivity | discriminate]).
  destruct (put_cell_spec h1 board b1 x1 y1 "." (Hrep1 b1 eq_refl)) as (h2 & Hrun2 & Hrep2).
  exists h2. split; [exact Hrun2 | exact Hrep2].
Qed.

Section StoreRefines.
Variable child : Store.loc -> num -> num -> Store.M (num * option Move).
Variable pure_child : Board -> num -> num -> outcome (num * option Move).

Hypothesis child_keeps :
  forall b alpha beta h h' res, child b alpha beta h = (res, h') -> h ⊆ h'.
Hypothesis child_refines :
  forall nb b alpha beta h,
    rep h nb b -> fst (child nb alpha beta h) = pure_child b alpha beta.

Lemma max_loop_refines (board : Store.loc) (b : Board) (moves : list Move) :
  forall max_eval best_move alpha beta h,
    rep h board b ->
    fst (StoreEngine.max_loop child board moves max_eval best_move alpha beta h)
    = max_loop pure_child b moves max_eval best_move alpha beta.
Proof.
  induction moves as [| move rest IH]; intros max_eval best_move alpha beta h Hrep;
    cbn [StoreEngine.max_loop max_loop]; [reflexivity |].
  destruct (deepcopy_spec h board b Hrep) as (nb & h1 & Hcopy & Hsub1 & Hrep1 & Hown).
  unfold Store.sbind at 1. rewrite Hcopy.
  destruct (make_move_spec h1 nb b move Hrep1) as (h2 & Hmove & Hrep2).
  pose proof (make_move_keeps h h1 h2 nb move _ Hmove Hsub1 Hown) as Hsub2.
  unfold Store.sbind at 1. rewrite Hmove.
  destruct (make_move b move) as [b' | e |]; cbn [bind omap]; try reflexivity.
  specialize (Hrep2 b' eq_refl).
  pose proof (child_refines nb b' alpha beta h2 Hrep2) as Hres.
  unfold Store.sbind at 1.
  destruct (child nb alpha beta h2) as [res h3] eqn:Hchild. cbn [fst] in Hres.
  apply child_keeps in Hchild. rewrite <- Hres.
  destruct res as [[evaluation bm] | e |]; cbn [bind]; try reflexivity.
  assert (Hrep3 : rep h3 board b).
  { eapply rep_weaken; [| exact Hrep]. etrans; eassumption. }
  destruct (gt evaluation max_eval); destruct (le beta (max alpha evaluation));
    try reflexivity; apply IH; exact Hrep3.
Qed.

Lemma min_loop_refines (board : Store.loc) (b : Board) (moves : list Move) :
  forall min_eval best_move alpha beta h,
    rep h board b ->
    fst (StoreEngine.min_loop child board moves min_eval best_move alpha beta h)
    = min_loop pure_child b moves min_eval best_move alpha beta.
Proof.
  induction moves as [| move rest IH]; intros min_eval best_move alpha beta h Hrep;
    cbn [StoreEngine.min_loop min_loop]; [reflexivity |].
  destruct (deepcopy_spec h board b Hrep) as (nb & h1 & Hcopy & Hsub1 & Hrep1 & Hown).
  unfold Store.sbind at 1. rewrite Hcopy.
  destruct (make_move_spec h1 nb b move Hrep1) as (h2 & Hmove & Hrep2).
  pose proof (make_move_keeps h h1 h2 nb move _ Hmove Hsub1 Hown) as Hsub2.
  unfold Store.sbind at 1. rewrite Hmove.
  destruct (make_move b move) as [b' | e |]; cbn [bind omap]; try reflexivity.
  specialize (Hrep2 b' eq_refl).
  pose proof (child_refines nb b' alpha beta h2 Hrep2) as Hres.
  unfold Store.sbind at 1.
  destruct (child nb alpha beta h2) as [res h3] eqn:Hchild. cbn [fst] in Hres.
  apply child_keeps in Hchild. rewrite <- Hres.
  destruct res as [[evaluation bm] | e |]; cbn [bind]; try reflexivity.
  assert (Hrep3 : rep h3 board b).
  { eapply rep_weaken; [| exact Hrep]. etrans; eassumption. }
  destruct (lt evaluation min_eval); destruct (le (min beta evaluation) alpha);
    try reflexivity; apply IH; exact Hrep3.
Qed.
End StoreRefines.

(** The search on the store returns what the search on board values
    returns, for every board whose rows are distinct objects. *)
Lemma store_minimax_refines (fuel : nat) :
  forall (board : Store.loc) (b : Board) (depth : Z) (is_white : bool)
         (alpha beta : num) (h : Store.heap),
    rep h board b ->
    fst (StoreEngine.minimax fuel board depth is_white alpha beta h)
    = minimax fuel b depth is_white alpha beta.
Proof.
  induction fuel as [| fuel IH]; intros board b depth is_white alpha beta h Hrep;
    cbn [StoreEngine.minimax minimax]; [reflexivity |].
  pose proof (rep_read _ _ _ Hrep) as Hread.
  destruct (depth =? 0).
  - unfold Store.sbind. rewrite Hread. reflexivity.
  - destruct is_white; unfold Store.sbind at 1; rewrite Hread;
      unfold Store.sbind at 1, Store.lift;
      (destruct (generate_moves b _) as [moves | e |]; cbn [bind]; try reflexivity).
    + apply max_loop_refines; [| | exact Hrep].
      * intros b0 a0 be0 h0 h0' res0 Hc. eapply minimax_keeps. exact Hc.
      * intros nb b0 a0 be0 h0 Hr. apply IH. exact Hr.
    + apply min_loop_refines; [| | exact Hrep].
      * intros b0 a0 be0 h0 h0' res0 Hc. eapply minimax_keeps. exact Hc.
      * intros nb b0 a0 be0 h0 Hr. apply IH. exact Hr.
Qed.

Lemma initial_rep : rep initial_store initial_ref initialize_board.
Proof.
  eexists. split; [vm_compute; reflexivity |]. split.
  - refine (bool_decide_unpack (NoDup _) _). vm_compute. exact I.
  - repeat constructor.
Qed.

Lemma walk_reaches (board : Board) (x y : Z) (piece : ascii) (dx dy : Z) :
  wf_board board = true ->
  dx <> 0 \/ dy <> 0 ->
  forall (fuel : nat) (nx ny : Z) (moves : list Move),
    (1 <= fuel)%nat ->
    (is_in_bounds nx ny = true -> steps_left dx dy nx ny < Z.of_nat fuel) ->
    exists new,
      walk fuel board x y piece dx dy nx ny moves = Ok (moves ++ new)
      /\ forall m : Move,
          m ∈ new <->
          exists k, 0 <= k
                    /\ (single_step piece = true -> k = 0)
                    /\ m = ((x, y), (nx + k * dx, ny + k * dy))
                    /\ clear_path board nx ny dx dy k
                    /\ lands board piece (nx + k * dx) (ny + k * dy).
Proof.
  intros Hwf Hd fuel.
  induction fuel as [| fuel IH]; intros nx ny moves Hf Hsteps; [lia |].
  cbn [walk]. destruct (is_in_bounds nx ny) eqn:Hb.
  2:{ exists []. rewrite app_nil_r. split; [reflexivity |].
      intros m. rewrite elem_of_nil. split; [tauto |].
      intros (k & Hk & _ & _ & Hpath & (Hland & _)).
      destruct (Z.eq_dec k 0) as [-> | Hk0].
      - rewrite !Z.mul_0_l, !Z.add_0_r in Hland. congruence.
      - destruct (Hpath 0) as [H0 _]; [lia |].
        rewrite !Z.mul_0_l, !Z.add_0_r in H0. congruence. }
  specialize (Hsteps eq_refl).
  pose proof (steps_left_in_bounds dx dy nx ny Hb) as Hrange.
  destruct (wf_cell board nx ny Hwf Hb) as (c & Hc & _). rewrite Hc. cbn [bind].
  fold (enters piece c).
  destruct (Ascii.eqb_spec c ".") as [-> | Hne]; cbn [negb].
  - (* empty square: the move is added and the walk goes on *)
    assert (He : enters piece "." = true) by reflexivity. rewrite He.
    destruct (single_step piece) eqn:Hs.
    + exists [((x, y), (nx, ny))]. split; [reflexivity |].
      intros m. rewrite list_elem_of_singleton. split.
      * intros ->. exists 0. rewrite !Z.mul_0_l, !Z.add_0_r.
        split; [lia |]. split; [auto |]. split; [reflexivity |].
        split; [intros j Hj; lia |]. split; [exact Hb |]. eauto.
      * intros (k & _ & Hk & -> & _). rewrite (Hk eq_refl).
        rewrite !Z.mul_0_l, !Z.add_0_r. reflexivity.
    + destruct (IH (nx + dx) (ny + dy) (moves ++ [((x, y), (nx, ny))]))
        as (new & Hrun & Hnew).
      * lia.
      * intros _. pose proof (steps_left_decreases dx dy nx ny Hd). lia.
      * exists (((x, y), (nx, ny)) :: new).
        split; [rewrite Hrun, <- app_assoc; reflexivity |].
        intros m. rewrite elem_of_cons, Hnew. split.
        -- intros [-> | (k & Hk & Hsk & -> & Hpath & Hland)].
           ++ exists 0. rewrite !Z.mul_0_l, !Z.add_0_r.
              split; [lia |]. split; [discriminate |]. split; [reflexivity |].
              split; [intros j Hj; lia |]. split; [exact Hb |]. eauto.
           ++ exists (k + 1). split; [lia |]. split; [discriminate |].
              replace (nx + (k + 1) * dx) with (nx + dx + k * dx) by lia.
              replace (ny + (k + 1) * dy) with (ny + dy + k * dy) by lia.
              split; [reflexivity |]. split; [| exact Hland].
              intros j Hj. destruct (Z.eq_dec j 0) as [-> | Hj0].
              ** rewrite !Z.mul_0_l, !Z.add_0_r. auto.
              ** destruct (Hpath (j - 1)) as [H1 H2]; [lia |].
                 replace (nx + dx + (j - 1) * dx) with (nx + j * dx) in * by lia.
                 replace (ny + dy + (j - 1) * dy) with (ny + j * dy) in * by lia.
                 auto.
        -- intros (k & Hk & _ & -> & Hpath & Hland).
           destruct (Z.eq_dec k 0) as [-> | Hk0].
           ++ left. rewrite !Z.mul_0_l, !Z.add_0_r. reflexivity.
           ++ right. exists (k - 1). split; [lia |]. split; [discriminate |].
              replace (nx + dx + (k - 1) * dx) with (nx + k * dx) by lia.
              replace (ny + dy + (k - 1) * dy) with (ny + k * dy) by lia.
              split; [reflexivity |]. split; [| exact Hland].
              intros j Hj. destruct (Hpath (j + 1)) as [H1 H2]; [lia |].
              replace (nx + (j + 1) * dx) with (nx + dx + j * dx) in * by lia.
              replace (ny + (j + 1) * dy) with (ny + dy + j * dy) in * by lia.
              auto.
  - (* occupied square: the walk stops here *)
    exists (if enters piece c then [((x, y), (nx, ny))] else []).
    split; [destruct (enters piece c); rewrite ?app_nil_r; reflexivity |].
    intros m. split.
    + intros Hm. destruct (enters piece c) eqn:He; [| apply elem_of_nil in Hm; tauto].
      apply list_elem_of_singleton in Hm as ->.
      exists 0. rewrite !Z.mul_0_l, !Z.add_0_r.
      split; [lia |]. split; [auto |]. split; [reflexivity |].
      split; [intros j Hj; lia |]. split; [exact Hb |].
      exists c. split; [exact Hc |]. apply enters_spec. exact He.
    + intros (k & Hk & _ & -> & Hpath & (_ & t & Ht & Hent)).
      destruct (Z.eq_dec k 0) as [-> | Hk0].
      * rewrite !Z.mul_0_l, !Z.add_0_r in *.
        assert (t = c) by congruence. subst t.
        apply enters_spec in Hent. rewrite Hent. left.
      * destruct (Hpath 0) as [_ H0]; [lia |].
        rewrite !Z.mul_0_l, !Z.add_0_r in H0. congruence.
Qed.

Lemma clear_path_between (board : Board) (x y dx dy k : Z) :
  clear_path board (x + dx) (y + dy) dx dy (k - 1) <-> empty_between board x y dx dy k.
Proof.
  unfold clear_path, empty_between. split; intros H j Hj.
  - destruct (H (j - 1)) as [H1 H2]; [lia |].
    replace (x + dx + (j - 1) * dx) with (x + j * dx) in * by lia.
    replace (y + dy + (j - 1) * dy) with (y + j * dy) in * by lia. auto.
  - destruct (H (j + 1)) as [H1 H2]; [lia |].
    replace (x + (j + 1) * dx) with (x + dx + j * dx) in * by lia.
    replace (y + (j + 1) * dy) with (y + dy + j * dy) in * by lia. auto.
Qed.

Lemma directions_upper_key (piece : ascii) (dirs : list (Z * Z)) :
  dict_get directions piece = Some dirs -> dict_mem directions (upper piece) = true.
Proof.
  destruct piece as [[] [] [] [] [] [] [] []]; vm_compute; congruence.
Qed.

Lemma walk_dirs_reaches (board : Board) (x y : Z) (piece : ascii) :
  wf_board board = true ->
  forall (dirs : list (Z * Z)) (acc : list Move),
    Forall (fun d => fst d <> 0 \/ snd d <> 0) dirs ->
    exists moves,
      for_each dirs
        (fun '(dx, dy) moves =>
           walk walk_fuel board x y piece dx dy (x + dx) (y + dy) moves) acc
      = Ok moves
      /\ forall m, m ∈ moves <-> m ∈ acc \/ slides board piece dirs x y m.
Proof.
  intros Hwf dirs. induction dirs as [| [dx dy] dirs IH]; intros acc Hnz; cbn [for_each].
  - exists acc. split; [reflexivity |]. intros m. split; [auto |].
    intros [H | (dx & dy & k & Hin & _)]; [exact H |]. apply elem_of_nil in Hin. tauto.
  - apply Forall_cons in Hnz as [Hd Hnz]. cbn [fst snd] in Hd.
    destruct (walk_reaches board x y piece dx dy Hwf Hd walk_fuel (x + dx) (y + dy) acc)
      as (new & Hrun & Hnew).
    { unfold walk_fuel. lia. }
    { intros Hb. pose proof (steps_left_in_bounds dx dy _ _ Hb). unfold walk_fuel. lia. }
    rewrite Hrun. cbn [bind].
    destruct (IH (acc ++ new) Hnz) as (moves & Hrest & Hmoves).
    exists moves. split; [exact Hrest |].
    intros m. rewrite Hmoves, elem_of_app, Hnew. split.
    + intros [[Hacc | (k & Hk & Hs & -> & Hpath & Hland)] | (dx' & dy' & k & Hin & Hrest')].
      * left. exact Hacc.
      * right. exists dx, dy, (k + 1). split; [left |]. split; [lia |].
        split; [intros Hss; rewrite (Hs Hss); reflexivity |].
        replace (x + (k + 1) * dx) with (x + dx + k * dx) by lia.
        replace (y + (k + 1) * dy) with (y + dy + k * dy) by lia.
        split; [reflexivity |]. split; [| exact Hland].
        apply clear_path_between. replace (k + 1 - 1) with k by lia. exact Hpath.
      * right. exists dx', dy', k. split; [right; exact Hin | exact Hrest'].
    + intros [Hacc | (dx' & dy' & k & Hin & Hk & Hs & -> & Hpath & Hland)]; [auto |].
      apply elem_of_cons in Hin as [[= -> ->] | Hin].
      * left. right. exists (k - 1). split; [lia |].
        split; [intros Hss; rewrite (Hs Hss); reflexivity |].
        replace (x + dx + (k - 1) * dx) with (x + k * dx) by lia.
        replace (y + dy + (k - 1) * dy) with (y + k * dy) by lia.
        split; [reflexivity |]. split; [| exact Hland].
        apply clear_path_between. exact Hpath.
      * right. exists dx', dy', k. auto 10.
Qed.

(** The moves of one piece on a well-formed board. *)
Lemma get_piece_moves_slides (board : Board) (x y : Z) (piece : ascii)
    (dirs : list (Z * Z)) :
  wf_board board = true ->
  dict_get directions piece = Some dirs ->
  exists moves,
    get_piece_moves board x y piece = Ok moves
    /\ forall m, m ∈ moves <-> slides board piece dirs x y m.
Proof.
  intros Hwf Hdirs. unfold get_piece_moves.
  rewrite (directions_upper_key piece dirs Hdirs), Hdirs.
  destruct (walk_dirs_reaches board x y piece Hwf dirs [] (directions_nonzero _ _ Hdirs))
    as (moves & Hrun & Hmoves).
  exists moves. split; [exact Hrun |].
  intros m. rewrite Hmoves. split; [| auto].
  intros [H | H]; [apply elem_of_nil in H; tauto | exact H].
Qed.

Lemma knight_dirs_spec (dx dy : Z) :
  (dx, dy) ∈ knight_dirs <->
  (Z.abs dx = 1 /\ Z.abs dy = 2) \/ (Z.abs dx = 2 /\ Z.abs dy = 1).
Proof.
  unfold knight_dirs. rewrite !elem_of_cons, elem_of_nil. split.
  - intros H. repeat (destruct H as [[= -> ->] | H]; [lia |]). tauto.
  - intros H.
    assert (Hc : (dx = -2 /\ dy = -1) \/ (dx = -2 /\ dy = 1) \/ (dx = -1 /\ dy = -2)
                 \/ (dx = -1 /\ dy = 2) \/ (dx = 2 /\ dy = -1) \/ (dx = 2 /\ dy = 1)
                 \/ (dx = 1 /\ dy = -2) \/ (dx = 1 /\ dy = 2)) by lia.
    repeat (destruct Hc as [[-> ->] | Hc]; [tauto |]). destruct Hc as [-> ->]. tauto.
Qed.

Lemma royal_dirs_spec (dx dy : Z) :
  (dx, dy) ∈ royal_dirs <-> Z.max (Z.abs dx) (Z.abs dy) = 1.
Proof.
  unfold royal_dirs. rewrite !elem_of_cons, elem_of_nil. split.
  - intros H. repeat (destruct H as [[= -> ->] | H]; [lia |]). tauto.
  - intros H.
    assert (Hc : (dx = -1 /\ dy = 0) \/ (dx = 1 /\ dy = 0) \/ (dx = 0 /\ dy = -1)
                 \/ (dx = 0 /\ dy = 1) \/ (dx = -1 /\ dy = -1) \/ (dx = -1 /\ dy = 1)
                 \/ (dx = 1 /\ dy = -1) \/ (dx = 1 /\ dy = 1)) by lia.
    repeat (destruct Hc as [[-> ->] | Hc]; [tauto |]). destruct Hc as [-> ->]. tauto.
Qed.

Lemma rook_dirs_spec (dx dy : Z) :
  (dx, dy) ∈ rook_dirs <-> Z.abs dx + Z.abs dy = 1.
Proof.
  unfold rook_dirs. rewrite !elem_of_cons, elem_of_nil. split.
  - intros H. repeat (destruct H as [[= -> ->] | H]; [lia |]). tauto.
  - intros H.
    assert (Hc : (dx = -1 /\ dy = 0) \/ (dx = 1 /\ dy = 0) \/ (dx = 0 /\ dy = -1)
                 \/ (dx = 0 /\ dy = 1)) by lia.
    repeat (destruct Hc as [[-> ->] | Hc]; [tauto |]). destruct Hc as [-> ->]. tauto.
Qed.

Lemma bishop_dirs_spec (dx dy : Z) :
  (dx, dy) ∈ bishop_dirs <-> Z.abs dx = 1 /\ Z.abs dy = 1.
Proof.
  unfold bishop_dirs. rewrite !elem_of_cons, elem_of_nil. split.
  - intros H. repeat (destruct H as [[= -> ->] | H]; [lia |]). tauto.
  - intros H.
    assert (Hc : (dx = -1 /\ dy = -1) \/ (dx = -1 /\ dy = 1) \/ (dx = 1 /\ dy = -1)
                 \/ (dx = 1 /\ dy = 1)) by lia.
    repeat (destruct Hc as [[-> ->] | Hc]; [tauto |]). destruct Hc as [-> ->]. tauto.
Qed.

(** X1: on a well-formed board the moves generated for a knight are exactly
    the jumps by one row and two columns, or two rows and one column, whose
    destination is on the board and is empty or holds a piece of the other
    letter case. *)
Theorem knight_moves_generated :
  forall (board : Board) (x y : Z) (piece : ascii),
    wf_board board = true ->
    piece = "N" \/ piece = "n" ->
    exists moves,
      get_piece_moves board x y piece = Ok moves
      /\ forall m : Move,
          m ∈ moves <->
          exists dx dy,
            ((Z.abs dx = 1 /\ Z.abs dy = 2) \/ (Z.abs dx = 2 /\ Z.abs dy = 1))
            /\ m = ((x, y), (x + dx, y + dy))
            /\ lands board piece (x + dx) (y + dy).
Proof.
  intros board x y piece Hwf Hp.
  destruct (get_piece_moves_slides board x y piece knight_dirs Hwf) as (moves & Hrun & Hmoves).
  { destruct Hp as [-> | ->]; reflexivity. }
  assert (Hs : single_step piece = true) by (destruct Hp as [-> | ->]; reflexivity).
  exists moves. split; [exact Hrun |].
  intros m. rewrite Hmoves. unfold slides. split.
  - intros (dx & dy & k & Hin & _ & Hk & -> & _ & Hland).
    rewrite (Hk Hs) in *. rewrite !Z.mul_1_l in *.
    exists dx, dy. split; [apply knight_dirs_spec; exact Hin | auto].
  - intros (dx & dy & Hd & -> & Hland).
    exists dx, dy, 1. rewrite !Z.mul_1_l.
    split; [apply knight_dirs_spec; exact Hd |].
    split; [lia |]. split; [auto |]. split; [reflexivity |].
    split; [intros j Hj; lia | exact Hland].
Qed.

Lemma knight_moves_generated_witness :
  exists moves,
    get_piece_moves initialize_board 7 1 "N" = Ok moves
    /\ forall m : Move,
        m ∈ moves <->
        exists dx dy,
          ((Z.abs dx = 1 /\ Z.abs dy = 2) \/ (Z.abs dx = 2 /\ Z.abs dy = 1))
          /\ m = ((7, 1), (7 + dx, 1 + dy))
          /\ lands initialize_board "N" (7 + dx) (1 + dy).
Proof.
  apply (knight_moves_generated initialize_board 7 1 "N"); [reflexivity | left; reflexivity].
Defined.

(** X2: on a well-formed board the moves generated for a king are exactly
    the steps to the adjacent squares (the eight neighbours) that are on the
    board and are empty or hold a piece of the other letter case. *)
Theorem king_moves_generated :
  forall (board : Board) (x y : Z) (piece : ascii),
    wf_board board = true ->
    piece = "K" \/ piece = "k" ->
    exists moves,
      get_piece_moves board x y piece = Ok moves
      /\ forall m : Move,
          m ∈ moves <->
          exists dx dy,
            Z.max (Z.abs dx) (Z.abs dy) = 1
            /\ m = ((x, y), (x + dx, y + dy))
            /\ lands board piece (x + dx) (y + dy).
Proof.
  intros board x y piece Hwf Hp.
  destruct (get_piece_moves_slides board x y piece royal_dirs Hwf) as (moves & Hrun & Hmoves).
  { destruct Hp as [-> | ->]; reflexivity. }
  assert (Hs : single_step piece = true) by (destruct Hp as [-> | ->]; reflexivity).
  exists moves. split; [exact Hrun |].
  intros m. rewrite Hmoves. unfold slides. split.
  - intros (dx & dy & k & Hin & _ & Hk & -> & _ & Hland).
    rewrite (Hk Hs) in *. rewrite !Z.mul_1_l in *.
    exists dx, dy. split; [apply royal_dirs_spec; exact Hin | auto].
  - intros (dx & dy & Hd & -> & Hland).
    exists dx, dy, 1. rewrite !Z.mul_1_l.
    split; [apply royal_dirs_spec; exact Hd |].
    split; [lia |]. split; [auto |]. split; [reflexivity |].
    split; [intros j Hj; lia | exact Hland].
Qed.

Lemma king_moves_generated_witness :
  exists moves,
    get_piece_moves cornered_king_board 7 0 "K" = Ok moves
    /\ forall m : Move,
        m ∈ moves <->
        exists dx dy,
          Z.max (Z.abs dx) (Z.abs dy) = 1
          /\ m = ((7, 0), (7 + dx, 0 + dy))
          /\ lands cornered_king_board "K" (7 + dx) (0 + dy).
Proof.
  apply (king_moves_generated cornered_king_board 7 0 "K"); [reflexivity | left; reflexivity].
Defined.

(** X3: on a well-formed board the moves generated for a rook, bishop or
    queen are exactly the moves by k >= 1 steps in one of the piece's
    directions such that every square passed on the way is on the board and
    empty, and the destination is on the board and is empty or holds a piece
    of the other letter case: the walk goes through empty squares, takes an
    opposing piece and stops there, and stops before a piece of its own
    case. *)
Theorem sliding_moves_generated :
  forall (board : Board) (x y : Z) (piece : ascii),
    wf_board board = true ->
    In piece ["R"; "r"; "B"; "b"; "Q"; "q"] ->
    exists moves,
      get_piece_moves board x y piece = Ok moves
      /\ forall m : Move,
          m ∈ moves <->
          exists dx dy k,
            slide_direction piece dx dy
            /\ 1 <= k
            /\ m = ((x, y), (x + k * dx, y + k * dy))
            /\ empty_between board x y dx dy k
            /\ lands board piece (x + k * dx) (y + k * dy).
Proof.
  intros board x y piece Hwf Hp.
  assert (Hdirs : exists dirs,
             dict_get directions piece = Some dirs
             /\ single_step piece = false
             /\ forall dx dy, (dx, dy) ∈ dirs <-> slide_direction piece dx dy).
  { unfold slide_direction. simpl in Hp.
    destruct Hp as [<- | [<- | [<- | [<- | [<- | [<- | []]]]]]].
    - exists rook_dirs. repeat split; try reflexivity.
      + intros H. left. split; [reflexivity | apply rook_dirs_spec; exact H].
      + intros [[_ H] | [[H _] | [H _]]]; [apply rook_dirs_spec; exact H | discriminate H ..].
    - exists rook_dirs. repeat split; try reflexivity.
      + intros H. left. split; [reflexivity | apply rook_dirs_spec; exact H].
      + intros [[_ H] | [[H _] | [H _]]]; [apply rook_dirs_spec; exact H | discriminate H ..].
    - exists bishop_dirs. repeat split; try reflexivity.
      + intros H. right. left. split; [reflexivity | apply bishop_dirs_spec; exact H].
      + intros [[H _] | [[_ H] | [H _]]]; [discriminate H | apply bishop_dirs_spec; exact H
                                          | discriminate H].
    - exists bishop_dirs. repeat split; try reflexivity.
      + intros H. right. left. split; [reflexivity | apply bishop_dirs_spec; exact H].
      + intros [[H _] | [[_ H] | [H _]]]; [discriminate H | apply bishop_dirs_spec; exact H
                                          | discriminate H].
    - exists royal_dirs. repeat split; try reflexivity.
      + intros H. right. right. split; [reflexivity | apply royal_dirs_spec; exact H].
      + intros [[H _] | [[H _] | [_ H]]]; [discriminate H .. | apply royal_dirs_spec; exact H].
    - exists royal_dirs. repeat split; try reflexivity.
      + intros H. right. right. split; [reflexivity | apply royal_dirs_spec; exact H].
      + intros [[H _] | [[H _] | [_ H]]]; [discriminate H .. | apply royal_dirs_spec; exact H]. }
  destruct Hdirs as (dirs & Hget & Hs & Hdir).
  destruct (get_piece_moves_slides board x y piece dirs Hwf Hget) as (moves & Hrun & Hmoves).
  exists moves. split; [exact Hrun |].
  intros m. rewrite Hmoves. unfold slides. split.
  - intros (dx & dy & k & Hin & Hk & _ & Hrest).
    exists dx, dy, k. split; [apply Hdir; exact Hin | auto].
  - intros (dx & dy & k & Hd & Hk & Hrest).
    exists dx, dy, k. split; [apply Hdir; exact Hd |].
    split; [exact Hk |]. split; [congruence | exact Hrest].
Qed.

Lemma sliding_moves_generated_witness :
  exists moves,
    get_piece_moves cornered_king_board 0 1 "r" = Ok moves
    /\ forall m : Move,
        m ∈ moves <->
        exists dx dy k,
          slide_direction "r" dx dy
          /\ 1 <= k
          /\ m = ((0, 1), (0 + k * dx, 1 + k * dy))
          /\ empty_between cornered_king_board 0 1 dx dy k
          /\ lands cornered_king_board "r" (0 + k * dx) (1 + k * dy).
Proof.
  apply (sliding_moves_generated cornered_king_board 0 1 "r"); [reflexivity |].
  simpl. tauto.
Defined.

Lemma for_each_collect {A} (l : list A) (body : A -> list Move -> outcome (list Move))
    (Q : A -> Move -> Prop) :
  (forall x acc, x ∈ l ->
                 exists res, body x acc = Ok res /\ forall m, m ∈ res <-> m ∈ acc \/ Q x m) ->
  forall acc,
    exists res, for_each l body acc = Ok res
                /\ forall m, m ∈ res <-> m ∈ acc \/ exists x, x ∈ l /\ Q x m.
Proof.
  induction l as [| x l IH]; intros Hbody acc; cbn [for_each].
  - exists acc. split; [reflexivity |]. intros m. split; [auto |].
    intros [H | (x & Hx & _)]; [exact H | apply elem_of_nil in Hx; tauto].
  - destruct (Hbody x acc) as (res1 & -> & Hres1); [left |]. cbn [bind].
    destruct (IH (fun x' acc' Hx' => Hbody x' acc' (list_elem_of_further _ _ _ Hx')) res1)
      as (res & Hrun & Hres).
    exists res. split; [exact Hrun |].
    intros m. rewrite Hres, Hres1. split.
    + intros [[H | H] | (x' & Hx' & H)]; [auto | right; exists x; split; [left | exact H] |].
      right. exists x'. split; [right; exact Hx' | exact H].
    + intros [H | (x' & Hx' & H)]; [auto |].
      apply elem_of_cons in Hx' as [-> | Hx']; [auto |]. right. eauto.
Qed.

Lemma elem_of_range_iff (n : nat) (x : Z) : x ∈ range n <-> 0 <= x < Z.of_nat n.
Proof.
  split; [apply elem_of_range |]. intros Hx.
  unfold range. apply list_elem_of_In, in_map_iff.
  exists (Z.to_nat x). split; [lia |]. apply in_seq. lia.
Qed.

(** The moves generated for a side on a well-formed board. *)
Lemma generate_moves_slides (board : Board) (is_white : bool) :
  wf_board board = true ->
  exists moves,
    generate_moves board is_white = Ok moves
    /\ forall m : Move,
        m ∈ moves <->
        exists x y piece dirs,
          is_in_bounds x y = true
          /\ cell board x y = Ok piece
          /\ own_piece is_white piece = true
          /\ dict_get directions piece = Some dirs
          /\ slides board piece dirs x y m.
Proof.
  intros Hwf. unfold generate_moves.
  destruct (for_each_collect (range 8)
              (fun x moves =>
                 for_each (range 8)
                   (fun y moves =>
                      let* piece := cell board x y in
                      if (is_white && isupper piece) || (negb is_white && islower piece)
                      then let* new := get_piece_moves board x y piece in Ok (moves ++ new)
                      else Ok moves) moves)
              (fun x m => exists y, y ∈ range 8
                                    /\ exists piece dirs,
                                        cell board x y = Ok piece
                                        /\ own_piece is_white piece = true
                                        /\ dict_get directions piece = Some dirs
                                        /\ slides board piece dirs x y m))
    with (acc := @nil Move) as (moves & Hrun & Hmoves).
  { intros x acc Hx. apply elem_of_range in Hx.
    apply for_each_collect. intros y acc' Hy. apply elem_of_range in Hy.
    assert (Hb : is_in_bounds x y = true) by (apply in_bounds_intro; lia).
    destruct (wf_cell board x y Hwf Hb) as (piece & Hc & _). rewrite Hc. cbn [bind].
    fold (own_piece is_white piece).
    destruct (own_piece is_white piece) eqn:Hown.
    - destruct (dict_get directions piece) as [dirs |] eqn:Hdirs.
      + destruct (get_piece_moves_slides board x y piece dirs Hwf Hdirs)
          as (new & -> & Hnew). cbn [bind].
        exists (acc' ++ new). split; [reflexivity |].
        intros m. rewrite elem_of_app, Hnew. split.
        * intros [H | H]; [auto |]. right. exists piece, dirs. auto.
        * intros [H | (p & d & Hp & _ & Hd & H)]; [auto |].
          right. congruence.
      + assert (Hmem : dict_mem directions (upper piece) = false).
        { destruct (dict_mem directions (upper piece)) eqn:Hm; [| reflexivity].
          apply directions_key in Hm. congruence. }
        unfold get_piece_moves. rewrite Hmem. cbn [bind].
        exists (acc' ++ []). split; [reflexivity |].
        intros m. rewrite app_nil_r. split; [auto |].
        intros [H | (p & d & Hp & _ & Hd & _)]; [exact H | congruence].
    - exists acc'. split; [reflexivity |]. intros m. split; [auto |].
      intros [H | (p & d & Hp & Ho & _)]; [exact H | congruence]. }
  exists moves. split; [exact Hrun |].
  intros m. rewrite Hmoves. split.
  - intros [H | (x & Hx & y & Hy & piece & dirs & H)]; [apply elem_of_nil in H; tauto |].
    apply elem_of_range in Hx, Hy.
    exists x, y, piece, dirs. split; [apply in_bounds_intro; lia | exact H].
  - intros (x & y & piece & dirs & Hb & H). apply in_bounds_inv in Hb as [Hx Hy].
    right. exists x. split; [apply elem_of_range_iff; lia |].
    exists y. split; [apply elem_of_range_iff; lia |]. eauto.
Qed.

(** X4: on a well-formed board [generate_moves] returns exactly the
    pseudo-legal moves of the side: a move is generated if and only if its
    from-square is on the board and holds a chess letter of the side's case
    (upper case for White, lower case for Black), and the move follows that
    piece's movement rule on the board. *)
Theorem generate_moves_pseudo_legal :
  forall (board : Board) (is_white : bool),
    wf_board board = true ->
    exists moves,
      generate_moves board is_white = Ok moves
      /\ forall m : Move,
          m ∈ moves <->
          exists x y piece dirs,
            is_in_bounds x y = true
            /\ cell board x y = Ok piece
            /\ own_piece is_white piece = true
            /\ dict_get directions piece = Some dirs
            /\ slides board piece dirs x y m.
Proof. exact generate_moves_slides. Qed.

Lemma generate_moves_pseudo_legal_witness :
  exists moves,
    generate_moves initialize_board true = Ok moves
    /\ forall m : Move,
        m ∈ moves <->
        exists x y piece dirs,
          is_in_bounds x y = true
          /\ cell initialize_board x y = Ok piece
          /\ own_piece true piece = true
          /\ dict_get directions piece = Some dirs
          /\ slides initialize_board piece dirs x y m.
Proof.
  apply (generate_moves_pseudo_legal initialize_board true). reflexivity.
Defined.

Lemma isupper_not_islower (c : ascii) : isupper c = true -> islower c = false.
Proof.
  unfold isupper, islower. cbv zeta. generalize (N_of_ascii c). intros n H.
  apply andb_prop in H as [_ H]. apply N.leb_le in H.
  apply andb_false_intro1. apply N.leb_gt. lia.
Qed.

Lemma own_piece_not_landed (is_white : bool) (piece target : ascii) :
  own_piece is_white piece = true ->
  target = "." \/ islower target <> islower piece ->
  own_piece is_white target = false.
Proof.
  unfold own_piece. intros Hown Ht.
  destruct is_white; cbn [andb negb orb] in *; rewrite ?orb_false_r in *.
  - pose proof (isupper_not_islower piece Hown) as Hl.
    destruct Ht as [-> | Ht]; [reflexivity |].
    destruct (isupper target) eqn:Hu; [| reflexivity].
    apply isupper_not_islower in Hu. congruence.
  - destruct Ht as [-> | Ht]; [reflexivity |].
    destruct (islower target); congruence.
Qed.

(** X5: on a well-formed board no generated move stays in place, every
    generated move starts from a square holding a piece of the side to move
    and ends on a square of the board that does not hold a piece of that
    side. *)
Theorem generate_moves_safe :
  forall (board : Board) (is_white : bool) (moves : list Move) (m : Move),
    wf_board board = true ->
    generate_moves board is_white = Ok moves ->
    m ∈ moves ->
    fst m <> snd m
    /\ on_board m = true
    /\ (exists piece, cell board (fst (fst m)) (snd (fst m)) = Ok piece
                      /\ own_piece is_white piece = true)
    /\ (exists target, cell board (fst (snd m)) (snd (snd m)) = Ok target
                       /\ own_piece is_white target = false).
Proof.
  intros board is_white moves m Hwf Hgen Hm.
  destruct (generate_moves_slides board is_white Hwf) as (moves' & Hgen' & Hspec).
  assert (moves' = moves) by congruence. subst moves'.
  apply Hspec in Hm as (x & y & piece & dirs & Hb & Hc & Hown & Hdirs & Hsl).
  destruct Hsl as (dx & dy & k & Hin & Hk & _ & -> & _ & (Hland & target & Ht & Hent)).
  cbn [fst snd].
  pose proof (directions_nonzero piece dirs Hdirs) as Hnz. rewrite Forall_forall in Hnz.
  specialize (Hnz (dx, dy) Hin). cbn [fst snd] in Hnz.
  split; [| split; [| split]].
  - intros [= Hx Hy].
    assert (Hx0 : k * dx = 0) by lia. assert (Hy0 : k * dy = 0) by lia.
    apply Z.mul_eq_0 in Hx0, Hy0. lia.
  - unfold on_board. cbn [fst snd]. rewrite Hb, Hland. reflexivity.
  - eauto.
  - exists target. split; [exact Ht |]. eapply own_piece_not_landed; eassumption.
Qed.

Lemma generate_moves_safe_witness :
  (6, 0) <> (5, 0)
  /\ on_board ((6, 0), (5, 0)) = true
  /\ (exists piece, cell initialize_board 6 0 = Ok piece /\ own_piece true piece = true)
  /\ (exists target, cell initialize_board 5 0 = Ok target
                     /\ own_piece true target = false).
Proof.
  eapply (generate_moves_safe initialize_board true _ ((6, 0), (5, 0)));
    [reflexivity | vm_compute; reflexivity | left].
Defined.

Lemma bind_raises {A B} (m : outcome A) (k : A -> outcome B) (e : exn) :
  bind m k = Raise e -> m = Raise e \/ exists a, m = Ok a /\ k a = Raise e.
Proof.
  destruct m as [a | e' |]; simpl; intros H; [right; eauto | left; congruence | discriminate].
Qed.

Lemma getitem_raises {A} (l : list A) (i : Z) (e : exn) :
  getitem l i = Raise e -> e = IndexError.
Proof.
  unfold getitem. destruct (norm_index _ _) as [n |]; [destruct (l !! n) |]; congruence.
Qed.

Lemma cell_raises (board : Board) (x y : Z) (e : exn) :
  cell board x y = Raise e -> e = IndexError.
Proof.
  unfold cell. intros H. apply bind_raises in H as [H | (row & _ & H)];
    eapply getitem_raises; exact H.
Qed.

Lemma for_each_raises {A S} (l : list A) (body : A -> S -> outcome S) (s : S) (e : exn) :
  (forall x s e, x ∈ l -> body x s = Raise e -> e = IndexError) ->
  for_each l body s = Raise e -> e = IndexError.
Proof.
  revert s. induction l as [| x l IH]; intros s Hbody; cbn [for_each]; [discriminate |].
  intros H. apply bind_raises in H as [H | (s' & _ & H)].
  - eapply Hbody; [left | exact H].
  - eapply IH; [| exact H]. intros x' s'' e' Hx'. apply Hbody. right. exact Hx'.
Qed.

Lemma walk_raises (fuel : nat) (board : Board) (x y : Z) (piece : ascii)
    (dx dy nx ny : Z) (moves : list Move) (e : exn) :
  walk fuel board x y piece dx dy nx ny moves = Raise e -> e = IndexError.
Proof.
  revert nx ny moves. induction fuel as [| fuel IH]; intros nx ny moves; cbn [walk];
    [discriminate |].
  destruct (is_in_bounds nx ny); [| discriminate].
  intros H. apply bind_raises in H as [H | (target & _ & H)];
    [eapply cell_raises; exact H |].
  destruct (negb (Ascii.eqb target ".")); [discriminate |].
  destruct (single_step piece); [discriminate |].
  eapply IH. exact H.
Qed.

Lemma get_piece_moves_raises (board : Board) (x y : Z) (piece : ascii) (e : exn) :
  get_piece_moves board x y piece = Raise e -> e = IndexError.
Proof.
  unfold get_piece_moves.
  destruct (dict_mem directions (upper piece)) eqn:Hmem; [| discriminate].
  destruct (dict_get directions piece) as [dirs |] eqn:Hdirs.
  - apply for_each_raises. intros [dx dy] s e' _. apply walk_raises.
  - apply directions_key in Hmem. congruence.
Qed.

(** A loop one of whose rounds always raises [IndexError], and whose rounds
    raise nothing else, raises [IndexError]. *)
Lemma for_each_must_raise {A S} (l : list A) (body : A -> S -> outcome S) (x0 : A) :
  (forall x s, body x s <> OutOfFuel) ->
  (forall x s e, body x s = Raise e -> e = IndexError) ->
  x0 ∈ l ->
  (forall s, body x0 s = Raise IndexError) ->
  forall s, for_each l body s = Raise IndexError.
Proof.
  intros Hfuel Hexn Hin Hx0. induction l as [| x l IH]; intros s; cbn [for_each].
  - apply elem_of_nil in Hin. tauto.
  - destruct (body x s) as [s' | e |] eqn:Hb; cbn [bind].
    + apply elem_of_cons in Hin as [-> | Hin]; [rewrite Hx0 in Hb; discriminate |].
      apply IH. exact Hin.
    + rewrite (Hexn _ _ _ Hb). reflexivity.
    + exfalso. eapply Hfuel. exact Hb.
Qed.

Lemma getitem_past_end {A} (l : list A) :
  getitem l (Z.of_nat (length l)) = Raise IndexError.
Proof.
  unfold getitem, norm_index.
  destruct (Z.ltb_spec (Z.of_nat (length l)) (Z.of_nat (length l))); [lia |].
  rewrite andb_false_r.
  destruct (Z.ltb_spec (Z.of_nat (length l)) 0); [lia |].
  rewrite andb_false_r. reflexivity.
Qed.

Lemma shape_not_ok (board : Board) :
  shape_ok board = false ->
  exists x y, 0 <= x < 8 /\ 0 <= y < 8 /\ cell board x y = Raise IndexError.
Proof.
  unfold shape_ok. intros H. apply andb_false_iff in H as [H | H].
  - apply Nat.leb_gt in H.
    exists (Z.of_nat (length board)), 0. split; [lia |]. split; [lia |].
    unfold cell. rewrite getitem_past_end. reflexivity.
  - assert (Hex : exists row, In row (take 8 board) /\ (8 <=? length row)%nat = false).
    { destruct (forallb (fun row : Row => (8 <=? length row)%nat) (take 8 board)) eqn:Hall;
        [discriminate |].
      clear H. induction (take 8 board) as [| r l IH]; [discriminate |].
      cbn [forallb] in Hall. apply andb_false_iff in Hall as [Hr | Hl].
      - exists r. split; [left; reflexivity | exact Hr].
      - destruct (IH Hl) as (row & Hin & Hrow). exists row. split; [right |]; assumption. }
    destruct Hex as (row & Hin & Hrow). apply Nat.leb_gt in Hrow.
    apply list_elem_of_In, list_elem_of_lookup in Hin as [X HX].
    apply lookup_take_Some in HX as [HX HX8].
    exists (Z.of_nat X), (Z.of_nat (length row)).
    split; [lia |]. split; [lia |].
    unfold cell. rewrite (getitem_lookup board (Z.of_nat X) row); [| lia |].
    + cbn [bind]. apply getitem_past_end.
    + rewrite Nat2Z.id. exact HX.
Qed.

(** X6: [generate_moves] reads all 64 squares: on a board with fewer than
    eight rows, or with fewer than eight cells in one of its first eight
    rows, it raises [IndexError] for either side, whatever the board
    holds. *)
Theorem generate_moves_index_error :
  forall (board : Board) (is_white : bool),
    shape_ok board = false ->
    generate_moves board is_white = Raise IndexError.
Proof.
  intros board is_white Hshape.
  destruct (shape_not_ok board Hshape) as (x0 & y0 & Hx0 & Hy0 & Hcell).
  assert (Hinner_fuel : forall x y moves,
             (let* piece := cell board x y in
              if (is_white && isupper piece) || (negb is_white && islower piece)
              then let* new := get_piece_moves board x y piece in Ok (moves ++ new)
              else Ok moves) <> OutOfFuel).
  { intros x y moves. apply bind_no_timeout; [apply cell_no_timeout |]. intros piece.
    destruct (_ || _); [| discriminate].
    apply bind_no_timeout; [apply get_piece_moves_no_timeout | discriminate]. }
  assert (Hinner_exn : forall x y moves e,
             (let* piece := cell board x y in
              if (is_white && isupper piece) || (negb is_white && islower piece)
              then let* new := get_piece_moves board x y piece in Ok (moves ++ new)
              else Ok moves) = Raise e -> e = IndexError).
  { intros x y moves e H. apply bind_raises in H as [H | (piece & _ & H)];
      [eapply cell_raises; exact H |].
    destruct (_ || _); [| discriminate].
    apply bind_raises in H as [H | (new & _ & H)]; [| discriminate].
    eapply get_piece_moves_raises. exact H. }
  unfold generate_moves.
  apply (for_each_must_raise (range 8) _ x0).
  - intros x s. apply for_each_no_timeout. intros y s' _. apply Hinner_fuel.
  - intros x s e. apply for_each_raises. intros y s' e' _. apply Hinner_exn.
  - apply elem_of_range_iff. lia.
  - intros s. apply (for_each_must_raise (range 8) _ y0).
    + intros y s'. apply Hinner_fuel.
    + intros y s' e. apply Hinner_exn.
    + apply elem_of_range_iff. lia.
    + intros s'. rewrite Hcell. reflexivity.
Qed.

Lemma generate_moves_index_error_witness :
  generate_moves (take 7 initialize_board) true = Raise IndexError.
Proof.
  apply (generate_moves_index_error (take 7 initialize_board) true). reflexivity.
Defined.

Lemma fold_value_shift (row : Row) (s : Z) :
  fold_left (fun score piece => score + default 0 (dict_get piece_values piece)) row s
  = s + fold_left (fun score piece => score + default 0 (dict_get piece_values piece)) row 0.
Proof.
  revert s. induction row as [| c row IH]; intros s; cbn [fold_left]; [lia |].
  rewrite (IH (s + _)), (IH (0 + _)). lia.
Qed.

Lemma fold_rows_shift (board : Board) (s : Z) :
  fold_left (fun score row =>
               fold_left (fun score piece => score + default 0 (dict_get piece_values piece))
                         row score) board s
  = s + evaluate_board board.
Proof.
  unfold evaluate_board. revert s.
  induction board as [| row board IH]; intros s; cbn [fold_left]; [lia |].
  rewrite (IH (fold_left _ row s)), (IH (fold_left _ row 0)).
  rewrite (fold_value_shift row s). lia.
Qed.

Lemma evaluate_board_cons (row : Row) (board : Board) :
  evaluate_board (row :: board) = evaluate_board [row] + evaluate_board board.
Proof.
  unfold evaluate_board at 1 2. cbn [fold_left]. rewrite fold_rows_shift. reflexivity.
Qed.

Lemma evaluate_row_cons (c : ascii) (row : Row) :
  evaluate_board [c :: row] = piece_value c + evaluate_board [row].
Proof.
  unfold evaluate_board, piece_value. cbn [fold_left].
  rewrite fold_value_shift. lia.
Qed.

Lemma evaluate_row_insert (row : Row) (Y : nat) (old v : ascii) :
  row !! Y = Some old ->
  evaluate_board [<[Y := v]> row] = evaluate_board [row] - piece_value old + piece_value v.
Proof.
  revert Y. induction row as [| c row IH]; intros Y HY; [discriminate |].
  destruct Y as [| Y]; cbn in HY.
  - injection HY as ->. cbn [insert list_insert]. rewrite !evaluate_row_cons. lia.
  - change (<[S Y := v]> (c :: row)) with (c :: <[Y := v]> row).
    rewrite !evaluate_row_cons, (IH Y HY). lia.
Qed.

Lemma evaluate_board_insert (board : Board) (X : nat) (row row' : Row) :
  board !! X = Some row ->
  evaluate_board (<[X := row']> board)
  = evaluate_board board - evaluate_board [row] + evaluate_board [row'].
Proof.
  revert X. induction board as [| r board IH]; intros X HX; [discriminate |].
  destruct X as [| X]; cbn in HX.
  - injection HX as ->. cbn [insert list_insert].
    rewrite (evaluate_board_cons row'), (evaluate_board_cons row). lia.
  - change (<[S X := row']> (r :: board)) with (r :: <[X := row']> board).
    rewrite (evaluate_board_cons r), (evaluate_board_cons r board), (IH X HX). lia.
Qed.

(** Writing one square changes the evaluation by the difference of the
    values written and overwritten. *)
Lemma set_cell_evaluate (board board' : Board) (x y : Z) (old v : ascii) :
  0 <= x -> 0 <= y ->
  at_square board (Z.to_nat x) (Z.to_nat y) = Some old ->
  set_cell board x y v = Ok board' ->
  evaluate_board board' = evaluate_board board - piece_value old + piece_value v.
Proof.
  intros Hx Hy Hat Hset. unfold at_square in Hat.
  destruct (board !! Z.to_nat x) as [row |] eqn:Hrow; [| discriminate]. cbn in Hat.
  unfold set_cell in Hset.
  rewrite (getitem_lookup _ _ _ Hx Hrow) in Hset. cbn [bind] in Hset.
  rewrite setitem_insert in Hset by (apply lookup_lt_Some in Hat; lia). cbn [bind] in Hset.
  rewrite setitem_insert in Hset by (apply lookup_lt_Some in Hrow; lia).
  injection Hset as <-.
  rewrite (evaluate_board_insert board _ row _ Hrow), (evaluate_row_insert row _ old v Hat).
  lia.
Qed.

Lemma make_move_evaluate (board board' : Board) (x1 y1 x2 y2 : Z) (target : ascii) :
  wf_board board = true ->
  is_in_bounds x1 y1 = true -> is_in_bounds x2 y2 = true ->
  (x1, y1) <> (x2, y2) ->
  cell board x2 y2 = Ok target ->
  make_move board ((x1, y1), (x2, y2)) = Ok board' ->
  evaluate_board board' = evaluate_board board - piece_value target.
Proof.
  intros Hwf H1 H2 Hne Htarget Hmove.
  destruct (wf_cell board x1 y1 Hwf H1) as (piece & Hc1 & Hat1).
  destruct (wf_cell board x2 y2 Hwf H2) as (t & Hc2 & Hat2).
  assert (t = target) by congruence. subst t.
  destruct (set_cell_wf board x2 y2 piece Hwf H2) as (b1 & Hs1 & Hwf1 & Hsq1).
  destruct (set_cell_wf b1 x1 y1 "." Hwf1 H1) as (b2 & Hs2 & _ & _).
  unfold make_move in Hmove. rewrite Hc1 in Hmove. cbn [bind] in Hmove.
  rewrite Hs1 in Hmove. cbn [bind] in Hmove.
  assert (b2 = board') by congruence. subst b2.
  apply in_bounds_inv in H1 as [Hx1 Hy1]. apply in_bounds_inv in H2 as [Hx2 Hy2].
  rewrite (set_cell_evaluate b1 board' x1 y1 piece "."); try lia; try exact Hs2.
  - rewrite (set_cell_evaluate board b1 x2 y2 target piece); try lia; try assumption.
    change (piece_value ".") with 0. lia.
  - rewrite Hsq1. rewrite decide_False; [exact Hat1 |].
    intros [Ha Hb]. apply Hne. f_equal; lia.
Qed.

(** X7: a move between two different squares of a well-formed board changes
    the evaluation by exactly the value of what stood on the destination
    square: the new evaluation is the old one minus
    [piece_values.get(target, 0)], so it is unchanged by a move onto an
    empty square. *)
Theorem make_move_changes_evaluation_by_capture :
  forall (board board' : Board) (x1 y1 x2 y2 : Z) (target : ascii),
    wf_board board = true ->
    is_in_bounds x1 y1 = true ->
    is_in_bounds x2 y2 = true ->
    (x1, y1) <> (x2, y2) ->
    cell board x2 y2 = Ok target ->
    make_move board ((x1, y1), (x2, y2)) = Ok board' ->
    evaluate_board board' = evaluate_board board - piece_value target.
Proof. exact make_move_evaluate. Qed.

Lemma make_move_changes_evaluation_by_capture_witness :
  exists board',
    make_move blocked_pawn_board ((6, 4), (5, 4)) = Ok board'
    /\ evaluate_board board' = evaluate_board blocked_pawn_board - piece_value "p".
Proof.
  eexists. split; [vm_compute; reflexivity |].
  apply (make_move_changes_evaluation_by_capture blocked_pawn_board _ 6 4 5 4 "p");
    [reflexivity | reflexivity | reflexivity | discriminate | reflexivity
    | vm_compute; reflexivity].
Defined.

(** ** Subscripts of [make_move] *)

Lemma norm_index_8 (i : Z) :
  norm_index 8 i = if valid_index i then Some (Z.to_nat (i mod 8)) else None.
Proof.
  unfold norm_index, valid_index. change (Z.of_nat 8) with 8. change (- (8)) with (-8).
  destruct (Z.leb_spec 0 i), (Z.ltb_spec i 8), (Z.leb_spec (-8) i), (Z.ltb_spec i 0);
    cbn [andb]; try (exfalso; lia); try reflexivity; f_equal; f_equal.
  - rewrite Z.mod_small by lia. reflexivity.
  - rewrite <- (Z.mod_unique i 8 (-1) (i + 8)) by lia. lia.
Qed.

Lemma getitem_8 {A} (l : list A) (i : Z) :
  length l = 8%nat ->
  getitem l i = if valid_index i
                then match l !! Z.to_nat (i mod 8) with
                     | Some a => Ok a
                     | None => Raise IndexError
                     end
                else Raise IndexError.
Proof.
  intros Hlen. unfold getitem. rewrite Hlen, norm_index_8.
  destruct (valid_index i); reflexivity.
Qed.

Lemma setitem_8 {A} (l : list A) (i : Z) (a : A) :
  length l = 8%nat ->
  setitem l i a = if valid_index i then Ok (<[Z.to_nat (i mod 8) := a]> l)
                  else Raise IndexError.
Proof.
  intros Hlen. unfold setitem. rewrite Hlen, norm_index_8.
  destruct (valid_index i); reflexivity.
Qed.

Lemma valid_index_mod (i : Z) : valid_index (i mod 8) = true.
Proof. unfold valid_index. pose proof (Z.mod_pos_bound i 8). lia. Qed.

Lemma mod_mod_8 (i : Z) : (i mod 8) mod 8 = i mod 8.
Proof. apply Z.mod_mod. lia. Qed.

Lemma cell_8 (board : Board) (x y : Z) :
  wf_board board = true ->
  cell board x y
  = if valid_index x && valid_index y then cell board (x mod 8) (y mod 8)
    else Raise IndexError.
Proof.
  intros Hwf. unfold cell.
  rewrite (getitem_8 board x (wf_board_length _ Hwf)).
  rewrite (getitem_8 board (x mod 8) (wf_board_length _ Hwf)).
  rewrite valid_index_mod, mod_mod_8.
  destruct (valid_index x); cbn [andb]; [| reflexivity].
  destruct (board !! Z.to_nat (x mod 8)) as [row |] eqn:Hrow; cbn [bind].
  - pose proof (wf_board_row _ _ _ Hwf Hrow) as Hlen.
    rewrite (getitem_8 row y Hlen), (getitem_8 row (y mod 8) Hlen).
    rewrite valid_index_mod, mod_mod_8.
    destruct (valid_index y); reflexivity.
  - destruct (valid_index y); reflexivity.
Qed.

Lemma set_cell_8 (board : Board) (x y : Z) (v : ascii) :
  wf_board board = true ->
  set_cell board x y v
  = if valid_index x && valid_index y then set_cell board (x mod 8) (y mod 8) v
    else Raise IndexError.
Proof.
  intros Hwf. unfold set_cell.
  pose proof (wf_board_length _ Hwf) as Hlen.
  rewrite (getitem_8 board x Hlen), (getitem_8 board (x mod 8) Hlen).
  rewrite valid_index_mod, mod_mod_8.
  destruct (valid_index x) eqn:Hvx; cbn [andb]; [| reflexivity].
  destruct (board !! Z.to_nat (x mod 8)) as [row |] eqn:Hrow; cbn [bind].
  - pose proof (wf_board_row _ _ _ Hwf Hrow) as Hrlen.
    rewrite (setitem_8 row y v Hrlen), (setitem_8 row (y mod 8) v Hrlen).
    rewrite valid_index_mod, mod_mod_8.
    destruct (valid_index y); cbn [bind]; [| reflexivity].
    rewrite !(setitem_8 board _ _ Hlen), valid_index_mod, mod_mod_8, Hvx. reflexivity.
  - apply lookup_ge_None in Hrow. pose proof (Z.mod_pos_bound x 8). lia.
Qed.

Lemma in_bounds_mod (x y : Z) : is_in_bounds (x mod 8) (y mod 8) = true.
Proof.
  apply in_bounds_intro; [pose proof (Z.mod_pos_bound x 8) | pose proof (Z.mod_pos_bound y 8)];
    lia.
Qed.

Lemma make_move_8 (board : Board) (x1 y1 x2 y2 : Z) :
  wf_board board = true ->
  make_move board ((x1, y1), (x2, y2))
  = if valid_index x1 && valid_index y1 && valid_index x2 && valid_index y2
    then make_move board ((x1 mod 8, y1 mod 8), (x2 mod 8, y2 mod 8))
    else Raise IndexError.
Proof.
  intros Hwf. unfold make_move.
  rewrite (cell_8 board x1 y1 Hwf).
  destruct (valid_index x1 && valid_index y1) eqn:Hv1; cbn [andb]; [| reflexivity].
  destruct (wf_cell board (x1 mod 8) (y1 mod 8) Hwf (in_bounds_mod x1 y1)) as (piece & -> & _).
  cbn [bind].
  rewrite (set_cell_8 board x2 y2 piece Hwf).
  destruct (valid_index x2) eqn:Hx2; cbn [andb]; [| reflexivity].
  destruct (valid_index y2) eqn:Hy2; cbn [andb]; [| reflexivity].
  destruct (set_cell_wf board (x2 mod 8) (y2 mod 8) piece Hwf (in_bounds_mod x2 y2))
    as (b1 & -> & Hwf1 & _).
  cbn [bind].
  (* the from-square subscripts were accepted when the piece was read *)
  rewrite (set_cell_8 b1 x1 y1 "." Hwf1), Hv1. reflexivity.
Qed.

(** X8: on a well-formed board [make_move] accepts exactly the subscripts
    from -8 to 7.  With one of the four coordinates outside that range it
    raises [IndexError]; otherwise it succeeds, a negative coordinate
    counting from the end: the move is the one between the squares with
    coordinates taken modulo 8. *)
Theorem make_move_subscripts :
  forall (board : Board) (x1 y1 x2 y2 : Z),
    wf_board board = true ->
    (valid_index x1 && valid_index y1 && valid_index x2 && valid_index y2 = false ->
     make_move board ((x1, y1), (x2, y2)) = Raise IndexError)
    /\ (valid_index x1 && valid_index y1 && valid_index x2 && valid_index y2 = true ->
        exists board',
          make_move board ((x1, y1), (x2, y2)) = Ok board'
          /\ make_move board ((x1 mod 8, y1 mod 8), (x2 mod 8, y2 mod 8)) = Ok board'
          /\ wf_board board' = true).
Proof.
  intros board x1 y1 x2 y2 Hwf. rewrite (make_move_8 board x1 y1 x2 y2 Hwf).
  split; intros ->; [reflexivity |].
  destruct (make_move_total board ((x1 mod 8, y1 mod 8), (x2 mod 8, y2 mod 8)) Hwf)
    as (board' & Hmove & Hwf').
  { unfold on_board. cbn [fst snd]. rewrite !in_bounds_mod. reflexivity. }
  eauto.
Qed.

Lemma make_move_subscripts_witness :
  make_move initialize_board ((8, 0), (0, 0)) = Raise IndexError
  /\ exists board',
      make_move initialize_board ((-1, -8), (3, 3)) = Ok board'
      /\ make_move initialize_board ((7, 0), (3, 3)) = Ok board'
      /\ wf_board board' = true.
Proof.
  split.
  - apply (proj1 (make_move_subscripts initialize_board 8 0 0 0 eq_refl)). reflexivity.
  - apply (proj2 (make_move_subscripts initialize_board (-1) (-8) 3 3 eq_refl)). reflexivity.
Defined.

(** ** The evaluation counts squares one by one *)

Lemma evaluate_board_sum (board : Board) :
  evaluate_board board = foldr Z.add 0 (map piece_value (concat board)).
Proof.
  induction board as [| row board IH]; [reflexivity |].
  rewrite evaluate_board_cons, IH. cbn [concat]. rewrite map_app, foldr_app.
  assert (Hshift : forall (l : list Z) (a : Z), foldr Z.add a l = foldr Z.add 0 l + a).
  { induction l as [| z l IHl]; intros a; cbn [foldr]; [lia |]. rewrite IHl. lia. }
  rewrite (Hshift _ (foldr Z.add 0 _)).
  assert (Hrow : evaluate_board [row] = foldr Z.add 0 (map piece_value row)).
  { clear. induction row as [| c row IHr]; [reflexivity |].
    rewrite evaluate_row_cons, IHr. reflexivity. }
  rewrite Hrow. reflexivity.
Qed.

(** X9: the evaluation is material only: two boards holding the same
    characters, in whatever arrangement of rows and squares, have the same
    evaluation. *)
Theorem evaluate_board_ignores_placement :
  forall (board1 board2 : Board),
    concat board1 ≡ₚ concat board2 ->
    evaluate_board board1 = evaluate_board board2.
Proof.
  intros board1 board2 Hperm. rewrite !evaluate_board_sum.
  assert (Hp : map piece_value (concat board1) ≡ₚ map piece_value (concat board2))
    by (apply Permutation_map; exact Hperm).
  induction Hp as [| z l l' _ IH | z z' l | l l' l'' _ IH1 _ IH2]; cbn [foldr]; lia.
Qed.

Lemma evaluate_board_ignores_placement_witness :
  evaluate_board [["P"; "."]; ["."; "q"]] = evaluate_board [["q"; "."; "."; "P"]].
Proof.
  apply (evaluate_board_ignores_placement [["P"; "."]; ["."; "q"]] [["q"; "."; "."; "P"]]).
  cbn [concat app].
  apply (bool_decide_unpack _). vm_compute. exact I.
Defined.

(** ** The result of a search with an arbitrary window *)

Lemma ab_rel_three_parts (alpha beta v r : num) :
  ab_rel alpha beta v r ->
  (lt alpha r = true -> lt r beta = true -> r = v)
  /\ (le r alpha = true -> lt alpha beta = true -> le v r = true)
  /\ (le beta r = true -> lt alpha beta = true -> le r v = true).
Proof. num_solve. Qed.

(** X10: on a well-formed board, for every depth that is not negative and
    every window with alpha < beta, the score r returned by the pruned
    search bounds the full minimax value v of the position the way
    fail-soft alpha-beta does: if r lies strictly inside the window it is
    the exact value, if r <= alpha then v <= r, and if r >= beta then
    v >= r. *)
Theorem minimax_window_bounds :
  forall (fuel : nat) (board : Board) (depth : Z) (is_white : bool) (alpha beta : num),
    wf_board board = true ->
    0 <= depth < Z.of_nat fuel ->
    lt alpha beta = true ->
    exists v r best_move,
      minimax_full fuel board depth is_white = Ok v
      /\ minimax fuel board depth is_white alpha beta = Ok (r, best_move)
      /\ (lt alpha r = true -> lt r beta = true -> r = v)
      /\ (le r alpha = true -> le v r = true)
      /\ (le beta r = true -> le r v = true).
Proof.
  intros fuel board depth is_white alpha beta Hwf Hd Hwin.
  destruct (minimax_full_total fuel board depth is_white Hwf Hd) as (v & Hv).
  destruct (minimax_sound fuel board depth is_white alpha beta v Hwin Hv)
    as (r & bm & Hr & Hrel).
  apply ab_rel_three_parts in Hrel as (H1 & H2 & H3).
  exists v, r, bm. auto 10.
Qed.

Lemma minimax_window_bounds_witness :
  exists v r best_move,
    minimax_full 3 blocked_pawn_board 2 true = Ok v
    /\ minimax 3 blocked_pawn_board 2 true (Fin 0) (Fin 1) = Ok (r, best_move)
    /\ (lt (Fin 0) r = true -> lt r (Fin 1) = true -> r = v)
    /\ (le r (Fin 0) = true -> le v r = true)
    /\ (le (Fin 1) r = true -> le r v = true).
Proof.
  apply (minimax_window_bounds 3 blocked_pawn_board 2 true (Fin 0) (Fin 1));
    [reflexivity | lia | reflexivity].
Defined.

(** ** The move returned *)

Section BestOfLoop.
Variable child : Board -> num -> num -> outcome (num * option Move).
Variable P : Move -> Prop.

Lemma max_loop_best (board : Board) (moves : list Move) :
  forall max_eval best alpha beta r bm,
    max_loop child board moves max_eval best alpha beta = Ok (r, bm) ->
    (best = None <-> max_eval = NegInf) ->
    (forall m, best = Some m -> P m) ->
    (forall m, m ∈ moves -> P m) ->
    (bm = None <-> r = NegInf) /\ (forall m, bm = Some m -> P m).
Proof.
  induction moves as [| move rest IH]; intros max_eval best alpha beta r bm Hrun Hnone Hbest Hall;
    cbn [max_loop] in Hrun.
  - injection Hrun as <- <-. auto.
  - apply bind_Ok in Hrun as (nb & _ & Hrun).
    apply bind_Ok in Hrun as ([evaluation other] & _ & Hrun).
    assert (Hmove : P move) by (apply Hall; left).
    assert (Hrest : forall m, m ∈ rest -> P m) by (intros m Hm; apply Hall; right; exact Hm).
    destruct (gt evaluation max_eval) eqn:Hgt.
    + assert (Hev : Some move = None <-> evaluation = NegInf).
      { split; [discriminate |]. intros ->. destruct max_eval; discriminate. }
      assert (Hsome : forall m, Some move = Some m -> P m) by (intros m [= <-]; exact Hmove).
      destruct (le beta (max alpha evaluation)).
      * injection Hrun as <- <-. auto.
      * eapply IH; eassumption.
    + destruct (le beta (max alpha evaluation)).
      * injection Hrun as <- <-. auto.
      * eapply IH; eassumption.
Qed.

Lemma min_loop_best (board : Board) (moves : list Move) :
  forall min_eval best alpha beta r bm,
    min_loop child board moves min_eval best alpha beta = Ok (r, bm) ->
    (best = None <-> min_eval = PosInf) ->
    (forall m, best = Some m -> P m) ->
    (forall m, m ∈ moves -> P m) ->
    (bm = None <-> r = PosInf) /\ (forall m, bm = Some m -> P m).
Proof.
  induction moves as [| move rest IH]; intros min_eval best alpha beta r bm Hrun Hnone Hbest Hall;
    cbn [min_loop] in Hrun.
  - injection Hrun as <- <-. auto.
  - apply bind_Ok in Hrun as (nb & _ & Hrun).
    apply bind_Ok in Hrun as ([evaluation other] & _ & Hrun).
    assert (Hmove : P move) by (apply Hall; left).
    assert (Hrest : forall m, m ∈ rest -> P m) by (intros m Hm; apply Hall; right; exact Hm).
    destruct (lt evaluation min_eval) eqn:Hlt.
    + assert (Hev : Some move = None <-> evaluation = PosInf).
      { split; [discriminate |]. intros ->. destruct min_eval; discriminate. }
      assert (Hsome : forall m, Some move = Some m -> P m) by (intros m [= <-]; exact Hmove).
      destruct (le (min beta evaluation) alpha).
      * injection Hrun as <- <-. auto.
      * eapply IH; eassumption.
    + destruct (le (min beta evaluation) alpha).
      * injection Hrun as <- <-. auto.
      * eapply IH; eassumption.
Qed.
End BestOfLoop.

(** The move returned by a search is a generated one. *)
Lemma minimax_best_generated :
  forall (fuel : nat) (board : Board) (depth : Z) (is_white : bool)
         (alpha beta score : num) (best_move : option Move),
    depth <> 0 ->
    minimax fuel board depth is_white alpha beta = Ok (score, best_move) ->
    (best_move = None <-> score = if is_white then NegInf else PosInf)
    /\ forall m, best_move = Some m ->
                 exists moves, generate_moves board is_white = Ok moves /\ m ∈ moves.
Proof.
  intros fuel board depth is_white alpha beta score best_move Hd Hrun.
  destruct fuel as [| fuel]; [discriminate |].
  cbn [minimax] in Hrun.
  destruct (Z.eqb_spec depth 0) as [-> | _]; [contradiction |].
  destruct is_white.
  - apply bind_Ok in Hrun as (moves & Hgen & Hrun).
    eapply (max_loop_best _ (fun m => exists moves', generate_moves board true = Ok moves'
                                                      /\ m ∈ moves')) in Hrun.
    + exact Hrun.
    + tauto.
    + discriminate.
    + eauto.
  - apply bind_Ok in Hrun as (moves & Hgen & Hrun).
    eapply (min_loop_best _ (fun m => exists moves', generate_moves board false = Ok moves'
                                                      /\ m ∈ moves')) in Hrun.
    + exact Hrun.
    + tauto.
    + discriminate.
    + eauto.
Qed.

(** X11: when a search at a depth other than 0 returns, the move it
    returns is one of the moves generated for the side to move on the board
    it was given; and it returns no move exactly when the score it returns
    is the bound its loop started from (minus infinity for White, plus
    infinity for Black). *)
Theorem minimax_best_move :
  forall (fuel : nat) (board : Board) (depth : Z) (is_white : bool)
         (alpha beta score : num) (best_move : option Move),
    depth <> 0 ->
    minimax fuel board depth is_white alpha beta = Ok (score, best_move) ->
    (best_move = None <-> score = if is_white then NegInf else PosInf)
    /\ forall m, best_move = Some m ->
                 exists moves, generate_moves board is_white = Ok moves /\ m ∈ moves.
Proof. exact minimax_best_generated. Qed.

Lemma minimax_best_move_witness :
  (Some ((6, 0), (5, 0)) = None <-> Fin 0 = NegInf)
  /\ forall m, Some ((6, 0), (5, 0)) = Some m ->
               exists moves, generate_moves initialize_board true = Ok moves /\ m ∈ moves.
Proof.
  apply (minimax_best_move 4 initialize_board 3 true NegInf PosInf (Fin 0)
           (Some ((6, 0), (5, 0)))); [discriminate | vm_compute; reflexivity].
Defined.

(** ** Negative depth *)

Section InfiniteScores.
Variable child : Board -> num -> num -> outcome (num * option Move).
Hypothesis child_infinite :
  forall b alpha beta s bm, child b alpha beta = Ok (s, bm) -> s = NegInf \/ s = PosInf.


End InfiniteScores.




Lemma list_of_8 {A} (l : list A) :
  length l = 8%nat ->
  exists a0 a1 a2 a3 a4 a5 a6 a7, l = [a0; a1; a2; a3; a4; a5; a6; a7].
Proof.
  intros H.
  do 8 (destruct l as [| ? l]; [discriminate |]).
  destruct l; [| discriminate]. eauto 10.
Qed.

Lemma tensor_of_cells (f : ascii -> Z) (board : Board) :
  wf_board board = true ->
  for_each (range 8)
    (fun x tensor =>
       for_each (range 8)
         (fun y tensor =>
            let* piece := cell board x y in Ok (tensor_set tensor x y (f piece)))
         tensor)
    (replicate 8 (replicate 8 0))
  = Ok (map (map f) board).
Proof.
  intros Hwf.
  destruct (list_of_8 board (wf_board_length _ Hwf))
    as (r0 & r1 & r2 & r3 & r4 & r5 & r6 & r7 & ->).
  destruct (list_of_8 r0 (wf_board_row _ 0 r0 Hwf eq_refl)) as (? & ? & ? & ? & ? & ? & ? & ? & ->).
  destruct (list_of_8 r1 (wf_board_row _ 1 r1 Hwf eq_refl)) as (? & ? & ? & ? & ? & ? & ? & ? & ->).
  destruct (list_of_8 r2 (wf_board_row _ 2 r2 Hwf eq_refl)) as (? & ? & ? & ? & ? & ? & ? & ? & ->).
  destruct (list_of_8 r3 (wf_board_row _ 3 r3 Hwf eq_refl)) as (? & ? & ? & ? & ? & ? & ? & ? & ->).
  destruct (list_of_8 r4 (wf_board_row _ 4 r4 Hwf eq_refl)) as (? & ? & ? & ? & ? & ? & ? & ? & ->).
  destruct (list_of_8 r5 (wf_board_row _ 5 r5 Hwf eq_refl)) as (? & ? & ? & ? & ? & ? & ? & ? & ->).
  destruct (list_of_8 r6 (wf_board_row _ 6 r6 Hwf eq_refl)) as (? & ? & ? & ? & ? & ? & ? & ? & ->).
  destruct (list_of_8 r7 (wf_board_row _ 7 r7 Hwf eq_refl)) as (? & ? & ? & ? & ? & ? & ? & ? & ->).
  clear Hwf. vm_compute. reflexivity.
Qed.

Lemma board_to_tensor_codes (board : Board) :
  wf_board board = true ->
  board_to_tensor board = Ok (map (map piece_code) board).
Proof. intros Hwf. exact (tensor_of_cells piece_code board Hwf). Qed.

Lemma board_to_tensor_raises (board : Board) :
  shape_ok board = false -> board_to_tensor board = Raise IndexError.
Proof.
  intros Hshape.
  destruct (shape_not_ok board Hshape) as (x0 & y0 & Hx0 & Hy0 & Hcell).
  assert (Hfuel : forall x y (t : list (list Z)),
             (let* piece := cell board x y in
              Ok (tensor_set t x y (default 0 (dict_get piece_map piece)))) <> OutOfFuel).
  { intros x y t. apply bind_no_timeout; [apply cell_no_timeout | discriminate]. }
  assert (Hexn : forall x y (t : list (list Z)) e,
             (let* piece := cell board x y in
              Ok (tensor_set t x y (default 0 (dict_get piece_map piece)))) = Raise e ->
             e = IndexError).
  { intros x y t e H. apply bind_raises in H as [H | (piece & _ & H)];
      [eapply cell_raises; exact H | discriminate]. }
  unfold board_to_tensor.
  apply (for_each_must_raise (range 8) _ x0).
  - intros x s. apply for_each_no_timeout. intros y s' _. apply Hfuel.
  - intros x s e. apply for_each_raises. intros y s' e' _. apply Hexn.
  - apply elem_of_range_iff. lia.
  - intros s. apply (for_each_must_raise (range 8) _ y0).
    + intros y s'. apply Hfuel.
    + intros y s' e. apply Hexn.
    + apply elem_of_range_iff. lia.
    + intros s'. rewrite Hcell. reflexivity.
Qed.

(** X13: [board_to_tensor] reads the 64 squares: on a well-formed board it
    returns the board with every character replaced by its code (0 for a
    character that is not a key of [piece_map]); on a board with fewer than
    eight rows, or fewer than eight cells in one of its first eight rows, it
    raises [IndexError]. *)
Theorem board_to_tensor_spec :
  forall (board : Board),
    (wf_board board = true -> board_to_tensor board = Ok (map (map piece_code) board))
    /\ (shape_ok board = false -> board_to_tensor board = Raise IndexError).
Proof.
  intros board. split; [apply board_to_tensor_codes | apply board_to_tensor_raises].
Qed.

Lemma board_to_tensor_spec_witness :
  board_to_tensor white_pawn_board = Ok (map (map piece_code) white_pawn_board)
  /\ board_to_tensor [] = Raise IndexError.
Proof.
  split.
  - apply (proj1 (board_to_tensor_spec white_pawn_board)). reflexivity.
  - apply (proj2 (board_to_tensor_spec [])). reflexivity.
Defined.

Lemma gpu_table_lookup (piece : ascii) :
  getitem gpu_piece_values (piece_code piece + 6)
  = Ok (nth (Z.to_nat (piece_code piece + 6)) gpu_piece_values 0).
Proof. destruct piece as [[] [] [] [] [] [] [] []]; vm_compute; reflexivity. Qed.

Lemma gpu_square_value_nonpos (piece : ascii) : gpu_square_value piece <= 0.
Proof. destruct piece as [[] [] [] [] [] [] [] []]; vm_compute; congruence. Qed.

Lemma evaluate_gpu_cells (cells : list ascii) (acc : Z) :
  for_each (map piece_code cells)
    (fun v score => let* w := getitem gpu_piece_values (v + 6) in Ok (score + v * w)) acc
  = Ok (acc + foldr Z.add 0 (map gpu_square_value cells)).
Proof.
  revert acc. induction cells as [| c cells IH]; intros acc; cbn [map for_each foldr].
  - f_equal. lia.
  - rewrite gpu_table_lookup. cbn [bind]. rewrite IH. f_equal.
    unfold gpu_square_value. lia.
Qed.

Lemma evaluate_board_gpu_sum (board : Board) :
  wf_board board = true ->
  bind (board_to_tensor board) evaluate_board_gpu
  = Ok (foldr Z.add 0 (map gpu_square_value (concat board))).
Proof.
  intros Hwf. rewrite (board_to_tensor_codes board Hwf). cbn [bind].
  unfold evaluate_board_gpu. rewrite <- concat_map, evaluate_gpu_cells. reflexivity.
Qed.

Lemma sum_nonpos (cells : list ascii) :
  foldr Z.add 0 (map gpu_square_value cells) <= 0.
Proof.
  induction cells as [| c cells IH]; cbn [map foldr]; [lia |].
  pose proof (gpu_square_value_nonpos c). lia.
Qed.

(** X14: on a well-formed board the evaluation of [main_gpu.py] raises
    nothing and is the sum over the squares of the square's code times the
    table entry at code + 6; every term of that sum is negative or zero
    (-1, -6, -9, -20, -45, 0 for the black pawn, knight, bishop, rook, queen,
    king and -9, -10, -9, -12, -5, 0 for the white ones), so the evaluation
    is never positive, whichever side is ahead. *)
Theorem evaluate_board_gpu_never_positive :
  forall (board : Board),
    wf_board board = true ->
    exists score,
      bind (board_to_tensor board) evaluate_board_gpu = Ok score
      /\ score = foldr Z.add 0 (map gpu_square_value (concat board))
      /\ score <= 0
      /\ map gpu_square_value ["p"; "n"; "b"; "r"; "q"; "k"; "P"; "N"; "B"; "R"; "Q"; "K"; "."]
         = [-1; -6; -9; -20; -45; 0; -9; -10; -9; -12; -5; 0; 0].
Proof.
  intros board Hwf. eexists. split; [apply evaluate_board_gpu_sum; exact Hwf |].
  split; [reflexivity |]. split; [apply sum_nonpos | reflexivity].
Qed.

Lemma evaluate_board_gpu_never_positive_witness :
  exists score,
    bind (board_to_tensor initialize_board) evaluate_board_gpu = Ok score
    /\ score = foldr Z.add 0 (map gpu_square_value (concat initialize_board))
    /\ score <= 0
    /\ map gpu_square_value ["p"; "n"; "b"; "r"; "q"; "k"; "P"; "N"; "B"; "R"; "Q"; "K"; "."]
       = [-1; -6; -9; -20; -45; 0; -9; -10; -9; -12; -5; 0; 0].
Proof.
  apply (evaluate_board_gpu_never_positive initialize_board). reflexivity.
Defined.

(** ** The search of [main_gpu.py] *)

Lemma gpu_leaf_total (board : Board) :
  wf_board board = true ->
  exists score, bind (board_to_tensor board) evaluate_board_gpu = Ok score.
Proof. intros Hwf. eexists. apply evaluate_board_gpu_sum. exact Hwf. Qed.

Lemma minimax_gpu_sound (fuel : nat) :
  forall (board : Board) (depth : Z) (is_white : bool) (alpha beta v : num),
    lt alpha beta = true ->
    minimax_gpu_full fuel board depth is_white = Ok v ->
    exists r m,
      minimax_gpu fuel board depth is_white alpha beta = Ok (r, m)
      /\ ab_rel alpha beta v r.
Proof.
  induction fuel as [| fuel IH]; intros board depth is_white alpha beta v Hwin Hfull;
    [discriminate |].
  cbn [minimax_gpu_full] in Hfull. cbn [minimax_gpu].
  destruct (depth =? 0).
  - apply bind_Ok in Hfull as (tensor & -> & Hfull). cbn [bind].
    apply bind_Ok in Hfull as (score & -> & [= <-]). cbn [bind].
    eexists _, _. split; [reflexivity | apply ab_rel_exact].
  - apply bind_Ok in Hfull as (moves & Hgen & Hfull).
    destruct is_white; rewrite Hgen; cbn [bind].
    + destruct (max_loop_sound _ _ (fun b a be v => IH b (depth - 1) false a be v)
                  board alpha beta moves NegInf None NegInf v)
        as (r & bm & Hr & Hrel);
        [rewrite max_NegInf_r; exact Hwin | apply ab_rel_exact | exact Hfull |].
      rewrite max_NegInf_r in Hr. eauto.
    + destruct (min_loop_sound _ _ (fun b a be v => IH b (depth - 1) true a be v)
                  board alpha beta moves PosInf None PosInf v)
        as (r & bm & Hr & Hrel);
        [rewrite min_PosInf_r; exact Hwin | apply ab_rel_exact | exact Hfull |].
      rewrite min_PosInf_r in Hr. eauto.
Qed.

Lemma minimax_gpu_full_total (fuel : nat) :
  forall (board : Board) (depth : Z) (is_white : bool),
    wf_board board = true -> 0 <= depth < Z.of_nat fuel ->
    exists v, minimax_gpu_full fuel board depth is_white = Ok v.
Proof.
  induction fuel as [| fuel IH]; intros board depth is_white Hwf Hd; [lia |].
  cbn [minimax_gpu_full].
  destruct (Z.eqb_spec depth 0) as [_ | Hne].
  - destruct (gpu_leaf_total board Hwf) as (score & Hscore).
    apply bind_Ok in Hscore as (tensor & Ht & Hs).
    rewrite Ht. cbn [bind]. rewrite Hs. cbn [bind]. eauto.
  - destruct (generate_moves_total board is_white Hwf) as (moves & -> & Hmoves).
    cbn [bind].
    destruct is_white.
    + apply max_full_total; [| exact Hwf | exact Hmoves].
      intros b Hb. apply IH; [exact Hb | lia].
    + apply min_full_total; [| exact Hwf | exact Hmoves].
      intros b Hb. apply IH; [exact Hb | lia].
Qed.

(** X15: the pruning of [minimax_gpu] is exact at the root as well: on
    every well-formed board, for every depth that is not negative and either
    side, [minimax_gpu] called with the window from minus to plus infinity
    returns the value of the same search without [break] and window. *)
Theorem minimax_gpu_equals_full_minimax :
  forall (fuel : nat) (board : Board) (depth : Z) (is_white : bool),
    wf_board board = true ->
    0 <= depth < Z.of_nat fuel ->
    exists v best_move,
      minimax_gpu_full fuel board depth is_white = Ok v
      /\ minimax_gpu fuel board depth is_white NegInf PosInf = Ok (v, best_move).
Proof.
  intros fuel board depth is_white Hwf Hd.
  destruct (minimax_gpu_full_total fuel board depth is_white Hwf Hd) as (v & Hv).
  destruct (minimax_gpu_sound fuel board depth is_white NegInf PosInf v eq_refl Hv)
    as (r & m & Hr & Hrel).
  apply ab_rel_full_window in Hrel. subst r. eauto.
Qed.

Lemma minimax_gpu_equals_full_minimax_witness :
  exists v best_move,
    minimax_gpu_full 3 initialize_board 2 true = Ok v
    /\ minimax_gpu 3 initialize_board 2 true NegInf PosInf = Ok (v, best_move).
Proof.
  apply (minimax_gpu_equals_full_minimax 3 initialize_board 2 true); [reflexivity | lia].
Defined.

(** X16: at depth 0 the two searches differ on boards that are not
    well-formed: [minimax] sums whatever rows and cells the board has and
    returns, [minimax_gpu] reads the 64 squares and raises [IndexError] when
    one of them is missing. *)
Theorem depth_zero_on_short_board :
  forall (fuel : nat) (board : Board) (is_white : bool) (alpha beta : num),
    shape_ok board = false ->
    minimax (S fuel) board 0 is_white alpha beta = Ok (Fin (evaluate_board board), None)
    /\ minimax_gpu (S fuel) board 0 is_white alpha beta = Raise IndexError.
Proof.
  intros fuel board is_white alpha beta Hshape. split; [reflexivity |].
  cbn [minimax_gpu]. change (0 =? 0) with true. cbv iota.
  rewrite (board_to_tensor_raises board Hshape). reflexivity.
Qed.

Lemma depth_zero_on_short_board_witness :
  minimax 1 [["P"]] 0 true NegInf PosInf = Ok (Fin (evaluate_board [["P"]]), None)
  /\ minimax_gpu 1 [["P"]] 0 true NegInf PosInf = Raise IndexError.
Proof.
  apply (depth_zero_on_short_board 0 [["P"]] true NegInf PosInf). reflexivity.
Defined.

(** ** The printed board *)

Lemma join_row_cons (c : ascii) (row : Row) :
  row <> [] -> join_row (c :: row) = c :: " " :: join_row row.
Proof. destruct row; [congruence | reflexivity]. Qed.

Lemma join_row_length (row : Row) :
  length (join_row row) = (2 * length row - 1)%nat.
Proof.
  induction row as [| c row IH]; [reflexivity |].
  destruct row as [| c' row]; [reflexivity |].
  rewrite join_row_cons by discriminate. cbn [length] in *. lia.
Qed.

Lemma join_row_even (row : Row) (j : nat) :
  join_row row !! (2 * j)%nat = row !! j.
Proof.
  revert j. induction row as [| c row IH]; intros j; [reflexivity |].
  destruct row as [| c' row].
  - destruct j as [| j]; [reflexivity |].
    replace (2 * S j)%nat with (S (S (2 * j))) by lia. reflexivity.
  - rewrite join_row_cons by discriminate.
    destruct j as [| j]; [reflexivity |].
    replace (2 * S j)%nat with (S (S (2 * j))) by lia.
    change ((c :: " " :: join_row (c' :: row)) !! S (S (2 * j)))
      with (join_row (c' :: row) !! (2 * j)%nat).
    rewrite IH. reflexivity.
Qed.

Lemma join_row_odd (row : Row) (j : nat) :
  (S j < length row)%nat -> join_row row !! (2 * j + 1)%nat = Some " ".
Proof.
  revert j. induction row as [| c row IH]; intros j Hj; [cbn in Hj; lia |].
  destruct row as [| c' row]; [cbn in Hj; lia |].
  rewrite join_row_cons by discriminate.
  destruct j as [| j]; [reflexivity |].
  replace (2 * S j + 1)%nat with (S (S (2 * j + 1))) by lia.
  change ((c :: " " :: join_row (c' :: row)) !! S (S (2 * j + 1)))
    with (join_row (c' :: row) !! (2 * j + 1)%nat).
  apply IH. cbn [length] in *. lia.
Qed.

Lemma lookup_map_join (board : Board) (i : nat) (row : Row) :
  board !! i = Some row -> map join_row board !! i = Some (join_row row).
Proof.
  revert i. induction board as [| r board IH]; intros i; [discriminate |].
  destruct i as [| i]; cbn; [intros [= ->]; reflexivity | apply IH].
Qed.

(** X17: [print_board] prints one line per row of the board and then an
    empty line, after what was printed before.  In the line of a row the
    cells stand at the even positions and single spaces at the odd positions
    between them, so a row of n >= 1 cells gives a line of 2n - 1
    characters. *)
Theorem print_board_format :
  forall (board : Board) (out : list (list ascii)),
    length (print_board board out) = (length out + length board + 1)%nat
    /\ last (print_board board out) = Some []
    /\ forall (i : nat) (row : Row),
        board !! i = Some row ->
        exists line,
          print_board board out !! (length out + i)%nat = Some line
          /\ length line = (2 * length row - 1)%nat
          /\ (forall j, line !! (2 * j)%nat = row !! j)
          /\ (forall j, (S j < length row)%nat -> line !! (2 * j + 1)%nat = Some " ").
Proof.
  intros board out. unfold print_board. split; [| split].
  - rewrite !length_app, length_map. cbn [length]. lia.
  - rewrite app_assoc. apply last_snoc.
  - intros i row Hrow. exists (join_row row). split.
    + rewrite lookup_app_r by lia.
      replace (length out + i - length out)%nat with i by lia.
      rewrite lookup_app_l by (rewrite length_map; eapply lookup_lt_Some; exact Hrow).
      apply lookup_map_join. exact Hrow.
    + split; [apply join_row_length |].
      split; [apply join_row_even | apply join_row_odd].
Qed.

Lemma print_board_format_witness :
  exists line,
    print_board initialize_board [] !! (0 + 6)%nat = Some line
    /\ length line = 15%nat
    /\ line !! 0%nat = Some "P" /\ line !! 1%nat = Some " ".
Proof.
  destruct (proj2 (proj2 (print_board_format initialize_board [])) 6%nat
              ["P"; "P"; "P"; "P"; "P"; "P"; "P"; "P"] eq_refl)
    as (line & Hline & Hlen & Heven & Hodd).
  exists line. split; [exact Hline |]. split; [exact Hlen |].
  split; [exact (Heven 0%nat) | apply (Hodd 0%nat); cbn; lia].
Defined.

(** ** The game loop *)

(** The search of [play_game] on a well-formed board returns, and the move
    it returns lies on the board. *)
Lemma search_for_play (board : Board) (is_white : bool) :
  wf_board board = true ->
  exists score best_move,
    minimax 4 board 3 is_white NegInf PosInf = Ok (score, best_move)
    /\ forall m, best_move = Some m -> on_board m = true.
Proof.
  intros Hwf.
  destruct (minimax_full_total 4 board 3 is_white Hwf) as (v & Hv); [lia |].
  destruct (minimax_root_exact 4 board 3 is_white v Hv) as (bm & Hrun).
  exists v, bm. split; [exact Hrun |].
  intros m ->.
  destruct (minimax_best_generated 4 board 3 is_white NegInf PosInf v (Some m))
    as [_ Hgen]; [lia | exact Hrun |].
  destruct (Hgen m eq_refl) as (moves & Hmoves & Hin).
  destruct (generate_moves_total board is_white Hwf) as (moves' & Hmoves' & Hall).
  assert (moves' = moves) by congruence. subst moves'.
  rewrite Forall_forall in Hall. apply Hall. exact Hin.
Qed.

Lemma play_turns_runs (turns : list Z) :
  forall (board : Board) (is_white_turn : bool) (out : list (list ascii)),
    wf_board board = true ->
    exists board' out' (shown : nat) (stopped : bool),
      play_turns turns board is_white_turn out = (Ok board', out')
      /\ wf_board board' = true
      /\ (shown <= length turns)%nat
      /\ length out' = (length out + 10 * shown + if stopped then 1 else 0)%nat
      /\ (stopped = false -> shown = length turns)
      /\ (stopped = true ->
          (1 <= shown)%nat
          /\ exists side, last out' = Some (Text.no_moves_message side)).
Proof.
  induction turns as [| turn rest IH]; intros board is_white_turn out Hwf; cbn [play_turns].
  - exists board, out, 0%nat, false.
    split; [reflexivity |]. split; [exact Hwf |]. split; [cbn [length]; lia |].
    split; [lia |]. split; [reflexivity | discriminate].
  - destruct (search_for_play board is_white_turn Hwf) as (score & bm & -> & Hbm).
    assert (Hprinted :
              length (print_board board (out ++ [Text.turn_header turn is_white_turn]))
              = (length out + 10)%nat).
    { unfold print_board. rewrite !length_app, length_map, (wf_board_length _ Hwf).
      cbn [length]. lia. }
    destruct bm as [m |].
    + destruct (make_move_total board m Hwf (Hbm m eq_refl)) as (board1 & -> & Hwf1).
      destruct (IH board1 (negb is_white_turn)
                  (print_board board (out ++ [Text.turn_header turn is_white_turn])) Hwf1)
        as (board' & out' & shown & stopped & Hrun & Hwf' & Hshown & Hlen & Hall & Hstop).
      exists board', out', (S shown), stopped.
      split; [exact Hrun |]. split; [exact Hwf' |].
      split; [cbn [length]; lia |].
      split; [rewrite Hlen, Hprinted; lia |].
      split; [intros Hs; cbn [length]; rewrite (Hall Hs); reflexivity |].
      intros Hs. destruct (Hstop Hs) as [_ Hlast]. split; [lia | exact Hlast].
    + exists board, (print_board board (out ++ [Text.turn_header turn is_white_turn])
                       ++ [Text.no_moves_message is_white_turn]), 1%nat, true.
      split; [reflexivity |]. split; [exact Hwf |].
      split; [cbn [length]; lia |].
      split; [rewrite length_app, Hprinted; cbn [length]; lia |].
      split; [discriminate |].
      intros _. split; [lia |]. exists is_white_turn. apply last_snoc.
Qed.

(** X18: started on a well-formed board, the loop of [play_game] raises no
    exception, whatever the number of turns, the side to start and the
    position: every search returns, every move it returns can be applied,
    and the board stays well-formed.  Each turn shown prints ten lines (the
    header, the eight rows, an empty line); the loop either shows every turn,
    or stops after printing, as its last line, that a side has no legal
    moves. *)
Theorem play_turns_never_fails :
  forall (turns : list Z) (board : Board) (is_white_turn : bool)
         (out : list (list ascii)),
    wf_board board = true ->
    exists board' out' (shown : nat) (stopped : bool),
      play_turns turns board is_white_turn out = (Ok board', out')
      /\ wf_board board' = true
      /\ (shown <= length turns)%nat
      /\ length out' = (length out + 10 * shown + if stopped then 1 else 0)%nat
      /\ (stopped = false -> shown = length turns)
      /\ (stopped = true ->
          (1 <= shown)%nat
          /\ exists side, last out' = Some (Text.no_moves_message side)).
Proof. exact play_turns_runs. Qed.

Lemma play_turns_never_fails_witness :
  exists board' out' (shown : nat) (stopped : bool),
    play_game = (Ok board', out')
    /\ wf_board board' = true
    /\ (shown <= length (range 50))%nat
    /\ length out' = (length (@nil (list ascii)) + 10 * shown + if stopped then 1 else 0)%nat
    /\ (stopped = false -> shown = length (range 50))
    /\ (stopped = true ->
        (1 <= shown)%nat
        /\ exists side, last out' = Some (Text.no_moves_message side)).
Proof.
  apply (play_turns_never_fails (range 50) initialize_board true []). reflexivity.
Defined.

(** ** Copies and moves on the store *)

(** X19: what one round of the search loop does to the store.  For a board
    whose rows are distinct objects, [copy.deepcopy(board)] followed by
    [make_move(new_board, move)] succeeds whenever the move can be made on
    the position; afterwards the new reference denotes the position after
    the move, the original reference still denotes the position before it,
    and every object that existed before is unchanged. *)
Theorem copy_then_move :
  forall (h : Store.heap) (board : Store.loc) (b b' : Board) (m : Move),
    rep h board b ->
    make_move b m = Ok b' ->
    exists new_board h1 h2,
      StoreEngine.deepcopy board h = (Ok new_board, h1)
      /\ StoreEngine.make_move new_board m h1 = (Ok tt, h2)
      /\ h ⊆ h2
      /\ rep h2 board b
      /\ rep h2 new_board b'.
Proof.
  intros h board b b' m Hrep Hmove.
  destruct (deepcopy_spec h board b Hrep) as (nb & h1 & Hcopy & Hsub1 & Hrep1 & Hown).
  destruct (make_move_spec h1 nb b m Hrep1) as (h2 & Hrun & Hrep2).
  rewrite Hmove in Hrun. cbn [omap bind] in Hrun.
  pose proof (make_move_keeps h h1 h2 nb m _ Hrun Hsub1 Hown) as Hsub2.
  exists nb, h1, h2. split; [exact Hcopy |]. split; [exact Hrun |].
  split; [exact Hsub2 |]. split; [eapply rep_weaken; eassumption | apply Hrep2; exact Hmove].
Qed.

Lemma copy_then_move_witness :
  exists new_board h1 h2,
    StoreEngine.deepcopy initial_ref initial_store = (Ok new_board, h1)
    /\ StoreEngine.make_move new_board ((6, 4), (5, 4)) h1 = (Ok tt, h2)
    /\ initial_store ⊆ h2
    /\ rep h2 initial_ref initialize_board
    /\ rep h2 new_board
         [ ["r"; "n"; "b"; "q"; "k"; "b"; "n"; "r"];
           ["p"; "p"; "p"; "p"; "p"; "p"; "p"; "p"];
           ["."; "."; "."; "."; "."; "."; "."; "."];
           ["."; "."; "."; "."; "."; "."; "."; "."];
           ["."; "."; "."; "."; "."; "."; "."; "."];
           ["."; "."; "."; "."; "P"; "."; "."; "."];
           ["P"; "P"; "P"; "P"; "."; "P"; "P"; "P"];
           ["R"; "N"; "B"; "Q"; "K"; "B"; "N"; "R"] ].
Proof.
  apply (copy_then_move initial_store initial_ref initialize_board _ ((6, 4), (5, 4)));
    [apply initial_rep | vm_compute; reflexivity].
Defined.

(** X20: [make_move] called on a board itself, as [play_game] does, updates
    it in place: for a board whose rows are distinct objects the call
    succeeds or raises exactly as the move does on the position, and after a
    successful call the same reference denotes the position after the
    move. *)
Theorem make_move_in_place :
  forall (h : Store.heap) (board : Store.loc) (b : Board) (m : Move),
    rep h board b ->
    exists h',
      StoreEngine.make_move board m h = (omap (fun _ => tt) (make_move b m), h')
      /\ forall b', make_move b m = Ok b' -> rep h' board b'.
Proof. exact make_move_spec. Qed.

Lemma make_move_in_place_witness :
  exists h',
    StoreEngine.make_move initial_ref ((6, 4), (5, 4)) initial_store
    = (omap (fun _ => tt) (make_move initialize_board ((6, 4), (5, 4))), h')
    /\ forall b', make_move initialize_board ((6, 4), (5, 4)) = Ok b' -> rep h' initial_ref b'.
Proof.
  apply (make_move_in_place initial_store initial_ref initialize_board ((6, 4), (5, 4))).
  apply initial_rep.
Defined.

(** X21: the search on the store returns what the search on positions
    returns: for a board whose rows are distinct objects the result of
    [minimax] (score, move, or exception) depends only on the position the
    reference denotes, not on the other objects of the store, and is the one
    computed on that position. *)
Theorem minimax_depends_on_position_only :
  forall (fuel : nat) (board : Store.loc) (b : Board) (depth : Z) (is_white : bool)
         (alpha beta : num) (h : Store.heap),
    rep h board b ->
    fst (StoreEngine.minimax fuel board depth is_white alpha beta h)
    = minimax fuel b depth is_white alpha beta.
Proof. intros fuel. exact (store_minimax_refines fuel). Qed.

Lemma minimax_depends_on_position_only_witness :
  fst (StoreEngine.minimax 3 initial_ref 2 true NegInf PosInf initial_store)
  = minimax 3 initialize_board 2 true NegInf PosInf.
Proof.
  apply (minimax_depends_on_position_only 3 initial_ref initialize_board 2 true
           NegInf PosInf initial_store).
  apply initial_rep.
Defined.

(** ** No exception on well-formed boards *)

Section LoopsTotal.
Variable child : Board -> num -> num -> outcome (num * option Move).
Hypothesis child_total :
  forall b alpha beta, wf_board b = true -> exists s bm, child b alpha beta = Ok (s, bm).


End LoopsTotal.




(** ** The evaluator on every board *)

(** X23: on every board, of any shape, [evaluate_board] is the negation of
    the material balance counted for White (upper-case pieces positive,
    lower-case pieces negative, with values 1, 3, 3, 5, 9, 0); characters
    that are not piece letters count 0. *)
Theorem evaluate_board_is_negated_material :
  forall (board : Board), evaluate_board board = - material_score board.
Proof. exact evaluate_board_negates_material. Qed.
